(** * Day 12 of the puzzle collection: garden regions, perimeters and sides

    A shallow embedding of [src/D12/main.ts].  The script reads a text
    grid, segments it into maximal 4-connected regions of one symbol by
    breadth-first flood fill, and prints two totals: the sum of
    [area * perimeter] and the sum of [area * sides] over all regions.

    Conventions of the embedding:
    - a JavaScript [number] that only ever holds an integer is a [Z];
    - a JavaScript string is a [string], one [ascii] per code unit;
    - [Set<string>] is a [gset string], [Record<string, _>] a [gmap string _];
    - arrays are lists, array updates by index are list inserts;
    - the two [while] loops take a [fuel : nat] bounding their iterations
      and return [None] when it runs out; lookups of a key or index that
      the script never performs outside the table also give [None]. *)

From Stdlib Require Import ZArith Lia Ascii String DecimalString DecimalZ DecimalPos Wf_nat.
From stdpp Require Import base option list gmap sets strings relations.

Open Scope Z_scope.

(** ** Data model *)

(** [type Cell = { x: number; y: number }] *)
Record Cell := mkCell { cell_x : Z; cell_y : Z }.

(** A symbol read from the grid: one character, or [None] for the
    [undefined] that indexing past the end of a short row gives. *)
Abbreviation Symbol := (option ascii).

(** [type Region = { cells: Cell[]; char: string }] *)
Record Region := mkRegion { cells : list Cell; char : Symbol }.

(** The object returned by [parseInput]. *)
Record Parsed := mkParsed { grid : list (list ascii); height : Z; width : Z }.

#[global] Instance Cell_eq_dec : EqDecision Cell.
Proof. solve_decision. Defined.

(** ** Text handling *)

(** The code units below 256 that [String.prototype.trim] strips. *)
Definition isWhiteSpace (a : ascii) : bool :=
  bool_decide (nat_of_ascii a ∈ [9; 10; 11; 12; 13; 32; 160]%nat).

Fixpoint trimStart (l : list ascii) : list ascii :=
  match l with
  | a :: l' => if isWhiteSpace a then trimStart l' else l
  | [] => []
  end.

Definition trim (s : string) : string :=
  string_of_list_ascii
    (rev (trimStart (rev (trimStart (list_ascii_of_string s))))).

(** [s.split(sep)] for a one-character separator. *)
Fixpoint split (sep : ascii) (s : string) : list string :=
  match s with
  | EmptyString => [EmptyString]
  | String a s' =>
      if Ascii.eqb a sep then EmptyString :: split sep s'
      else match split sep s' with
           | piece :: rest => String a piece :: rest
           | [] => [String a EmptyString]
           end
  end.

(** The last line of [parseInput]: the grid with its dimensions.  The
    script reads [grid[0].length]; [grid[0]] exists for every text, since
    [split] returns at least one line. *)
Definition gridInput (g : list (list ascii)) : Parsed :=
  {| grid := g;
     height := Z.of_nat (length g);
     width := Z.of_nat (length (default [] (head g))) |}.

(** [parseInput], applied to the text that [fs.readFileSync] returned. *)
Definition parseInput (text : string) : Parsed :=
  let lines := split "010"%char (trim text) in
  gridInput (map list_ascii_of_string lines).

(** [coordinateKey]: the template literal prints each integer in decimal. *)
Definition coordinateKey (x y : Z) : string :=
  NilZero.string_of_int (Z.to_int x) +:+ "," +:+ NilZero.string_of_int (Z.to_int y).

(** [Number(s)] on signed decimal integer literals; [None] stands for every
    other string (where JavaScript gives [NaN] or a value read by another
    rule), which the script never passes. *)
Definition Number (s : string) : option Z :=
  Z.of_int <$> NilZero.int_of_string s.

(** [parseCoordinateKey]: [const [x, y] = key.split(",").map(Number)]. *)
Definition parseCoordinateKey (key : string) : option (Z * Z) :=
  match split ","%char key with
  | sx :: sy :: _ => x ← Number sx; y ← Number sy; Some (x, y)
  | _ => None
  end.

(** ** The grid *)

Definition directions : list (Z * Z) := [(0, -1); (1, 0); (0, 1); (-1, 0)].

(** A [forEach] whose body can fail. *)
Fixpoint forEachM {A B : Type} (f : A → B → option A) (a : A) (l : list B)
  : option A :=
  match l with
  | [] => Some a
  | b :: l' => a' ← f a b; forEachM f a' l'
  end.

Section Garden.

Variable inp : Parsed.

Definition inBounds (x y : Z) : bool :=
  bool_decide (x >= 0) && bool_decide (x < width inp)
  && bool_decide (y >= 0) && bool_decide (y < height inp).

(** [grid[y][x]], read at loop indices and after [inBounds(x, y)] only,
    so with a row [y] that exists; [None] is the [undefined] of a row too
    short for [x]. *)
Definition gridAt (x y : Z) : Symbol :=
  row ← grid inp !! Z.to_nat y; row !! Z.to_nat x.

(** [visited[y][x]], read where [inBounds(x, y)] holds. *)
Definition visitedAt (visited : list (list bool)) (x y : Z) : bool :=
  default false (row ← visited !! Z.to_nat y; row !! Z.to_nat x).

(** [visited[y][x] = true], written where [inBounds(x, y)] holds. *)
Definition markVisited (visited : list (list bool)) (x y : Z) : list (list bool) :=
  match visited !! Z.to_nat y with
  | Some row => <[Z.to_nat y := <[Z.to_nat x := true]> row]> visited
  | None => visited
  end.

(** ** Region segmentation *)

(** The loop state of the flood fill. *)
Record Fill := mkFill
  { fill_visited : list (list bool); fill_cells : list Cell; fill_queue : list Cell }.

(** The body of [directions.forEach] inside the [while] loop. *)
Definition visitNeighbor (character : Symbol) (c : Cell) (st : Fill) (d : Z * Z) : Fill :=
  let nx := cell_x c + d.1 in
  let ny := cell_y c + d.2 in
  if inBounds nx ny && negb (visitedAt (fill_visited st) nx ny)
     && bool_decide (gridAt nx ny = character)
  then {| fill_visited := markVisited (fill_visited st) nx ny;
          fill_cells := fill_cells st ++ [mkCell nx ny];
          fill_queue := fill_queue st ++ [mkCell nx ny] |}
  else st.

(** [while (queue.length) { ... }] *)
Fixpoint floodFill (fuel : nat) (character : Symbol) (st : Fill) : option Fill :=
  match fill_queue st with
  | [] => Some st
  | c :: rest =>
      match fuel with
      | O => None
      | S fuel' =>
          floodFill fuel' character
            (foldl (visitNeighbor character c)
               {| fill_visited := fill_visited st;
                  fill_cells := fill_cells st;
                  fill_queue := rest |}
               directions)
      end
  end.

(** The body of the two nested [for] loops of [findRegions]. *)
Definition scanCell (fuel : nat) (y : Z) (st : list (list bool) * list Region) (x : Z)
  : option (list (list bool) * list Region) :=
  let '(visited, regions) := st in
  if negb (visitedAt visited x y) then
    let visited := markVisited visited x y in
    let character := gridAt x y in
    st' ← floodFill fuel character
            {| fill_visited := visited;
               fill_cells := [mkCell x y];
               fill_queue := [mkCell x y] |};
    Some (fill_visited st',
          regions ++ [{| cells := fill_cells st'; char := character |}])
  else Some st.

Definition scanRow (fuel : nat) (st : list (list bool) * list Region) (y : Z)
  : option (list (list bool) * list Region) :=
  forEachM (scanCell fuel y) st (seqZ 0 (width inp)).

Definition findRegions (fuel : nat) : option (list Region) :=
  let visited :=
    replicate (Z.to_nat (height inp)) (replicate (Z.to_nat (width inp)) false) in
  snd <$> forEachM (scanRow fuel) (visited, []) (seqZ 0 (height inp)).

(** ** Perimeter *)

Definition cellKeys (region : Region) : gset string :=
  list_to_set (map (λ c, coordinateKey (cell_x c) (cell_y c)) (cells region)).

Definition exposed (cellSet : gset string) (c : Cell) (perimeter : Z) (d : Z * Z) : Z :=
  let nx := cell_x c + d.1 in
  let ny := cell_y c + d.2 in
  if negb (inBounds nx ny) || negb (bool_decide (coordinateKey nx ny ∈ cellSet))
  then perimeter + 1
  else perimeter.

Definition computePerimeter (region : Region) : Z :=
  let cellSet := cellKeys region in
  foldl (λ perimeter c, foldl (exposed cellSet c) perimeter directions)
    0 (cells region).

End Garden.

(** ** Union-find over string keys *)

(** The two tables captured by the closures of [createUnionFind], with the
    element array they were built from. *)
Record UnionFind := mkUnionFind
  { uf_elements : list string;
    uf_parent : gmap string string;
    uf_size : gmap string Z }.

Definition createUnionFind (elements : list string) : UnionFind :=
  foldl (λ uf e, {| uf_elements := uf_elements uf;
                    uf_parent := <[e := e]> (uf_parent uf);
                    uf_size := <[e := 1]> (uf_size uf) |})
    {| uf_elements := elements; uf_parent := ∅; uf_size := ∅ |}
    elements.

(** [find]: the loop with path halving, on the parent table. *)
Fixpoint find (fuel : nat) (parent : gmap string string) (p : string)
  : option (string * gmap string string) :=
  pp ← parent !! p;
  if decide (p = pp) then Some (p, parent)
  else match fuel with
       | O => None
       | S fuel' =>
           gp ← parent !! pp;
           find fuel' (<[p := gp]> parent) gp
       end.

Definition union (fuel : nat) (uf : UnionFind) (a b : string) : option UnionFind :=
  '(rootA, parent1) ← find fuel (uf_parent uf) a;
  '(rootB, parent2) ← find fuel parent1 b;
  if decide (rootA = rootB) then
    Some {| uf_elements := uf_elements uf; uf_parent := parent2; uf_size := uf_size uf |}
  else
    sizeA ← uf_size uf !! rootA;
    sizeB ← uf_size uf !! rootB;
    if bool_decide (sizeA < sizeB) then
      Some {| uf_elements := uf_elements uf;
              uf_parent := <[rootA := rootB]> parent2;
              uf_size := <[rootB := sizeB + sizeA]> (uf_size uf) |}
    else
      Some {| uf_elements := uf_elements uf;
              uf_parent := <[rootB := rootA]> parent2;
              uf_size := <[rootA := sizeA + sizeB]> (uf_size uf) |}.

(** [elements.map(find)], threading the parent table through the calls. *)
Fixpoint findAll (fuel : nat) (parent : gmap string string) (elements : list string)
  : option (list string) :=
  match elements with
  | [] => Some []
  | e :: rest =>
      '(root, parent') ← find fuel parent e;
      roots ← findAll fuel parent' rest;
      Some (root :: roots)
  end.

Definition countComponents (fuel : nat) (uf : UnionFind) : option Z :=
  roots ← findAll fuel (uf_parent uf) (uf_elements uf);
  Some (Z.of_nat (size (list_to_set roots : gset string))).

(** ** Sides *)

Definition unionIfPresent (fuel : nat) (positionSet : gset string)
    (position other : string) (uf : UnionFind) : option UnionFind :=
  if bool_decide (other ∈ positionSet) then union fuel uf position other
  else Some uf.

(** The body of [edgePositions.forEach] in [groupEdgeSegments]. *)
Definition connectPosition (fuel : nat) (positionSet : gset string) (isVertical : bool)
    (uf : UnionFind) (position : string) : option UnionFind :=
  '(x, y) ← parseCoordinateKey position;
  if isVertical then
    let up := coordinateKey x (y - 1) in
    let down := coordinateKey x (y + 1) in
    uf ← unionIfPresent fuel positionSet position up uf;
    unionIfPresent fuel positionSet position down uf
  else
    let left := coordinateKey (x - 1) y in
    let right := coordinateKey (x + 1) y in
    uf ← unionIfPresent fuel positionSet position left uf;
    unionIfPresent fuel positionSet position right uf.

Definition groupEdgeSegments (fuel : nat) (edgePositions : list string)
    (isVertical : bool) : option Z :=
  if bool_decide (length edgePositions = 0%nat) then Some 0
  else
    let uf := createUnionFind edgePositions in
    let positionSet : gset string := list_to_set edgePositions in
    uf ← forEachM (connectPosition fuel positionSet isVertical) uf edgePositions;
    countComponents fuel uf.

(** The four arrays filled by the first loop of [computeSides]. *)
Record Edges := mkEdges
  { leftEdges : list string; rightEdges : list string;
    topEdges : list string; bottomEdges : list string }.

Definition pushUnless (present : bool) (key : string) (edges : list string) : list string :=
  if negb present then edges ++ [key] else edges.

Definition collectEdge (cellSet : gset string) (e : Edges) (c : Cell) : Edges :=
  let x := cell_x c in
  let y := cell_y c in
  let key := coordinateKey x y in
  {| leftEdges := pushUnless (bool_decide (coordinateKey (x - 1) y ∈ cellSet)) key (leftEdges e);
     rightEdges := pushUnless (bool_decide (coordinateKey (x + 1) y ∈ cellSet)) key (rightEdges e);
     topEdges := pushUnless (bool_decide (coordinateKey x (y - 1) ∈ cellSet)) key (topEdges e);
     bottomEdges := pushUnless (bool_decide (coordinateKey x (y + 1) ∈ cellSet)) key (bottomEdges e) |}.

Definition collectEdges (region : Region) : Edges :=
  foldl (collectEdge (cellKeys region)) (mkEdges [] [] [] []) (cells region).

Definition computeSides (fuel : nat) (region : Region) : option Z :=
  let e := collectEdges region in
  l ← groupEdgeSegments fuel (leftEdges e) true;
  r ← groupEdgeSegments fuel (rightEdges e) true;
  t ← groupEdgeSegments fuel (topEdges e) false;
  b ← groupEdgeSegments fuel (bottomEdges e) false;
  Some (l + r + t + b).

(** ** The two answers *)

Definition area (region : Region) : Z := Z.of_nat (length (cells region)).

Definition part1 (inp : Parsed) (regions : list Region) : Z :=
  foldl (λ total region, total + area region * computePerimeter inp region) 0 regions.

Definition part2 (fuel : nat) (regions : list Region) : option Z :=
  forEachM (λ total region,
              sides ← computeSides fuel region;
              Some (total + area region * sides)) 0 regions.

(** Everything after parsing: [regions] is computed once, then [part1()]
    and [part2()] print their totals. *)
Definition answers (fuel : nat) (inp : Parsed) : option (Z * Z) :=
  regions ← findRegions inp fuel;
  let a := part1 inp regions in
  b ← part2 fuel regions;
  Some (a, b).

(** The whole script on the text of [input.txt]: the numbers printed after
    ["Part 1:"] and ["Part 2:"]. *)
Definition main (fuel : nat) (text : string) : option (Z * Z) :=
  answers fuel (parseInput text).

(** How a run of the script ends.  The script has no [throw] and none of
    its operations raises on a text, so [main] never gives [Thrown]. *)
Inductive Outcome :=
  | Printed (first second : Z)
  | Thrown (message : string)
  | OutOfFuel.

Definition script (fuel : nat) (text : string) : Outcome :=
  match main fuel text with
  | Some (a, b) => Printed a b
  | None => OutOfFuel
  end.

(** ** The example grid of the specification *)

Definition exampleText : string :=
  "AAAA" +:+ String "010" ("BBCD" +:+ String "010" ("BBCC" +:+ String "010" "EEEC")).

(** * The trail script that follows in the same file

    The second script of [src/D12/main.ts] (after the separator line)
    reads a grid of digits, finds the trailheads (cells of height 0), and
    prints two totals: the number of height-9 cells reachable from each
    trailhead by steps that climb by exactly 1, and the number of such
    climbing paths.  Its names live in the module [Trail]. *)

Module Trail.

(** A height read from the grid: an integer, or [None] for the [NaN] that
    [Number] gives on a character that is no digit and for the
    [undefined] of a row too short; neither is [===] to any number. *)
Abbreviation Height := (option Z).

(** [Number(ch)] for a string of one character: a digit is its value,
    white space alone is 0, anything else is [NaN]. *)
Definition NumberOfChar (a : ascii) : Height :=
  if isWhiteSpace a then Some 0
  else
    let n := nat_of_ascii a in
    if (48 <=? n)%nat && (n <=? 57)%nat then Some (Z.of_nat (n - 48)) else None.

(** The object returned by [parseInput]. *)
Record Parsed := mkParsed { grid : list (list Height); rows : Z; cols : Z }.

Definition gridInput (g : list (list Height)) : Parsed :=
  {| grid := g;
     rows := Z.of_nat (length g);
     cols := Z.of_nat (length (default [] (head g))) |}.

Definition parseInput (text : string) : Parsed :=
  let lines := split "010"%char (trim text) in
  gridInput (map (λ line, map NumberOfChar (list_ascii_of_string line)) lines).

Definition directions : list (Z * Z) := [(-1, 0); (1, 0); (0, -1); (0, 1)].

(** [coordinateKey]: the same template literal as in the first script. *)
Definition coordinateKey (r c : Z) : string := coordinateKey r c.

(** [a === k] for a height [a] and a number [k]. *)
Definition isNumber (a : Height) (k : Z) : bool :=
  match a with
  | Some z => bool_decide (z = k)
  | None => false
  end.

(** [b === a + 1] for two heights. *)
Definition isNext (a b : Height) : bool :=
  match a with
  | Some z => isNumber b (z + 1)
  | None => false
  end.

Section Grid.

Variable inp : Parsed.

Definition isInBounds (r c : Z) : bool :=
  bool_decide (r >= 0) && bool_decide (r < rows inp)
  && bool_decide (c >= 0) && bool_decide (c < cols inp).

(** [grid[r][c]], read at loop indices and after [isInBounds(r, c)]. *)
Definition gridAt (r c : Z) : Height :=
  row ← grid inp !! Z.to_nat r; mjoin (row !! Z.to_nat c).

(** The body of the inner loop of [getTrailheads]. *)
Definition pushTrailhead (r : Z) (trailheads : list (Z * Z)) (c : Z) : list (Z * Z) :=
  if isNumber (gridAt r c) 0 then trailheads ++ [(r, c)] else trailheads.

Definition getTrailheads : list (Z * Z) :=
  foldl (λ trailheads r, foldl (pushTrailhead r) trailheads (seqZ 0 (cols inp)))
    [] (seqZ 0 (rows inp)).

(** ** Part 1: reachable peaks *)

(** The loop state of [countReachableNines]. *)
Record Search := mkSearch
  { visited : gset string; queue : list (Z * Z); nines : gset string }.

(** The body of [for (const [dr, dc] of directions)]. *)
Definition visitStep (height : Height) (r c : Z) (st : Search) (d : Z * Z) : Search :=
  let nr := r + d.1 in
  let nc := c + d.2 in
  if negb (isInBounds nr nc) then st
  else
    let neighborKey := coordinateKey nr nc in
    if isNext height (gridAt nr nc) && negb (bool_decide (neighborKey ∈ visited st))
    then {| visited := {[neighborKey]} ∪ visited st;
            queue := queue st ++ [(nr, nc)];
            nines := nines st |}
    else st.

(** [while (queue.length > 0) { ... }] *)
Fixpoint search (fuel : nat) (st : Search) : option Search :=
  match queue st with
  | [] => Some st
  | (r, c) :: rest =>
      match fuel with
      | O => None
      | S fuel' =>
          let st := {| visited := visited st; queue := rest; nines := nines st |} in
          let height := gridAt r c in
          if isNumber height 9 then
            search fuel'
              {| visited := visited st; queue := queue st;
                 nines := {[coordinateKey r c]} ∪ nines st |}
          else search fuel' (foldl (visitStep height r c) st directions)
      end
  end.

Definition countReachableNines (fuel : nat) (r0 c0 : Z) : option Z :=
  st ← search fuel {| visited := {[coordinateKey r0 c0]};
                      queue := [(r0, c0)];
                      nines := ∅ |};
  Some (Z.of_nat (size (nines st))).

Definition part1 (fuel : nat) : option Z :=
  forEachM (λ sum '(r, c), n ← countReachableNines fuel r c; Some (sum + n))
    0 getTrailheads.

(** ** Part 2: climbing paths, with a memo table *)

(** [countDistinctPaths]; the fuel bounds the depth of the recursion. *)
Fixpoint countDistinctPaths (fuel : nat) (memo : gmap string Z) (r c : Z)
  : option (Z * gmap string Z) :=
  let key := coordinateKey r c in
  match memo !! key with
  | Some known => Some (known, memo)
  | None =>
      let height := gridAt r c in
      if isNumber height 9 then Some (1, <[key := 1]> memo)
      else
        match fuel with
        | O => None
        | S fuel' =>
            '(total, memo) ←
              forEachM
                (λ '(total, memo) d,
                   let nr := r + d.1 in
                   let nc := c + d.2 in
                   if negb (isInBounds nr nc) then Some (total, memo)
                   else if isNext height (gridAt nr nc) then
                     '(paths, memo) ← countDistinctPaths fuel' memo nr nc;
                     Some (total + paths, memo)
                   else Some (total, memo))
                (0, memo) directions;
            Some (total, <[key := total]> memo)
        end
  end.

Definition part2 (fuel : nat) : option Z :=
  fst <$> forEachM
            (λ '(sum, memo) '(r, c),
               '(paths, memo) ← countDistinctPaths fuel memo r c;
               Some (sum + paths, memo))
            (0, ∅) getTrailheads.

End Grid.

(** The whole script on the text of [input.txt]. *)
Definition main (fuel : nat) (text : string) : option (Z * Z) :=
  let inp := parseInput text in
  a ← part1 inp fuel;
  b ← part2 inp fuel;
  Some (a, b).

(** The larger example of the puzzle text. *)
Definition exampleText : string :=
  "89010123" +:+ String "010" ("78121874" +:+ String "010" ("87430965" +:+ String "010"
  ("96549874" +:+ String "010" ("45678903" +:+ String "010" ("32019012" +:+ String "010"
  ("01329801" +:+ String "010" "10456732")))))).

End Trail.

(** * Specification-side definitions and invariants *)

Fixpoint hasChar (a : ascii) (s : string) : bool :=
  match s with
  | EmptyString => false
  | String b s' => Ascii.eqb b a || hasChar a s'
  end.

(** ** Reading a parent table as a forest *)

(** [rootOf parent x r]: following parent links from [x] ends at the
    self-parented key [r]. *)
Inductive rootOf (parent : gmap string string) : string → string → Prop :=
  | rootOf_here x : parent !! x = Some x → rootOf parent x x
  | rootOf_step x y r :
      parent !! x = Some y → x ≠ y → rootOf parent y r → rootOf parent x r.

Definition sameRoot (parent : gmap string string) (x y : string) : Prop :=
  ∃ r, rootOf parent x r ∧ rootOf parent y r.

(** Parent links stay inside the table. *)
Definition closed (parent : gmap string string) : Prop :=
  ∀ x y, parent !! x = Some y → is_Some (parent !! y).

(** Every proper parent link strictly lowers the rank [h]. *)
Definition ranked (h : string → nat) (parent : gmap string string) : Prop :=
  ∀ x y, parent !! x = Some y → x ≠ y → (h y < h x)%nat.

(** A forest whose ranks are at most [bound]. *)
Definition forest (bound : nat) (parent : gmap string string) : Prop :=
  closed parent ∧ ∃ h, ranked h parent ∧ ∀ x, (h x ≤ bound)%nat.

Definition ufInv (bound : nat) (uf : UnionFind) : Prop :=
  forest bound (uf_parent uf) ∧
  ∀ x, is_Some (uf_parent uf !! x) → is_Some (uf_size uf !! x).

(** ** Connected components of a finite set under an adjacency relation *)

(** Two members of [S] are connected when a chain of adjacent members of
    [S] joins them. *)
Definition connectedIn {A : Type} (adj : relation A) (S : list A) : relation A :=
  rtsc (λ a b, a ∈ S ∧ b ∈ S ∧ adj a b).

(** [reps] picks exactly one member out of every connected component. *)
Definition transversal {A : Type} (adj : relation A) (S reps : list A) : Prop :=
  NoDup reps ∧
  (∀ r, r ∈ reps → r ∈ S) ∧
  (∀ r1 r2, r1 ∈ reps → r2 ∈ reps → connectedIn adj S r1 r2 → r1 = r2) ∧
  (∀ a, a ∈ S → ∃ r, r ∈ reps ∧ connectedIn adj S a r).

(** [S] has [n] connected components. *)
Definition componentCount {A : Type} (adj : relation A) (S : list A) (n : Z) : Prop :=
  ∃ reps, transversal adj S reps ∧ n = Z.of_nat (length reps).

(** ** Boundary cells of a region, by orientation *)

Definition keyOf (c : Cell) : string := coordinateKey (cell_x c) (cell_y c).

Inductive Orientation := LeftEdge | RightEdge | TopEdge | BottomEdge.

(** The neighbour of a cell across its edge of the given orientation. *)
Definition across (o : Orientation) (c : Cell) : Cell :=
  match o with
  | LeftEdge => mkCell (cell_x c - 1) (cell_y c)
  | RightEdge => mkCell (cell_x c + 1) (cell_y c)
  | TopEdge => mkCell (cell_x c) (cell_y c - 1)
  | BottomEdge => mkCell (cell_x c) (cell_y c + 1)
  end.

(** The cells of the region whose neighbour across the edge of
    orientation [o] is not in the region. *)
Definition boundaryCells (o : Orientation) (region : Region) : list Cell :=
  filter (λ c, across o c ∉ cells region) (cells region).

(** Left and right edges lie on vertical lines, top and bottom edges on
    horizontal ones. *)
Definition isVerticalEdge (o : Orientation) : bool :=
  match o with LeftEdge | RightEdge => true | TopEdge | BottomEdge => false end.

(** Adjacency along the boundary line: same x and y differing by 1 on a
    vertical line, same y and x differing by 1 on a horizontal one. *)
Definition sideAdjacent (isVertical : bool) (a b : Cell) : Prop :=
  if isVertical
  then cell_x a = cell_x b ∧ Z.abs (cell_y a - cell_y b) = 1
  else cell_y a = cell_y b ∧ Z.abs (cell_x a - cell_x b) = 1.

(** The number of sides of one orientation. *)
Definition sidesOf (o : Orientation) (region : Region) (n : Z) : Prop :=
  componentCount (sideAdjacent (isVerticalEdge o)) (boundaryCells o region) n.

(** The invariant of the loop of [groupEdgeSegments] over the boundary
    cells [cs], after the cells [processed]. *)
Definition groupInv (cs : list Cell) (isVertical : bool)
    (bound : nat) (processed : list Cell) (uf : UnionFind) : Prop :=
  ufInv bound uf ∧
  uf_elements uf = map keyOf cs ∧
  (∀ k, is_Some (uf_parent uf !! k) ↔ k ∈ map keyOf cs) ∧
  (∀ a b, a ∈ cs → b ∈ cs → sameRoot (uf_parent uf) (keyOf a) (keyOf b) →
          connectedIn (sideAdjacent isVertical) cs a b) ∧
  (∀ a b, a ∈ processed → b ∈ cs → sideAdjacent isVertical a b →
          sameRoot (uf_parent uf) (keyOf a) (keyOf b)).

Definition edgesOf (o : Orientation) (e : Edges) : list string :=
  match o with
  | LeftEdge => leftEdges e
  | RightEdge => rightEdges e
  | TopEdge => topEdges e
  | BottomEdge => bottomEdges e
  end.

(** ** The visited matrix and the flood fill *)

(** The number of [false] entries of a row, and of the whole matrix. *)
Definition countFalse (row : list bool) : nat := length (filter (λ b, b = false) row).

Definition unvisited (visited : list (list bool)) : nat :=
  sum_list (countFalse <$> visited).

(** The cell one step from [c] in direction [d]. *)
Definition neighbor (c : Cell) (d : Z * Z) : Cell :=
  mkCell (cell_x c + d.1) (cell_y c + d.2).

Definition allCellsOf (regions : list Region) : list Cell :=
  regions ≫= cells.

Section GardenInvariants.

Variable inp : Parsed.

Definition cellInBounds (c : Cell) : Prop := inBounds inp (cell_x c) (cell_y c) = true.

Definition symbolAt (c : Cell) : Symbol := gridAt inp (cell_x c) (cell_y c).

(** The matrix has [height] rows of [width] entries. *)
Definition wfVisited (visited : list (list bool)) : Prop :=
  length visited = Z.to_nat (height inp) ∧
  Forall (λ row, length row = Z.to_nat (width inp)) visited.

(** The matrix marks exactly the in-bounds cells listed in [cs]. *)
Definition marks (visited : list (list bool)) (cs : list Cell) : Prop :=
  ∀ c, cellInBounds c → visitedAt visited (cell_x c) (cell_y c) = true ↔ c ∈ cs.

(** Every in-bounds neighbour of [c] in one of the directions [ds] that
    holds the symbol [character] is listed in [cs]. *)
Definition closedAt (character : Symbol) (cs : list Cell) (ds : list (Z * Z)) (c : Cell) : Prop :=
  ∀ d, d ∈ ds → cellInBounds (neighbor c d) → symbolAt (neighbor c d) = character →
       neighbor c d ∈ cs.

(** The invariant of the [while] loop of one flood fill: [prev] are the
    cells of the regions found before, [processed] the cells already
    taken out of the queue. *)
Definition fillInv (character : Symbol) (prev processed : list Cell) (st : Fill) : Prop :=
  wfVisited (fill_visited st) ∧
  fill_cells st = processed ++ fill_queue st ∧
  marks (fill_visited st) (prev ++ fill_cells st) ∧
  NoDup (prev ++ fill_cells st) ∧
  (∀ c, c ∈ fill_cells st → cellInBounds c ∧ symbolAt c = character) ∧
  (∀ c, c ∈ processed → closedAt character (prev ++ fill_cells st) directions c).

(** The invariant of the scan of [findRegions]. *)
Definition scanInv (st : list (list bool) * list Region) : Prop :=
  wfVisited st.1 ∧
  marks st.1 (allCellsOf st.2) ∧
  NoDup (allCellsOf st.2) ∧
  (∀ r, r ∈ st.2 →
     cells r ≠ [] ∧
     ∀ c, c ∈ cells r →
       cellInBounds c ∧ symbolAt c = char r ∧
       closedAt (char r) (cells r) directions c).

End GardenInvariants.

(** The invariant of [directions.forEach] while the cell [c], just taken
    out of the queue, is expanded: the directions [ds] are done. *)
Definition stepInv (inp : Parsed) (character : Symbol) (prev processed : list Cell)
    (c : Cell) (ds : list (Z * Z)) (st : Fill) : Prop :=
  wfVisited inp (fill_visited st) ∧
  fill_cells st = processed ++ c :: fill_queue st ∧
  marks inp (fill_visited st) (prev ++ fill_cells st) ∧
  NoDup (prev ++ fill_cells st) ∧
  (∀ c', c' ∈ fill_cells st → cellInBounds inp c' ∧ symbolAt inp c' = character) ∧
  (∀ c', c' ∈ processed → closedAt inp character (prev ++ fill_cells st) directions c') ∧
  closedAt inp character (prev ++ fill_cells st) ds c.

(** What bounds the remaining iterations of the flood fill. *)
Definition fillMeasure (st : Fill) : nat :=
  (length (fill_queue st) + unvisited (fill_visited st))%nat.

(** What [findRegions] establishes: the scan invariant for some final
    matrix, with every in-bounds cell placed in a region. *)
Definition segmented (inp : Parsed) (regions : list Region) : Prop :=
  (∃ visited, scanInv inp (visited, regions)) ∧
  ∀ c, cellInBounds inp c → c ∈ allCellsOf regions.

(** Fuel that suffices for every flood fill on this input. *)
Definition fillFuel (inp : Parsed) : nat :=
  (Z.to_nat (width inp) * Z.to_nat (height inp))%nat.

(** ** Counting *)

Definition sumZ {A : Type} (f : A → Z) (l : list A) : Z :=
  foldr (λ a acc, f a + acc) 0 l.

(** 1 when the proposition holds, 0 otherwise. *)
Definition indicator (P : Prop) `{Decision P} : Z := if decide P then 1 else 0.

(** The number of sides of the cell [c] that face a cell outside [cs]. *)
Definition exposure (cs : list Cell) (c : Cell) : Z :=
  sumZ (λ d, indicator (neighbor c d ∉ cs)) directions.

(** Two cells are 4-neighbours: they differ by 1 in exactly one coordinate. *)
Definition fourNeighbors (a b : Cell) : Prop :=
  (cell_x a = cell_x b ∧ Z.abs (cell_y a - cell_y b) = 1) ∨
  (cell_y a = cell_y b ∧ Z.abs (cell_x a - cell_x b) = 1).

#[global] Instance fourNeighbors_dec a b : Decision (fourNeighbors a b).
Proof. unfold fourNeighbors. apply _. Defined.

(** The number of pairs of cells of the list that are 4-neighbours, each
    pair counted once. *)
Fixpoint adjacentPairs (l : list Cell) : Z :=
  match l with
  | [] => 0
  | a :: l' => Z.of_nat (length (filter (fourNeighbors a) l')) + adjacentPairs l'
  end.

Definition internalAdjacentPairs (region : Region) : Z := adjacentPairs (cells region).

(** The number of 4-neighbours of [c] listed in [cs]. *)
Definition degree (cs : list Cell) (c : Cell) : Z :=
  indicator (across TopEdge c ∈ cs) + indicator (across RightEdge c ∈ cs)
  + indicator (across BottomEdge c ∈ cs) + indicator (across LeftEdge c ∈ cs).

(** Every cell inside the bounds of the input. *)
Definition gridCells (inp : Parsed) : list Cell :=
  (λ p, mkCell p.1 p.2) <$> cprod (seqZ 0 (width inp)) (seqZ 0 (height inp)).

(** ** Shapes *)

(** The region is the full rectangle of width [w] and height [h] whose
    top-left cell is [(x0, y0)]. *)
Definition isRectangle (region : Region) (x0 y0 w h : Z) : Prop :=
  NoDup (cells region) ∧
  ∀ c, c ∈ cells region ↔
       x0 ≤ cell_x c < x0 + w ∧ y0 ≤ cell_y c < y0 + h.

(** The coordinate that runs along a boundary line, and the one that is
    constant on it. *)
Definition along (isVertical : bool) (c : Cell) : Z :=
  if isVertical then cell_y c else cell_x c.

Definition fixedCoordinate (isVertical : bool) (c : Cell) : Z :=
  if isVertical then cell_x c else cell_y c.

(** [S] is one straight run of [len] cells starting at [lo] on the line
    whose constant coordinate is [k]. *)
Definition isRun (isVertical : bool) (k lo len : Z) (S : list Cell) : Prop :=
  ∀ c, c ∈ S ↔ fixedCoordinate isVertical c = k ∧ lo ≤ along isVertical c < lo + len.

(** The cell at position [t] on the line whose constant coordinate is [k]. *)
Definition lineCell (isVertical : bool) (k t : Z) : Cell :=
  if isVertical then mkCell k t else mkCell t k.

(** The region has a reflex (concave) corner: some 2 by 2 window of cells
    holds exactly three cells of the region. *)
Definition inRegion (region : Region) (x y : Z) : Prop := mkCell x y ∈ cells region.

Definition reflexCornerAt (region : Region) (x y : Z) : Prop :=
  (inRegion region x y ∧ inRegion region (x + 1) y ∧
   inRegion region x (y + 1) ∧ ¬ inRegion region (x + 1) (y + 1)) ∨
  (inRegion region x y ∧ inRegion region (x + 1) y ∧
   ¬ inRegion region x (y + 1) ∧ inRegion region (x + 1) (y + 1)) ∨
  (inRegion region x y ∧ ¬ inRegion region (x + 1) y ∧
   inRegion region x (y + 1) ∧ inRegion region (x + 1) (y + 1)) ∨
  (¬ inRegion region x y ∧ inRegion region (x + 1) y ∧
   inRegion region x (y + 1) ∧ inRegion region (x + 1) (y + 1)).

Definition concave (region : Region) : Prop := ∃ x y, reflexCornerAt region x y.

(** Some straight boundary run of the region is longer than one cell:
    two boundary cells of one orientation are adjacent along the line. *)
Definition hasLongRun (region : Region) : Prop :=
  ∃ o a b, a ∈ boundaryCells o region ∧ b ∈ boundaryCells o region ∧
           sideAdjacent (isVerticalEdge o) a b.

(** How far a cell lies in the direction an edge of orientation [o] faces. *)
Definition outward (o : Orientation) (c : Cell) : Z :=
  match o with
  | LeftEdge => - cell_x c
  | RightEdge => cell_x c
  | TopEdge => - cell_y c
  | BottomEdge => cell_y c
  end.

(** ** Inputs *)

(** A well-formed grid: at least one row, no empty row, all rows of the
    length of the first. *)
Definition wellFormed (g : list (list ascii)) : bool :=
  match g with
  | [] => false
  | row :: _ =>
      negb (Nat.eqb (length row) 0) &&
      forallb (λ r, Nat.eqb (length r) (length row)) g
  end.

(** The two kinds of malformed input of the specification. *)
Definition emptyInput (text : string) : Prop := trim text = EmptyString.

Definition unequalRows (g : list (list ascii)) : Prop :=
  ∃ row, row ∈ g ∧ length row ≠ length (default [] (head g)).

Definition malformed (text : string) : Prop :=
  emptyInput text ∨ unequalRows (grid (parseInput text)).

(** The grid has a symbol at the cell. *)
Definition gridCell (g : list (list ascii)) (c : Cell) : Prop :=
  0 ≤ cell_x c ∧ 0 ≤ cell_y c ∧ is_Some (symbolAt (gridInput g) c).

(** All symbols of the grid differ, or all are the same. *)
Definition allDistinct (inp : Parsed) : Prop :=
  ∀ c c', cellInBounds inp c → cellInBounds inp c' →
          symbolAt inp c = symbolAt inp c' → c = c'.

Definition uniform (inp : Parsed) : Prop :=
  ∀ c c', cellInBounds inp c → cellInBounds inp c' → symbolAt inp c = symbolAt inp c'.

(** The value [computeSides] returns, 0 if it ran out of fuel. *)
Definition sidesValue (fuel : nat) (region : Region) : Z :=
  default 0 (computeSides fuel region).

(** Fuel that suffices for the whole script on this input. *)
Definition scriptFuel (inp : Parsed) : nat := (2 * fillFuel inp)%nat.

(** Every cell of the region lies inside the bounds of the input. *)
Definition insideBounds (inp : Parsed) (region : Region) : bool :=
  forallb (λ c, inBounds inp (cell_x c) (cell_y c)) (cells region).

(** ** Sample inputs *)

Definition exampleGrid : list (list ascii) :=
  list_ascii_of_string <$> ["AAAA"; "BBCD"; "BBCC"; "EEEC"]%string.

(** The L-shaped region of the symbol C in [exampleGrid]. *)
Definition regionC : Region :=
  {| cells := [mkCell 2 1; mkCell 2 2; mkCell 3 2; mkCell 3 3]; char := Some "C"%char |}.

(** The region of the symbol D in [exampleGrid], a single cell. *)
Definition regionD : Region := {| cells := [mkCell 3 1]; char := Some "D"%char |}.

(** A text whose rows have unequal lengths. *)
Definition raggedText : string := "AB" +:+ String "010" "A".

(** The side count of one orientation, out of the four of a region. *)
Definition orientationCount (l r t b : Z) (o : Orientation) : Z :=
  match o with LeftEdge => l | RightEdge => r | TopEdge => t | BottomEdge => b end.

(** * Definitions for the further properties *)

(** ** Further sample inputs *)

(** A parent table with the chain a -> b -> c and the root c. *)
Definition chainParent : gmap string string :=
  <["a" := "b"]> (<["b" := "c"]> (<["c" := "c"]> ∅)).

(** The rank of a key of [chainParent]: its distance to the root. *)
Definition chainRank (k : string) : nat :=
  if decide (k = "a") then 2 else if decide (k = "b") then 1 else 0.

(** ** Regions as connected components *)

(** Every cell of [cs] is joined to [start] by a chain of 4-neighbours
    inside [cs]. *)
Definition reachableFrom (start : Cell) (cs : list Cell) : Prop :=
  ∀ c, c ∈ cs → connectedIn fourNeighbors cs start c.

(** What the flood fill keeps about the queue and the cells. *)
Definition fillConnected (start : Cell) (st : Fill) : Prop :=
  (∀ q, q ∈ fill_queue st → q ∈ fill_cells st) ∧
  reachableFrom start (fill_cells st).

(** The region is what one flood fill returned, started from one cell. *)
Definition filledFrom (inp : Parsed) (fuel : nat) (r : Region) : Prop :=
  ∃ x y visited st',
    floodFill inp fuel (gridAt inp x y)
      {| fill_visited := visited;
         fill_cells := [mkCell x y];
         fill_queue := [mkCell x y] |} = Some st' ∧
    r = {| cells := fill_cells st'; char := gridAt inp x y |}.

(** The region C of [exampleGrid] with its first two cells swapped. *)
Definition regionCswapped : Region :=
  {| cells := [mkCell 2 2; mkCell 2 1; mkCell 3 2; mkCell 3 3]; char := Some "C"%char |}.

(** The cells of the left edge of the region B of [exampleGrid]: a
    vertical run of two cells. *)
Definition leftRunB : list Cell := [mkCell 0 1; mkCell 0 2].

(** ** Writing a grid as text *)

(** The lines joined by newlines, as in the input file. *)
Fixpoint joinLines (lines : list string) : string :=
  match lines with
  | [] => EmptyString
  | [line] => line
  | line :: rest => line +:+ String "010" (joinLines rest)
  end.

Definition gridText (g : list (list ascii)) : string :=
  joinLines (string_of_list_ascii <$> g).

Definition newline : ascii := "010".

(** ** The size table of the union-find *)

(** [members] is the set of keys whose root is [r]. *)
Definition treeOf (parent : gmap string string) (r : string) (members : gset string) : Prop :=
  ∀ x, x ∈ members ↔ rootOf parent x r.

(** The size table holds, for every root, the number of keys below it. *)
Definition sizesRight (uf : UnionFind) : Prop :=
  ∀ r, uf_parent uf !! r = Some r →
       ∃ members, treeOf (uf_parent uf) r members ∧
                  uf_size uf !! r = Some (Z.of_nat (size members)).

(** ** The trail script *)

(** Every height of the grid is a digit, as [Trail.parseInput] makes it. *)
Definition digitHeights (inp : Trail.Parsed) : Prop :=
  ∀ r c h, Trail.gridAt inp r c = Some h → 0 ≤ h ≤ 9.

(** How many climbing steps can still follow from a cell. *)
Definition climbsLeft (inp : Trail.Parsed) (r c : Z) : nat :=
  match Trail.gridAt inp r c with
  | Some h => Z.to_nat (9 - h)
  | None => 0
  end.

(** The recursion of [Trail.countDistinctPaths] without its memo table,
    to the depth [n]. *)
Fixpoint pathCount (inp : Trail.Parsed) (n : nat) (r c : Z) : Z :=
  if Trail.isNumber (Trail.gridAt inp r c) 9 then 1
  else
    match n with
    | O => 0
    | S n' =>
        sumZ (λ d,
                if Trail.isInBounds inp (r + d.1) (c + d.2)
                   && Trail.isNext (Trail.gridAt inp r c) (Trail.gridAt inp (r + d.1) (c + d.2))
                then pathCount inp n' (r + d.1) (c + d.2)
                else 0)
          Trail.directions
    end.

(** The number of climbing paths from a cell to a cell of height 9: nine
    levels of the recursion reach from height 0 to height 9. *)
Definition paths (inp : Trail.Parsed) (r c : Z) : Z := pathCount inp 9 r c.

(** Every entry of the memo table under a coordinate key is the number of
    paths from that cell. *)
Definition memoRight (inp : Trail.Parsed) (memo : gmap string Z) : Prop :=
  ∀ r c v, memo !! Trail.coordinateKey r c = Some v → v = paths inp r c.

(** One climbing step, as [Trail.search] takes it: from a cell that is
    not of height 9 to a neighbour in bounds that is exactly 1 higher. *)
Definition climb (inp : Trail.Parsed) (a b : Z * Z) : Prop :=
  Trail.isNumber (Trail.gridAt inp a.1 a.2) 9 = false ∧
  Trail.isInBounds inp b.1 b.2 = true ∧
  Trail.isNext (Trail.gridAt inp a.1 a.2) (Trail.gridAt inp b.1 b.2) = true ∧
  ∃ d, d ∈ Trail.directions ∧ b = (a.1 + d.1, a.2 + d.2).

(** A cell of height 9 that climbing steps reach from the start. *)
Definition reachablePeak (inp : Trail.Parsed) (start p : Z * Z) : Prop :=
  rtc (climb inp) start p ∧ Trail.isNumber (Trail.gridAt inp p.1 p.2) 9 = true.

Definition trailKey (p : Z * Z) : string := Trail.coordinateKey p.1 p.2.

(** What [Trail.search] from [start] keeps about the cells seen so far,
    those taken out of the queue ([processed]) and those still in it. *)
Definition seenInv (inp : Trail.Parsed) (start : Z * Z) (processed : list (Z * Z))
    (st : Trail.Search) : Prop :=
  Trail.visited st = list_to_set (trailKey <$> (processed ++ Trail.queue st)) ∧
  NoDup (processed ++ Trail.queue st) ∧
  start ∈ processed ++ Trail.queue st ∧
  ∀ p, p ∈ processed ++ Trail.queue st →
       Trail.isInBounds inp p.1 p.2 = true ∧ rtc (climb inp) start p.

(** The set [nines] holds the keys of the processed cells of height 9. *)
Definition ninesInv (inp : Trail.Parsed) (processed : list (Z * Z))
    (st : Trail.Search) : Prop :=
  ∀ k, k ∈ Trail.nines st ↔
       ∃ p, p ∈ processed ∧ Trail.isNumber (Trail.gridAt inp p.1 p.2) 9 = true ∧
            k = trailKey p.

(** The invariant of the loop of [Trail.search]: every climbing step from
    a processed cell leads to a cell seen. *)
Definition searchInv (inp : Trail.Parsed) (start : Z * Z) (processed : list (Z * Z))
    (st : Trail.Search) : Prop :=
  seenInv inp start processed st ∧
  (∀ a b, a ∈ processed → climb inp a b → b ∈ processed ++ Trail.queue st) ∧
  ninesInv inp processed st.

(** The invariant of the loop over the directions from the cell [a], after
    the directions [ds]. *)
Definition visitInv (inp : Trail.Parsed) (start : Z * Z) (processed : list (Z * Z))
    (a : Z * Z) (ds : list (Z * Z)) (st : Trail.Search) : Prop :=
  seenInv inp start (processed ++ [a]) st ∧
  (∀ a' b, a' ∈ processed → climb inp a' b → b ∈ (processed ++ [a]) ++ Trail.queue st) ∧
  (∀ d, d ∈ ds →
        Trail.isInBounds inp (a.1 + d.1) (a.2 + d.2) = true →
        Trail.isNext (Trail.gridAt inp a.1 a.2)
          (Trail.gridAt inp (a.1 + d.1) (a.2 + d.2)) = true →
        (a.1 + d.1, a.2 + d.2) ∈ (processed ++ [a]) ++ Trail.queue st) ∧
  ninesInv inp processed st.

(** The bounds of a trail grid as bounds of a garden grid, to count cells. *)
Definition trailBounds (inp : Trail.Parsed) : Parsed :=
  {| grid := []; height := Trail.rows inp; width := Trail.cols inp |}.

Definition trailCell (p : Z * Z) : Cell := mkCell p.2 p.1.

(** Fuel that suffices for a search on this input. *)
Definition searchFuel (inp : Trail.Parsed) : nat := fillFuel (trailBounds inp).

(** A hiking trail: cells in a row, each a climbing step from the one
    before, the last of height 9. *)
Fixpoint isTrail (inp : Trail.Parsed) (p : list (Z * Z)) : Prop :=
  match p with
  | [] => False
  | a :: q =>
      match q with
      | [] => Trail.isNumber (Trail.gridAt inp a.1 a.2) 9 = true
      | b :: _ => climb inp a b ∧ isTrail inp q
      end
  end.

(** The hiking trails that start at a cell. *)
Definition trailFrom (inp : Trail.Parsed) (a : Z * Z) (p : list (Z * Z)) : Prop :=
  head p = Some a ∧ isTrail inp p.

(** The trails of at most [n] steps from a cell, listed the way the
    recursion of [Trail.countDistinctPaths] walks them. *)
Fixpoint trailsFrom (inp : Trail.Parsed) (n : nat) (r c : Z) : list (list (Z * Z)) :=
  if Trail.isNumber (Trail.gridAt inp r c) 9 then [[(r, c)]]
  else
    match n with
    | O => []
    | S n' =>
        Trail.directions ≫= λ d,
          if Trail.isInBounds inp (r + d.1) (c + d.2)
             && Trail.isNext (Trail.gridAt inp r c) (Trail.gridAt inp (r + d.1) (c + d.2))
          then ((r, c) ::.) <$> trailsFrom inp n' (r + d.1) (c + d.2)
          else []
    end.

(** * Coordinate keys *)

Lemma split_without sep s : hasChar sep s = false → split sep s = [s].
Proof.
  induction s as [|b s IH]; simpl; [done|].
  intros [Hb Hs]%orb_false_iff. rewrite Hb, (IH Hs). done.
Qed.

Lemma split_append sep s1 s2 :
  hasChar sep s1 = false →
  split sep (s1 +:+ String sep s2) = s1 :: split sep s2.
Proof.
  induction s1 as [|b s1 IH]; simpl.
  - intros _. by rewrite Ascii.eqb_refl.
  - intros [Hb Hs]%orb_false_iff. rewrite Hb, (IH Hs). done.
Qed.

Lemma uint_digits_no_comma d : hasChar "," (NilEmpty.string_of_uint d) = false.
Proof. induction d; simpl; auto. Qed.

Lemma int_digits_no_comma z : hasChar "," (NilZero.string_of_int (Z.to_int z)) = false.
Proof.
  destruct z as [|p|p]; simpl; [done| |];
    destruct (Pos.to_uint p); simpl; auto using uint_digits_no_comma.
Qed.

Lemma Number_of_digits z : Number (NilZero.string_of_int (Z.to_int z)) = Some z.
Proof.
  unfold Number. rewrite NilZero.isi.
  - simpl. by rewrite DecimalZ.of_to.
  - destruct z; simpl; [done| |done]. intros [= H]. by apply Unsigned.to_uint_nonnil in H.
  - destruct z; simpl; [done|done|]. intros [= H]. by apply Unsigned.to_uint_nonnil in H.
Qed.

Lemma parse_coordinateKey x y : parseCoordinateKey (coordinateKey x y) = Some (x, y).
Proof.
  unfold parseCoordinateKey, coordinateKey.
  change ("," +:+ ?s) with (String "," s).
  rewrite split_append by apply int_digits_no_comma.
  rewrite split_without by apply int_digits_no_comma.
  by rewrite !Number_of_digits.
Qed.

Lemma coordinateKey_inj x y x' y' :
  coordinateKey x y = coordinateKey x' y' → x = x' ∧ y = y'.
Proof.
  intros H. pose proof (parse_coordinateKey x y) as E.
  rewrite H, parse_coordinateKey in E. by simplify_eq.
Qed.

Lemma keyOf_inj a b : keyOf a = keyOf b → a = b.
Proof.
  destruct a, b. unfold keyOf. simpl. intros [-> ->]%coordinateKey_inj. done.
Qed.

Lemma elem_of_keys c (cs : list Cell) : keyOf c ∈ map keyOf cs ↔ c ∈ cs.
Proof.
  rewrite list_elem_of_fmap. split.
  - intros (c' & E & Hc'). by rewrite (keyOf_inj _ _ E).
  - intros Hc. by exists c.
Qed.

Lemma parse_keyOf c : parseCoordinateKey (keyOf c) = Some (cell_x c, cell_y c).
Proof. apply parse_coordinateKey. Qed.

(** * The parent table as a forest *)

Section Forest.
Implicit Types (parent : gmap string string) (h : string → nat).

Lemma rootOf_is_root parent x r : rootOf parent x r → parent !! r = Some r.
Proof. induction 1; auto. Qed.

Lemma rootOf_dom parent x r : rootOf parent x r → is_Some (parent !! x).
Proof. destruct 1; eauto. Qed.

Lemma rootOf_fun parent x r r' : rootOf parent x r → rootOf parent x r' → r = r'.
Proof.
  induction 1 as [x Hx|x y r Hx Hne _ IH]; inversion 1; simplify_eq; auto.
Qed.

Lemma rootOf_total parent h x :
  closed parent → ranked h parent → is_Some (parent !! x) → ∃ r, rootOf parent x r.
Proof.
  intros Hc Hr. induction x as [x IH] using (induction_ltof1 _ h).
  intros [y Hy]. destruct (decide (x = y)) as [->|Hne].
  - exists y. by constructor.
  - destruct (IH y) as [r Hroot]; [by apply Hr|by eapply Hc|].
    exists r. by econstructor.
Qed.

Lemma sameRoot_refl parent h x :
  closed parent → ranked h parent → is_Some (parent !! x) → sameRoot parent x x.
Proof. intros Hc Hr Hx. destruct (rootOf_total _ _ _ Hc Hr Hx) as [r ?]. by exists r. Qed.

Lemma sameRoot_sym parent x y : sameRoot parent x y → sameRoot parent y x.
Proof. intros (r & ? & ?). by exists r. Qed.

Lemma sameRoot_trans parent x y z :
  sameRoot parent x y → sameRoot parent y z → sameRoot parent x z.
Proof.
  intros (r & Hx & Hy) (r' & Hy' & Hz).
  rewrite (rootOf_fun _ _ _ _ Hy Hy') in Hx. by exists r'.
Qed.

(** One step of path halving keeps every root. *)
Lemma halve_rootOf parent h p pp gp x r :
  ranked h parent →
  parent !! p = Some pp → p ≠ pp → parent !! pp = Some gp →
  rootOf parent x r → rootOf (<[p := gp]> parent) x r.
Proof.
  intros Hr Hp Hne Hpp. revert r.
  induction x as [x IH] using (induction_ltof1 _ h). intros r Hroot.
  destruct Hroot as [x Hx|x y r Hx Hxy Hy].
  - apply rootOf_here. rewrite lookup_insert_ne; [done|congruence].
  - destruct (decide (x = p)) as [->|Hxp].
    + assert (y = pp) as -> by congruence.
      assert (h pp < h p)%nat as Hlt by by apply Hr.
      destruct (decide (pp = gp)) as [<-|Hne'].
      * eapply rootOf_step; [apply lookup_insert_eq|done|]. by apply IH.
      * assert (h gp < h pp)%nat by by apply Hr.
        inversion Hy; simplify_eq.
        eapply rootOf_step; [apply lookup_insert_eq| |].
        -- intros ->. lia.
        -- apply IH; [unfold ltof; lia|done].
    + eapply rootOf_step; [by rewrite lookup_insert_ne|done|].
      apply IH; [by apply Hr|done].
Qed.

Lemma halve_ranked parent h p pp gp :
  ranked h parent →
  parent !! p = Some pp → p ≠ pp → parent !! pp = Some gp →
  ranked h (<[p := gp]> parent).
Proof.
  intros Hr Hp Hne Hpp x y. rewrite lookup_insert.
  case_decide as Hx; [|by apply Hr]. intros [= <-] Hne'. subst x.
  assert (h pp < h p)%nat by by apply Hr.
  destruct (decide (pp = gp)) as [<-|?]; [done|].
  assert (h gp < h pp)%nat by by apply Hr. lia.
Qed.

Lemma insert_closed parent x y :
  closed parent → is_Some (parent !! y) → closed (<[x := y]> parent).
Proof.
  intros Hc Hy a b. rewrite !lookup_insert.
  repeat case_decide; intros; simplify_eq; eauto.
Qed.

(** What one call of [find] does. *)
Lemma find_spec h parent fuel p :
  closed parent → ranked h parent → is_Some (parent !! p) → (h p ≤ fuel)%nat →
  ∃ r parent',
    find fuel parent p = Some (r, parent') ∧
    rootOf parent p r ∧
    closed parent' ∧ ranked h parent' ∧
    (∀ x, is_Some (parent' !! x) ↔ is_Some (parent !! x)) ∧
    (∀ x s, rootOf parent x s → rootOf parent' x s).
Proof.
  revert parent p. induction fuel as [|fuel IH]; intros parent p Hc Hr [pp Hp] Hfuel.
  - simpl. rewrite Hp. simpl. destruct (decide (p = pp)) as [<-|Hne].
    + exists p, parent. repeat split; auto. by constructor.
    + pose proof (Hr _ _ Hp Hne). lia.
  - simpl. rewrite Hp. simpl. destruct (decide (p = pp)) as [<-|Hne].
    + exists p, parent. repeat split; auto. by constructor.
    + destruct (Hc _ _ Hp) as [gp Hpp]. rewrite Hpp. simpl.
      assert (h pp < h p)%nat by by apply Hr.
      assert (h gp ≤ h pp)%nat.
      { destruct (decide (pp = gp)) as [<-|?]; [done|].
        pose proof (Hr _ _ Hpp ltac:(done)). lia. }
      destruct (IH (<[p := gp]> parent) gp) as (r & parent' & Hf & Hroot & Hc' & Hr' & Hdom & Hkeep).
      * apply insert_closed; [done|]. by eapply Hc.
      * by eapply halve_ranked.
      * rewrite lookup_insert_ne; [by eapply Hc|]. intros ->. lia.
      * lia.
      * exists r, parent'. split; [done|].
        assert (∀ x s, rootOf parent x s → rootOf parent' x s) as Hall.
        { intros x s Hx. apply Hkeep. by eapply halve_rootOf. }
        split.
        { assert (is_Some (parent !! p)) as Hsp by eauto.
          destruct (rootOf_total parent h p Hc Hr Hsp) as [r0 Hr0].
          assert (rootOf parent gp r0) as Hg.
          { inversion Hr0 as [|? ? ? E1 ? Hpp0]; simplify_eq.
            destruct (decide (pp = gp)) as [<-|?]; [done|].
            inversion Hpp0; by simplify_eq. }
          pose proof (halve_rootOf _ _ _ _ _ _ _ Hr Hp Hne Hpp Hg) as Hg'.
          by rewrite (rootOf_fun _ _ _ _ Hroot Hg'). }
        repeat split; auto.
        -- intros Hx. apply Hdom in Hx. rewrite lookup_insert in Hx.
           case_decide; subst; eauto.
        -- intros Hx. apply Hdom. rewrite lookup_insert. case_decide; eauto.
Qed.

Lemma rootOf_back parent parent' h x s :
  closed parent → ranked h parent →
  (∀ y, is_Some (parent' !! y) → is_Some (parent !! y)) →
  (∀ y r, rootOf parent y r → rootOf parent' y r) →
  rootOf parent' x s → rootOf parent x s.
Proof.
  intros Hc Hr Hdom Hkeep Hx.
  destruct (rootOf_total parent h x Hc Hr) as [r Hroot].
  { apply Hdom. by eapply rootOf_dom. }
  by rewrite (rootOf_fun _ _ _ _ Hx (Hkeep _ _ Hroot)).
Qed.

Lemma find_sameRoot h parent fuel p :
  closed parent → ranked h parent → is_Some (parent !! p) → (h p ≤ fuel)%nat →
  ∃ r parent',
    find fuel parent p = Some (r, parent') ∧
    rootOf parent p r ∧
    closed parent' ∧ ranked h parent' ∧
    (∀ x, is_Some (parent' !! x) ↔ is_Some (parent !! x)) ∧
    (∀ x s, rootOf parent' x s ↔ rootOf parent x s).
Proof.
  intros Hc Hr Hp Hfuel.
  destruct (find_spec h parent fuel p Hc Hr Hp Hfuel)
    as (r & parent' & Hf & Hroot & Hc' & Hr' & Hdom & Hkeep).
  exists r, parent'. repeat split; auto; try apply Hdom.
  apply (rootOf_back parent parent' h); auto. intros y. apply Hdom.
Qed.

(** Hanging the root [ra] below the root [rb]. *)
Lemma link_rootOf parent ra rb x r :
  parent !! ra = Some ra → parent !! rb = Some rb → ra ≠ rb →
  rootOf parent x r →
  rootOf (<[ra := rb]> parent) x (if decide (r = ra) then rb else r).
Proof.
  intros Ha Hb Hne. induction 1 as [x Hx|x y r Hx Hxy _ IH].
  - case_decide as E.
    + subst x. eapply rootOf_step; [apply lookup_insert_eq|done|].
      apply rootOf_here. by rewrite lookup_insert_ne.
    + apply rootOf_here. by rewrite lookup_insert_ne.
  - eapply rootOf_step; [|done|done].
    rewrite lookup_insert_ne; [done|]. intros <-. congruence.
Qed.

Lemma link_ranked parent h ra rb :
  ranked h parent → parent !! ra = Some ra → parent !! rb = Some rb → ra ≠ rb →
  ranked (λ x, if decide (x = rb) then 0 else S (h x))%nat (<[ra := rb]> parent).
Proof.
  intros Hr Ha Hb Hne x y. rewrite lookup_insert.
  case_decide as E.
  - intros [= <-] _. subst x. rewrite decide_True by done.
    rewrite decide_False by done. lia.
  - intros Hx Hxy. pose proof (Hr _ _ Hx Hxy).
    rewrite (decide_False (P := x = rb)) by congruence.
    case_decide; lia.
Qed.

Lemma link_sameRoot parent h ra rb x y :
  closed parent → ranked h parent →
  parent !! ra = Some ra → parent !! rb = Some rb → ra ≠ rb →
  sameRoot (<[ra := rb]> parent) x y ↔
    sameRoot parent x y
    ∨ (rootOf parent x ra ∧ rootOf parent y rb)
    ∨ (rootOf parent x rb ∧ rootOf parent y ra).
Proof.
  intros Hc Hr Ha Hb Hne. split.
  - intros (r & Hx & Hy).
    assert (∀ z, is_Some (<[ra := rb]> parent !! z) → is_Some (parent !! z)) as Hdom.
    { intros z. rewrite lookup_insert. case_decide; subst; eauto. }
    destruct (rootOf_total parent h x Hc Hr) as [rx Hrx].
    { apply Hdom. by eapply rootOf_dom. }
    destruct (rootOf_total parent h y Hc Hr) as [ry Hry].
    { apply Hdom. by eapply rootOf_dom. }
    pose proof (link_rootOf parent ra rb x rx Ha Hb Hne Hrx) as Hx'.
    pose proof (link_rootOf parent ra rb y ry Ha Hb Hne Hry) as Hy'.
    pose proof (rootOf_fun _ _ _ _ Hx Hx') as E1.
    pose proof (rootOf_fun _ _ _ _ Hy Hy') as E2.
    unfold sameRoot. repeat case_decide; subst; eauto 6.
  - intros [(r & Hx & Hy)|[[Hx Hy]|[Hx Hy]]].
    + exists (if decide (r = ra) then rb else r). split; by apply link_rootOf.
    + exists rb. split.
      * pose proof (link_rootOf parent ra rb x ra Ha Hb Hne Hx) as H.
        by rewrite decide_True in H.
      * pose proof (link_rootOf parent ra rb y rb Ha Hb Hne Hy) as H.
        by rewrite decide_False in H.
    + exists rb. split.
      * pose proof (link_rootOf parent ra rb x rb Ha Hb Hne Hx) as H.
        by rewrite decide_False in H.
      * pose proof (link_rootOf parent ra rb y ra Ha Hb Hne Hy) as H.
        by rewrite decide_True in H.
Qed.

End Forest.

(** * Union *)

Section UnionSpec.
Implicit Types (parent : gmap string string) (h : string → nat).

Lemma sameRoot_rootOf parent a ra x :
  rootOf parent a ra → sameRoot parent x a ↔ rootOf parent x ra.
Proof.
  intros Ha. split.
  - intros (r & Hx & Ha'). by rewrite (rootOf_fun _ _ _ _ Ha Ha').
  - intros Hx. by exists ra.
Qed.

Lemma sameRoot_rootOf' parent a ra x :
  rootOf parent a ra → sameRoot parent a x ↔ rootOf parent x ra.
Proof.
  intros Ha. rewrite <- (sameRoot_rootOf parent a ra x Ha).
  split; apply sameRoot_sym.
Qed.

Lemma sameRoot_ext parent parent' :
  (∀ x s, rootOf parent' x s ↔ rootOf parent x s) →
  ∀ x y, sameRoot parent' x y ↔ sameRoot parent x y.
Proof.
  intros H x y. unfold sameRoot. split; intros (r & ? & ?); exists r; split; by apply H.
Qed.

Lemma union_spec bound fuel uf a b :
  ufInv bound uf → (bound ≤ fuel)%nat →
  is_Some (uf_parent uf !! a) → is_Some (uf_parent uf !! b) →
  ∃ uf',
    union fuel uf a b = Some uf' ∧
    ufInv (S bound) uf' ∧
    uf_elements uf' = uf_elements uf ∧
    (∀ x, is_Some (uf_parent uf' !! x) ↔ is_Some (uf_parent uf !! x)) ∧
    (∀ x y, sameRoot (uf_parent uf') x y ↔
       sameRoot (uf_parent uf) x y
       ∨ (sameRoot (uf_parent uf) x a ∧ sameRoot (uf_parent uf) b y)
       ∨ (sameRoot (uf_parent uf) x b ∧ sameRoot (uf_parent uf) a y)).
Proof.
  intros [[Hc (h & Hr & Hb)] Hsz] Hfuel Ha Hbd.
  destruct (find_sameRoot h (uf_parent uf) fuel a Hc Hr Ha)
    as (ra & p1 & Hf1 & Hra & Hc1 & Hr1 & Hdom1 & Heq1).
  { specialize (Hb a). lia. }
  destruct (find_sameRoot h p1 fuel b Hc1 Hr1)
    as (rb & p2 & Hf2 & Hrb & Hc2 & Hr2 & Hdom2 & Heq2).
  { by apply Hdom1. }
  { specialize (Hb b). lia. }
  apply Heq1 in Hrb.
  assert (∀ x s, rootOf p2 x s ↔ rootOf (uf_parent uf) x s) as Heq.
  { intros x s. by rewrite Heq2, Heq1. }
  assert (∀ x, is_Some (p2 !! x) ↔ is_Some (uf_parent uf !! x)) as Hdom.
  { intros x. by rewrite Hdom2, Hdom1. }
  pose proof (sameRoot_ext _ _ Heq) as Hsame.
  unfold union. rewrite Hf1. simpl. rewrite Hf2. simpl.
  destruct (decide (ra = rb)) as [<-|Hne].
  - eexists. split; [done|]. unfold ufInv, forest. simpl. split_and!; auto.
    + exists h. split; [done|]. intros x. specialize (Hb x). lia.
    + intros x Hx. apply Hsz. by apply Hdom.
    + intros x y. rewrite Hsame. split; [by left|].
      intros [H|[[H1 H2]|[H1 H2]]]; [done| |].
      * eapply sameRoot_trans; [apply H1|]. eapply sameRoot_trans; [|apply H2].
        by exists ra.
      * eapply sameRoot_trans; [apply H1|]. eapply sameRoot_trans; [|apply H2].
        by exists ra.
  - pose proof (rootOf_is_root _ _ _ Hra) as Hrra.
    pose proof (rootOf_is_root _ _ _ Hrb) as Hrrb.
    assert (p2 !! ra = Some ra) as Hpa.
    { eapply rootOf_is_root. apply Heq. apply Hra. }
    assert (p2 !! rb = Some rb) as Hpb.
    { eapply rootOf_is_root. apply Heq. apply Hrb. }
    destruct (Hsz ra) as [sa Hsa]; [eauto|].
    destruct (Hsz rb) as [sb Hsb]; [eauto|].
    rewrite Hsa, Hsb. simpl.
    assert (∀ x y,
      sameRoot (uf_parent uf) x y
      ∨ (rootOf p2 x ra ∧ rootOf p2 y rb) ∨ (rootOf p2 x rb ∧ rootOf p2 y ra) ↔
      sameRoot (uf_parent uf) x y
      ∨ (sameRoot (uf_parent uf) x a ∧ sameRoot (uf_parent uf) b y)
      ∨ (sameRoot (uf_parent uf) x b ∧ sameRoot (uf_parent uf) a y)) as Hshape.
    { intros x y.
      rewrite (sameRoot_rootOf _ a ra x Hra), (sameRoot_rootOf' _ b rb y Hrb).
      rewrite (sameRoot_rootOf _ b rb x Hrb), (sameRoot_rootOf' _ a ra y Hra).
      by rewrite !Heq. }
    assert (∀ x r, is_Some (<[r := x]> p2 !! x) → is_Some (p2 !! x) → True) as _ by done.
    case_bool_decide.
    + eexists. split; [done|]. unfold ufInv, forest. simpl. split_and!; [| | |done| |].
      * apply insert_closed; eauto.
      * eexists. split; [by apply link_ranked|].
        intros x. simpl. specialize (Hb x). case_decide; lia.
      * intros x. rewrite !lookup_insert. repeat case_decide; subst; eauto.
        intros Hx. apply Hsz. by apply Hdom.
      * intros x. rewrite lookup_insert. case_decide; subst; [|apply Hdom].
        split; [|eauto]. intros _. apply Hdom. eauto.
      * intros x y. rewrite <- Hshape, <- Hsame. by apply (link_sameRoot p2 h).
    + eexists. split; [done|]. unfold ufInv, forest. simpl. split_and!; [| | |done| |].
      * apply insert_closed; eauto.
      * eexists. split; [by apply link_ranked|].
        intros x. simpl. specialize (Hb x). case_decide; lia.
      * intros x. rewrite !lookup_insert. repeat case_decide; subst; eauto.
        intros Hx. apply Hsz. by apply Hdom.
      * intros x. rewrite lookup_insert. case_decide; subst; [|apply Hdom].
        split; [|eauto]. intros _. apply Hdom. eauto.
      * intros x y. rewrite <- Hshape, <- Hsame.
        rewrite (link_sameRoot p2 h rb ra) by done. tauto.
Qed.

End UnionSpec.

(** * The grouping loop *)

Lemma createUnionFind_fold (l : list string) (uf0 : UnionFind) :
  let uf := foldl (λ uf e, {| uf_elements := uf_elements uf;
                               uf_parent := <[e := e]> (uf_parent uf);
                               uf_size := <[e := 1]> (uf_size uf) |}) uf0 l in
  uf_elements uf = uf_elements uf0 ∧
  (∀ x, uf_parent uf !! x = if decide (x ∈ l) then Some x else uf_parent uf0 !! x) ∧
  (∀ x, uf_size uf !! x = if decide (x ∈ l) then Some 1 else uf_size uf0 !! x).
Proof.
  revert uf0. induction l as [|e l IH]; intros uf0; cbn [foldl].
  - split_and!; [done|..]; intros x; (case_decide as H; [by apply elem_of_nil in H|done]).
  - destruct (IH {| uf_elements := uf_elements uf0;
                   uf_parent := <[e := e]> (uf_parent uf0);
                   uf_size := <[e := 1]> (uf_size uf0) |}) as (He & Hp & Hs).
    simpl in *. split_and!; [done|..]; intros x.
    + rewrite Hp, lookup_insert.
      destruct (decide (x ∈ l)) as [Hx|Hx].
      * rewrite decide_True; [done|by right].
      * destruct (decide (e = x)) as [->|Hne].
        -- rewrite decide_True; [done|by left].
        -- rewrite decide_False; [done|]. by intros [->|?]%elem_of_cons.
    + rewrite Hs, lookup_insert.
      destruct (decide (x ∈ l)) as [Hx|Hx].
      * rewrite decide_True; [done|by right].
      * destruct (decide (e = x)) as [->|Hne].
        -- rewrite decide_True; [done|by left].
        -- rewrite decide_False; [done|]. by intros [->|?]%elem_of_cons.
Qed.

Lemma createUnionFind_spec (elements : list string) :
  uf_elements (createUnionFind elements) = elements ∧
  (∀ x, uf_parent (createUnionFind elements) !! x
        = if decide (x ∈ elements) then Some x else None) ∧
  (∀ x, uf_size (createUnionFind elements) !! x
        = if decide (x ∈ elements) then Some 1 else None).
Proof.
  unfold createUnionFind.
  destruct (createUnionFind_fold elements
              {| uf_elements := elements; uf_parent := ∅; uf_size := ∅ |})
    as (He & Hp & Hs).
  split_and!; [done|..]; intros x.
  - rewrite (Hp x). simpl. by rewrite lookup_empty.
  - rewrite (Hs x). simpl. by rewrite lookup_empty.
Qed.

Lemma createUnionFind_inv (elements : list string) :
  ufInv 0 (createUnionFind elements) ∧
  ∀ x r, rootOf (uf_parent (createUnionFind elements)) x r → x = r.
Proof.
  destruct (createUnionFind_spec elements) as (He & Hp & Hs).
  split; [split; [split|]|].
  - intros x y. rewrite !Hp. repeat case_decide; naive_solver.
  - exists (λ _, 0%nat). split; [|done].
    intros x y. rewrite Hp. case_decide; naive_solver.
  - intros x. rewrite Hp, Hs. by case_decide.
  - intros x r. inversion 1 as [|? y ? Hx Hne]; [done|].
    rewrite Hp in Hx. case_decide; naive_solver.
Qed.

Section Connected.
Context {A : Type} (adj : relation A) (S : list A).

Lemma connectedIn_refl a : connectedIn adj S a a.
Proof. unfold connectedIn. done. Qed.

Lemma connectedIn_sym a b : connectedIn adj S a b → connectedIn adj S b a.
Proof. unfold connectedIn. by intros ?. Qed.

Lemma connectedIn_trans a b c :
  connectedIn adj S a b → connectedIn adj S b c → connectedIn adj S a c.
Proof. unfold connectedIn. intros. by etrans. Qed.

Lemma connectedIn_step a b : a ∈ S → b ∈ S → adj a b → connectedIn adj S a b.
Proof. intros. apply rtsc_lr. done. Qed.

End Connected.

Section Grouping.

Variable cs : list Cell.
Variable isVertical : bool.

Let positions := map keyOf cs.
Let positionSet : gset string := list_to_set positions.

Lemma has_position c :
  bool_decide (keyOf c ∈ positionSet) = bool_decide (c ∈ cs).
Proof.
  apply bool_decide_ext. unfold positionSet, positions.
  rewrite elem_of_list_to_set. apply elem_of_keys.
Qed.

Lemma groupInv_start : groupInv cs isVertical 0 [] (createUnionFind positions).
Proof.
  destruct (createUnionFind_spec positions) as (He & Hp & Hs).
  destruct (createUnionFind_inv positions) as [Hinv Hroot].
  split_and!; [done|done| | |].
  - intros k. rewrite Hp. case_decide; [by split; eauto|].
    split; [by intros []|done].
  - intros a b Ha Hb (r & H1 & H2). apply Hroot in H1, H2.
    assert (a = b) as -> by (apply keyOf_inj; congruence). done.
  - intros a b Ha. by apply not_elem_of_nil in Ha.
Qed.

Lemma groupInv_sameRoot_refl n processed uf c :
  groupInv cs isVertical n processed uf → c ∈ cs →
  sameRoot (uf_parent uf) (keyOf c) (keyOf c).
Proof.
  intros ([[Hc (h & Hr & _)] _] & _ & Hdom & _) Hin.
  apply (sameRoot_refl _ h); [done..|]. apply Hdom. by apply elem_of_keys.
Qed.

(** One guarded [uf.union(position, other)]. *)
Lemma unionIfPresent_spec fuel n processed uf c c' :
  groupInv cs isVertical n processed uf → (n ≤ fuel)%nat →
  c ∈ cs → sideAdjacent isVertical c c' →
  ∃ uf',
    unionIfPresent fuel positionSet (keyOf c) (keyOf c') uf = Some uf' ∧
    groupInv cs isVertical (S n) processed uf' ∧
    (∀ k k', sameRoot (uf_parent uf) k k' → sameRoot (uf_parent uf') k k') ∧
    (c' ∈ cs → sameRoot (uf_parent uf') (keyOf c) (keyOf c')).
Proof.
  intros Hinv Hfuel Hc Hadj. unfold unionIfPresent. rewrite has_position.
  case_bool_decide as Hc'.
  - pose proof Hinv as (Huf & Hel & Hdom & Hsound & Hprog).
    destruct (union_spec n fuel uf (keyOf c) (keyOf c') Huf Hfuel)
      as (uf' & Hu & Huf' & Hel' & Hdom' & Hsame).
    { apply Hdom. by apply elem_of_keys. }
    { apply Hdom. by apply elem_of_keys. }
    assert (sameRoot (uf_parent uf') (keyOf c) (keyOf c')) as Hjoined.
    { apply Hsame. right. left.
      split; eapply groupInv_sameRoot_refl; eauto. }
    exists uf'. split; [done|]. split; [|split; [|done]]; [|intros; apply Hsame; by left].
    split_and!; [done|congruence| | |].
    + intros k. by rewrite Hdom'.
    + intros a b Ha Hb [H|[[H1 H2]|[H1 H2]]]%Hsame.
      * by apply Hsound.
      * eapply connectedIn_trans; [by apply (Hsound a c)|].
        eapply connectedIn_trans; [|by apply (Hsound c' b)].
        by apply connectedIn_step.
      * eapply connectedIn_trans; [by apply (Hsound a c')|].
        eapply connectedIn_trans; [|by apply (Hsound c b)].
        apply connectedIn_sym. by apply connectedIn_step.
    + intros a b Ha Hb Hab. apply Hsame. left. by apply Hprog.
  - exists uf. split; [done|]. split; [|done].
    destruct Hinv as ([[Hcl (h & Hr & Hb)] Hsz] & Hel & Hdom & Hsound & Hprog).
    split_and!; try done. split; [|done]. split; [done|].
    exists h. split; [done|]. intros x. specialize (Hb x). lia.
Qed.

(** The body of the loop, run on the key of a boundary cell. *)
Lemma connectPosition_spec fuel n processed uf c :
  groupInv cs isVertical n processed uf → (S n ≤ fuel)%nat → c ∈ cs →
  ∃ uf',
    connectPosition fuel positionSet isVertical uf (keyOf c) = Some uf' ∧
    groupInv cs isVertical (S (S n)) (processed ++ [c]) uf'.
Proof.
  intros Hinv Hfuel Hc. unfold connectPosition. rewrite parse_keyOf. simpl.
  set (before := if isVertical then mkCell (cell_x c) (cell_y c - 1)
                 else mkCell (cell_x c - 1) (cell_y c)).
  set (after := if isVertical then mkCell (cell_x c) (cell_y c + 1)
                else mkCell (cell_x c + 1) (cell_y c)).
  assert (sideAdjacent isVertical c before) as Hadj1.
  { unfold sideAdjacent, before. destruct isVertical; simpl; lia. }
  assert (sideAdjacent isVertical c after) as Hadj2.
  { unfold sideAdjacent, after. destruct isVertical; simpl; lia. }
  assert (∀ b, sideAdjacent isVertical c b → b = before ∨ b = after) as Hboth.
  { intros [bx by_]. unfold sideAdjacent, before, after.
    destruct c as [x y]. destruct isVertical; simpl; intros [? ?];
      [assert (by_ = y - 1 ∨ by_ = y + 1) as [->| ->] by lia
      |assert (bx = x - 1 ∨ bx = x + 1) as [->| ->] by lia]; subst; auto. }
  destruct (unionIfPresent_spec fuel n processed uf c before Hinv)
    as (uf1 & Hu1 & Hinv1 & Hmono1 & Hj1); [lia|done|done|].
  destruct (unionIfPresent_spec fuel (S n) processed uf1 c after Hinv1)
    as (uf2 & Hu2 & Hinv2 & Hmono2 & Hj2); [lia|done|done|].
  exists uf2. split.
  - destruct isVertical; unfold before, after in *; simpl in *.
    + change (coordinateKey (cell_x c) (cell_y c - 1))
        with (keyOf (mkCell (cell_x c) (cell_y c - 1))).
      change (coordinateKey (cell_x c) (cell_y c + 1))
        with (keyOf (mkCell (cell_x c) (cell_y c + 1))).
      change (coordinateKey (cell_x c) (cell_y c)) with (keyOf c).
      rewrite Hu1. simpl. done.
    + change (coordinateKey (cell_x c - 1) (cell_y c))
        with (keyOf (mkCell (cell_x c - 1) (cell_y c))).
      change (coordinateKey (cell_x c + 1) (cell_y c))
        with (keyOf (mkCell (cell_x c + 1) (cell_y c))).
      change (coordinateKey (cell_x c) (cell_y c)) with (keyOf c).
      rewrite Hu1. simpl. done.
  - destruct Hinv2 as (Huf & Hel & Hdom & Hsound & Hprog).
    split_and!; try done.
    intros a b [Ha| ->%list_elem_of_singleton]%elem_of_app Hb Hab.
    + by apply Hprog.
    + destruct (Hboth b Hab) as [-> | ->]; auto.
Qed.

(** The whole loop over the keys of the remaining boundary cells. *)
Lemma connectAll_spec fuel rest n processed uf :
  groupInv cs isVertical n processed uf →
  (n + 2 * length rest ≤ fuel)%nat →
  (∀ c, c ∈ rest → c ∈ cs) →
  ∃ uf',
    forEachM (connectPosition fuel positionSet isVertical) uf (map keyOf rest) = Some uf' ∧
    groupInv cs isVertical (n + 2 * length rest) (processed ++ rest) uf'.
Proof.
  revert n processed uf. induction rest as [|c rest IH]; intros n processed uf Hinv Hfuel Hsub.
  - exists uf. split; [done|]. rewrite app_nil_r.
    by replace (n + 2 * length (@nil Cell))%nat with n by (simpl; lia).
  - simpl in Hfuel.
    destruct (connectPosition_spec fuel n processed uf c Hinv) as (uf1 & Hc1 & Hinv1).
    { lia. } { apply Hsub. by left. }
    destruct (IH (S (S n)) (processed ++ [c]) uf1 Hinv1) as (uf' & Hrest & Hinv').
    { lia. } { intros c' Hc'. apply Hsub. by right. }
    exists uf'. split.
    + simpl. rewrite Hc1. simpl. done.
    + rewrite <- app_assoc in Hinv'. simpl in Hinv'.
      by replace (n + 2 * length (c :: rest))%nat
        with (S (S n) + 2 * length rest)%nat by (simpl; lia).
Qed.

End Grouping.

(** * Counting components *)

Lemma related_length {A B : Type} (R : A → B → Prop) (l : list A) (k : list B) :
  NoDup l →
  (∀ a, a ∈ l → ∃ b, b ∈ k ∧ R a b) →
  (∀ a a' b, a ∈ l → a' ∈ l → R a b → R a' b → a = a') →
  (length l ≤ length k)%nat.
Proof.
  revert k. induction l as [|a l IH]; intros k Hnd Hex Hinj; simpl; [lia|].
  apply NoDup_cons in Hnd as [Ha Hnd].
  destruct (Hex a) as (b & Hb & Hab); [by left|].
  apply elem_of_Permutation in Hb as [k' Hk].
  rewrite Hk. simpl. apply le_n_S, IH; [done| |].
  - intros a' Ha'. destruct (Hex a') as (b' & Hb' & Hab'); [by right|].
    exists b'. split; [|done].
    rewrite Hk in Hb'. apply elem_of_cons in Hb' as [->|]; [|done].
    assert (a = a') as -> by (eapply Hinj; eauto; [by left|by right]). done.
  - intros a1 a2 b' H1 H2. apply Hinj; by right.
Qed.

Section Transversal.
Context {A : Type} (adj : relation A) (S : list A).

Lemma transversal_le reps1 reps2 :
  transversal adj S reps1 → transversal adj S reps2 →
  (length reps1 ≤ length reps2)%nat.
Proof.
  intros (Hnd1 & Hin1 & Hsep1 & Hcov1) (Hnd2 & Hin2 & Hsep2 & Hcov2).
  apply (related_length (connectedIn adj S)); [done| |].
  - intros a Ha. apply Hcov2, Hin1, Ha.
  - intros a a' b Ha Ha' Hab Ha'b. apply Hsep1; [done..|].
    eapply connectedIn_trans; [done|]. by apply connectedIn_sym.
Qed.

(** The number of components does not depend on the representatives. *)
Lemma componentCount_unique n m :
  componentCount adj S n → componentCount adj S m → n = m.
Proof.
  intros (r1 & H1 & ->) (r2 & H2 & ->).
  pose proof (transversal_le _ _ H1 H2). pose proof (transversal_le _ _ H2 H1). lia.
Qed.

End Transversal.

Lemma findAll_spec h fuel elements parent :
  closed parent → ranked h parent → (∀ x, h x ≤ fuel)%nat →
  (∀ e, e ∈ elements → is_Some (parent !! e)) →
  ∃ roots, findAll fuel parent elements = Some roots ∧
           Forall2 (rootOf parent) elements roots.
Proof.
  revert parent. induction elements as [|e elements IH]; intros parent Hc Hr Hfuel Hdom.
  - exists []. split; [done|constructor].
  - destruct (find_sameRoot h parent fuel e Hc Hr)
      as (r & parent' & Hf & Hroot & Hc' & Hr' & Hdom' & Heq); [apply Hdom; by left|done|].
    destruct (IH parent' Hc' Hr' Hfuel) as (roots & Hall & Hroots).
    { intros e' He'. apply Hdom', Hdom. by right. }
    exists (r :: roots). split.
    + simpl. rewrite Hf. simpl. rewrite Hall. done.
    + constructor; [done|]. eapply Forall2_impl; [done|]. intros x s. apply Heq.
Qed.

Lemma keys_preimage (cs : list Cell) (ks : list string) :
  (∀ k, k ∈ ks → k ∈ map keyOf cs) →
  ∃ reps, map keyOf reps = ks ∧ ∀ c, c ∈ reps → c ∈ cs.
Proof.
  induction ks as [|k ks IH]; intros Hsub.
  - exists []. split; [done|]. by intros c ?%elem_of_nil.
  - destruct IH as (reps & <- & Hin); [intros; apply Hsub; by right|].
    destruct (proj1 (list_elem_of_fmap _ _ _) (Hsub k ltac:(by left))) as (c & -> & Hc).
    exists (c :: reps). split; [done|].
    intros c' [->|]%elem_of_cons; auto.
Qed.

Section GroupingResult.

Variable cs : list Cell.
Variable isVertical : bool.

Lemma sideAdjacent_sym a b :
  sideAdjacent isVertical a b → sideAdjacent isVertical b a.
Proof. unfold sideAdjacent. destruct isVertical; lia. Qed.

Lemma groupInv_complete n uf a b :
  groupInv cs isVertical n cs uf → a ∈ cs →
  connectedIn (sideAdjacent isVertical) cs a b →
  sameRoot (uf_parent uf) (keyOf a) (keyOf b).
Proof.
  intros Hinv Ha Hab. unfold connectedIn, rtsc in Hab.
  revert b Hab.
  apply (rtc_ind_r (λ b, sameRoot (uf_parent uf) (keyOf a) (keyOf b)));
    [|intros y z Hxy [(Hy & Hz & Hadj)|(Hz & Hy & Hadj)] IH].
  - by eapply groupInv_sameRoot_refl.
  - eapply sameRoot_trans; [done|].
    destruct Hinv as (_ & _ & _ & _ & Hprog). by apply Hprog.
  - eapply sameRoot_trans; [done|].
    destruct Hinv as (_ & _ & _ & _ & Hprog). apply Hprog; [done..|].
    by apply sideAdjacent_sym.
Qed.

(** [groupEdgeSegments], run on the keys of the boundary cells [cs] with
    enough fuel, returns the number of their components. *)
Lemma groupEdgeSegments_spec fuel :
  (2 * length cs ≤ fuel)%nat →
  ∃ n, groupEdgeSegments fuel (map keyOf cs) isVertical = Some n ∧
       componentCount (sideAdjacent isVertical) cs n.
Proof.
  intros Hfuel. unfold groupEdgeSegments. rewrite length_map.
  case_bool_decide as Hlen.
  - exists 0. split; [done|]. exists []. split; [|done].
    apply nil_length_inv in Hlen. subst cs.
    split_and!; [apply NoDup_nil_2|..]; intros;
      match goal with H : _ ∈ [] |- _ => by apply elem_of_nil in H end.
  - destruct (connectAll_spec cs isVertical fuel cs 0 [] _ (groupInv_start cs isVertical))
      as (uf & Hloop & Hinv); [simpl; lia|done|].
    rewrite Hloop. simpl. simpl in Hinv.
    pose proof Hinv as ([[Hc (h & Hr & Hb)] Hsz] & Hel & Hdom & Hsound & Hprog).
    destruct (findAll_spec h fuel (uf_elements uf) (uf_parent uf) Hc Hr)
      as (roots & Hall & Hroots).
    { intros x. specialize (Hb x). simpl in Hb. lia. }
    { intros e He. apply Hdom. by rewrite <- Hel. }
    unfold countComponents. rewrite Hall. simpl.
    set (ks := elements (list_to_set roots : gset string)).
    assert (∀ k, k ∈ ks ↔ k ∈ roots) as Hks.
    { intros k. unfold ks. by rewrite elem_of_elements, elem_of_list_to_set. }
    assert (∀ r, r ∈ roots → ∃ e, e ∈ uf_elements uf ∧ rootOf (uf_parent uf) e r) as Hfrom.
    { intros r (i & Hi)%list_elem_of_lookup.
      destruct (Forall2_lookup_r _ _ _ _ _ Hroots Hi) as (e & He & Hroot).
      exists e. split; [|done]. by eapply list_elem_of_lookup_2. }
    destruct (keys_preimage cs ks) as (reps & Hreps & Hin).
    { intros k [e [_ Hroot]]%Hks%Hfrom. apply Hdom.
      apply rootOf_is_root in Hroot. eauto. }
    eexists. split; [done|]. exists reps. split.
    + assert (∀ c, c ∈ reps → rootOf (uf_parent uf) (keyOf c) (keyOf c)) as Hself.
      { intros c Hc'. assert (keyOf c ∈ ks) as Hk.
        { rewrite <- Hreps. rewrite list_elem_of_fmap. eauto. }
        apply Hks, Hfrom in Hk as (e & _ & Hroot).
        apply rootOf_here. by eapply rootOf_is_root. }
      split_and!.
      * apply (NoDup_fmap_1 keyOf). change (NoDup (map keyOf reps)).
        rewrite Hreps. apply NoDup_elements.
      * done.
      * intros r1 r2 H1 H2 Hconn.
        destruct (groupInv_complete _ _ _ _ Hinv (Hin _ H1) Hconn) as (r & Hr1 & Hr2).
        apply keyOf_inj.
        rewrite (rootOf_fun _ _ _ _ (Hself _ H1) Hr1).
        by rewrite (rootOf_fun _ _ _ _ (Hself _ H2) Hr2).
      * intros a Ha.
        assert (keyOf a ∈ uf_elements uf) as He.
        { rewrite Hel. by apply elem_of_keys. }
        apply list_elem_of_lookup in He as (i & Hi).
        destruct (Forall2_lookup_l _ _ _ _ _ Hroots Hi) as (r & Hri & Hroot).
        assert (r ∈ ks) as Hk by (apply Hks; by eapply list_elem_of_lookup_2).
        rewrite <- Hreps in Hk. apply list_elem_of_fmap in Hk as (c & -> & Hc').
        exists c. split; [done|]. apply Hsound; [done|by apply Hin|].
        exists (keyOf c). split; [done|]. by apply Hself.
    + unfold size, set_size. simpl. f_equal. fold ks. by rewrite <- Hreps, length_map.
Qed.

End GroupingResult.

(** * The edge arrays of [computeSides] *)

Lemma has_cellKey region c :
  bool_decide (keyOf c ∈ cellKeys region) = bool_decide (c ∈ cells region).
Proof.
  apply bool_decide_ext. unfold cellKeys. rewrite elem_of_list_to_set.
  apply (elem_of_keys c (cells region)).
Qed.

Lemma pushUnless_boundary region o c edges :
  pushUnless (bool_decide (keyOf (across o c) ∈ cellKeys region)) (keyOf c) edges
  = edges ++ map keyOf (filter (λ c, across o c ∉ cells region) [c]).
Proof.
  rewrite has_cellKey. unfold pushUnless. rewrite filter_cons, filter_nil.
  case_bool_decide; simpl.
  - rewrite decide_False by auto. simpl. by rewrite app_nil_r.
  - by rewrite decide_True by auto.
Qed.

Lemma collectEdge_fold region (l : list Cell) (e0 : Edges) :
  foldl (collectEdge (cellKeys region)) e0 l =
  {| leftEdges := leftEdges e0 ++ map keyOf (filter (λ c, across LeftEdge c ∉ cells region) l);
     rightEdges := rightEdges e0 ++ map keyOf (filter (λ c, across RightEdge c ∉ cells region) l);
     topEdges := topEdges e0 ++ map keyOf (filter (λ c, across TopEdge c ∉ cells region) l);
     bottomEdges := bottomEdges e0 ++ map keyOf (filter (λ c, across BottomEdge c ∉ cells region) l) |}.
Proof.
  revert e0. induction l as [|c l IH]; intros e0.
  - simpl. rewrite !app_nil_r. by destruct e0.
  - cbn [foldl]. rewrite IH. unfold collectEdge. cbn [leftEdges rightEdges topEdges bottomEdges].
    pose proof (pushUnless_boundary region LeftEdge c (leftEdges e0)) as H1.
    pose proof (pushUnless_boundary region RightEdge c (rightEdges e0)) as H2.
    pose proof (pushUnless_boundary region TopEdge c (topEdges e0)) as H3.
    pose proof (pushUnless_boundary region BottomEdge c (bottomEdges e0)) as H4.
    unfold across, keyOf in H1, H2, H3, H4. cbn [cell_x cell_y] in H1, H2, H3, H4.
    rewrite H1, H2, H3, H4. fold (keyOf).
    rewrite <- !app_assoc, <- !map_app.
    by rewrite <- !(filter_app _ [c] l).
Qed.

(** Each array filled by [computeSides] holds the keys of the boundary
    cells of its orientation, in region order. *)
Lemma collectEdges_boundary region o :
  edgesOf o (collectEdges region) = map keyOf (boundaryCells o region).
Proof.
  unfold collectEdges. rewrite collectEdge_fold. by destruct o.
Qed.

Lemma boundaryCells_length o region :
  (length (boundaryCells o region) ≤ length (cells region))%nat.
Proof. apply length_filter. Qed.

Lemma computeSides_spec fuel region :
  (2 * length (cells region) ≤ fuel)%nat →
  ∃ l r t b,
    computeSides fuel region = Some (l + r + t + b) ∧
    sidesOf LeftEdge region l ∧ sidesOf RightEdge region r ∧
    sidesOf TopEdge region t ∧ sidesOf BottomEdge region b.
Proof.
  intros Hfuel. unfold computeSides.
  assert (∀ o, ∃ n,
    groupEdgeSegments fuel (edgesOf o (collectEdges region)) (isVerticalEdge o) = Some n ∧
    sidesOf o region n) as Hside.
  { intros o. rewrite collectEdges_boundary. apply groupEdgeSegments_spec.
    pose proof (boundaryCells_length o region). lia. }
  destruct (Hside LeftEdge) as (l & Hl & ?), (Hside RightEdge) as (r & Hr & ?),
    (Hside TopEdge) as (t & Ht & ?), (Hside BottomEdge) as (b & Hb & ?).
  simpl in Hl, Hr, Ht, Hb. exists l, r, t, b.
  rewrite Hl; simpl. rewrite Hr; simpl. rewrite Ht; simpl. rewrite Hb; simpl. done.
Qed.

(** * The visited matrix *)

Lemma countFalse_mark (row : list bool) (i : nat) :
  row !! i = Some false → S (countFalse (<[i := true]> row)) = countFalse row.
Proof.
  unfold countFalse. revert i. induction row as [|b row IH]; intros [|i] Hi; simplify_eq/=.
  - rewrite !filter_cons. by repeat case_decide.
  - rewrite !filter_cons. case_decide; simpl; rewrite <- (IH i Hi); done.
Qed.

Lemma countFalse_le (row : list bool) : (countFalse row ≤ length row)%nat.
Proof. apply length_filter. Qed.

Lemma unvisited_insert (visited : list (list bool)) (j : nat) (row row' : list bool) :
  visited !! j = Some row →
  (unvisited (<[j := row']> visited) + countFalse row
   = unvisited visited + countFalse row')%nat.
Proof.
  unfold unvisited. revert j. induction visited as [|r v IH]; intros [|j] Hj; simplify_eq/=.
  - lia.
  - specialize (IH j Hj). lia.
Qed.

Section Matrix.

Variable inp : Parsed.

Lemma inBounds_spec x y :
  inBounds inp x y = true ↔ 0 ≤ x < width inp ∧ 0 ≤ y < height inp.
Proof.
  unfold inBounds. rewrite !andb_true_iff, !bool_decide_eq_true. lia.
Qed.

Lemma wfVisited_row visited x y :
  wfVisited inp visited → inBounds inp x y = true →
  ∃ row, visited !! Z.to_nat y = Some row ∧ (Z.to_nat x < length row)%nat.
Proof.
  intros [Hlen Hrows] [Hx Hy]%inBounds_spec.
  destruct (lookup_lt_is_Some_2 visited (Z.to_nat y)) as [row Hrow]; [lia|].
  exists row. split; [done|].
  rewrite Forall_forall in Hrows. rewrite (Hrows row); [lia|].
  by eapply list_elem_of_lookup_2.
Qed.

Lemma wfVisited_mark visited x y :
  wfVisited inp visited → wfVisited inp (markVisited visited x y).
Proof.
  intros [Hlen Hrows]. unfold markVisited.
  destruct (visited !! Z.to_nat y) as [row|] eqn:Hrow; [|done].
  split; [by rewrite length_insert|].
  apply Forall_insert; [done|]. rewrite length_insert.
  rewrite Forall_forall in Hrows. apply Hrows. by eapply list_elem_of_lookup_2.
Qed.

Lemma wfVisited_start :
  wfVisited inp
    (replicate (Z.to_nat (height inp)) (replicate (Z.to_nat (width inp)) false)).
Proof.
  split; [by rewrite length_replicate|].
  apply Forall_replicate. by rewrite length_replicate.
Qed.

Lemma visitedAt_start x y :
  visitedAt (replicate (Z.to_nat (height inp)) (replicate (Z.to_nat (width inp)) false)) x y
  = false.
Proof.
  unfold visitedAt.
  destruct (replicate _ _ !! Z.to_nat y) as [row|] eqn:Hrow; [|done]. simpl.
  apply lookup_replicate in Hrow as [-> _].
  destruct (replicate _ _ !! Z.to_nat x) as [b|] eqn:Hb; [|done]. simpl.
  by apply lookup_replicate in Hb as [-> _].
Qed.

Lemma visitedAt_mark visited x y x' y' :
  wfVisited inp visited → inBounds inp x y = true → 0 ≤ x' → 0 ≤ y' →
  visitedAt (markVisited visited x y) x' y'
  = if decide (x = x' ∧ y = y') then true else visitedAt visited x' y'.
Proof.
  intros Hwf Hin Hx' Hy'.
  destruct (wfVisited_row visited x y Hwf Hin) as (row & Hrow & Hlt).
  apply inBounds_spec in Hin as [Hx Hy].
  unfold markVisited, visitedAt. rewrite Hrow.
  destruct (decide (Z.to_nat y = Z.to_nat y')) as [Ey|Ey].
  - rewrite <- Ey, list_lookup_insert_eq by (by eapply lookup_lt_Some).
    rewrite Hrow. simpl.
    destruct (decide (Z.to_nat x = Z.to_nat x')) as [Ex|Ex].
    + rewrite <- Ex, list_lookup_insert_eq by done. simpl.
      rewrite decide_True; [done|lia].
    + rewrite list_lookup_insert_ne by done.
      rewrite decide_False; [done|lia].
  - rewrite list_lookup_insert_ne by done.
    rewrite decide_False; [done|lia].
Qed.

Lemma unvisited_mark visited x y :
  wfVisited inp visited → inBounds inp x y = true → visitedAt visited x y = false →
  S (unvisited (markVisited visited x y)) = unvisited visited.
Proof.
  intros Hwf Hin Hv.
  destruct (wfVisited_row visited x y Hwf Hin) as (row & Hrow & Hlt).
  unfold markVisited. rewrite Hrow.
  unfold visitedAt in Hv. rewrite Hrow in Hv. simpl in Hv.
  destruct (lookup_lt_is_Some_2 row (Z.to_nat x) Hlt) as [b Hb].
  rewrite Hb in Hv. simpl in Hv. subst b.
  pose proof (unvisited_insert visited _ row (<[Z.to_nat x := true]> row) Hrow).
  pose proof (countFalse_mark row _ Hb). lia.
Qed.

Lemma unvisited_le visited :
  wfVisited inp visited →
  (unvisited visited ≤ Z.to_nat (width inp) * Z.to_nat (height inp))%nat.
Proof.
  intros [Hlen Hrows]. rewrite <- Hlen. clear Hlen. unfold unvisited.
  induction Hrows as [|row v Hrow _ IH]; [simpl; lia|].
  pose proof (countFalse_le row). rewrite fmap_cons, length_cons, Nat.mul_succ_r.
  change (sum_list (countFalse row :: (countFalse <$> v)))
    with (countFalse row + sum_list (countFalse <$> v))%nat.
  lia.
Qed.

End Matrix.

(** * The flood fill *)

Lemma foldl_invariant {A B : Type} (f : A → B → A) (I : list B → A → Prop)
    (l pre : list B) (a : A) :
  I pre a → (∀ done b a, I done a → I (done ++ [b]) (f a b)) →
  I (pre ++ l) (foldl f a l).
Proof.
  intros Ha Hstep. revert pre a Ha. induction l as [|b l IH]; intros pre a Ha.
  - by rewrite app_nil_r.
  - simpl. rewrite (cons_middle b pre l), app_assoc. apply IH, Hstep, Ha.
Qed.

Section FloodFill.

Variable inp : Parsed.
Variable character : Symbol.
Variable prev : list Cell.

Lemma cellInBounds_nonneg c : cellInBounds inp c → 0 ≤ cell_x c ∧ 0 ≤ cell_y c.
Proof. intros H%inBounds_spec; lia. Qed.

Lemma marks_mark visited cs n :
  wfVisited inp visited → cellInBounds inp n → marks inp visited cs →
  marks inp (markVisited visited (cell_x n) (cell_y n)) (cs ++ [n]).
Proof.
  intros Hwf Hn Hm c Hc. destruct (cellInBounds_nonneg c Hc).
  rewrite (visitedAt_mark inp) by done.
  rewrite elem_of_app, list_elem_of_singleton, <- (Hm c Hc).
  case_decide as E.
  - split; [intros _|done]. right. destruct c, n; simpl in *. f_equal; lia.
  - split; [by left|]. intros [?| ->]; [done|]. destruct E. done.
Qed.

Lemma closedAt_mono cs cs' ds c :
  (∀ x, x ∈ cs → x ∈ cs') →
  closedAt inp character cs ds c → closedAt inp character cs' ds c.
Proof. intros Hsub Hc d Hd Hin Hsym. by apply Hsub, Hc. Qed.

(** One direction of the expansion of [c]. *)
Lemma visitNeighbor_spec processed c ds d st :
  stepInv inp character prev processed c ds st →
  stepInv inp character prev processed c (ds ++ [d]) (visitNeighbor inp character c st d) ∧
  fillMeasure (visitNeighbor inp character c st d) = fillMeasure st.
Proof.
  intros (Hwf & Hcells & Hmarks & Hnd & Hprops & Hclosed & Hc).
  unfold visitNeighbor.
  change (mkCell (cell_x c + d.1) (cell_y c + d.2)) with (neighbor c d).
  change (cell_x c + d.1) with (cell_x (neighbor c d)).
  change (cell_y c + d.2) with (cell_y (neighbor c d)).
  remember (neighbor c d) as n eqn:En.
  destruct (inBounds inp (cell_x n) (cell_y n)) eqn:Hin; simpl.
  2:{ split; [|done]. split_and!; try done.
      intros d' [Hd'| ->%list_elem_of_singleton]%elem_of_app; [by apply Hc|].
      intros Hin'. unfold cellInBounds in Hin'. rewrite <- En in Hin'. congruence. }
  destruct (visitedAt (fill_visited st) (cell_x n) (cell_y n)) eqn:Hv; simpl.
  { split; [|done]. split_and!; try done.
    intros d' [Hd'| ->%list_elem_of_singleton]%elem_of_app; [by apply Hc|].
    intros _ _. rewrite <- En. by apply (Hmarks n). }
  case_bool_decide as Hsym; simpl.
  2:{ split; [|done]. split_and!; try done.
      intros d' [Hd'| ->%list_elem_of_singleton]%elem_of_app; [by apply Hc|].
      intros _ Hsym'. unfold symbolAt in Hsym'. rewrite <- En in Hsym'. done. }
  assert (n ∉ prev ++ fill_cells st) as Hfresh.
  { intros Hn. apply (Hmarks n) in Hn; [|done]. congruence. }
  assert (∀ x, x ∈ prev ++ fill_cells st → x ∈ prev ++ fill_cells st ++ [n]) as Hsub.
  { intros x. rewrite !elem_of_app. tauto. }
  split.
  - split_and!; simpl.
    + by apply (wfVisited_mark inp).
    + rewrite Hcells. by rewrite <- app_assoc.
    + rewrite app_assoc. by apply marks_mark.
    + rewrite app_assoc. apply NoDup_app. split_and!; [done| |apply NoDup_singleton].
      intros x Hx ->%list_elem_of_singleton. done.
    + intros c' [Hc'| ->%list_elem_of_singleton]%elem_of_app; [by apply Hprops|done].
    + intros c' Hc'. eapply closedAt_mono; [done|]. by apply Hclosed.
    + intros d' [Hd'| ->%list_elem_of_singleton]%elem_of_app.
      * intros ? ?. by apply Hsub, Hc.
      * intros _ _. rewrite <- En. rewrite !elem_of_app, list_elem_of_singleton. auto.
  - unfold fillMeasure. simpl. rewrite length_app. simpl.
    pose proof (unvisited_mark inp (fill_visited st) _ _ Hwf Hin Hv). lia.
Qed.

(** The expansion of one cell. *)
Lemma expand_spec processed c st :
  fillInv inp character prev processed st →
  fill_queue st = c :: tail (fill_queue st) →
  let st' := foldl (visitNeighbor inp character c)
               {| fill_visited := fill_visited st;
                  fill_cells := fill_cells st;
                  fill_queue := tail (fill_queue st) |} directions in
  fillInv inp character prev (processed ++ [c]) st' ∧
  S (fillMeasure st') = fillMeasure st ∧
  ∃ more, fill_cells st' = fill_cells st ++ more.
Proof.
  intros (Hwf & Hcells & Hmarks & Hnd & Hprops & Hclosed) Hq st'. unfold st'. clear st'.
  set (st0 := {| fill_visited := fill_visited st; fill_cells := fill_cells st;
                 fill_queue := tail (fill_queue st) |}).
  pose proof (foldl_invariant (visitNeighbor inp character c)
    (λ ds st', stepInv inp character prev processed c ds st' ∧
               fillMeasure st' = fillMeasure st0 ∧
               ∃ more, fill_cells st' = fill_cells st ++ more)
    directions [] st0) as H.
  cbn beta in H. rewrite app_nil_l in H. destruct H as ((Hwf' & Hcells' & Hmarks' & Hnd' & Hprops' & Hclosed' & Hc') & Hm & Hmore).
  - unfold st0. split; [|split; [done|]].
    + unfold stepInv. split_and!; simpl; try done.
      * rewrite Hcells. f_equal. exact Hq.
      * by intros d ?%elem_of_nil.
    + exists []. by rewrite app_nil_r.
  - intros ds d st1 (Hinv & Hm & more & Hmore).
    destruct (visitNeighbor_spec processed c ds d st1 Hinv) as [Hinv' Hm'].
    split_and!; [done|congruence|].
    unfold visitNeighbor. case_match; [|by exists more].
    simpl. exists (more ++ [neighbor c d]). rewrite Hmore. by rewrite <- app_assoc.
  - split; [|split; [|done]].
    + unfold fillInv. split_and!; try done.
      * rewrite Hcells'. by rewrite <- app_assoc.
      * intros c' [Hc''| ->%list_elem_of_singleton]%elem_of_app; [by apply Hclosed'|done].
    + rewrite Hm. unfold fillMeasure, st0. simpl. rewrite Hq at 2. simpl. done.
Qed.

(** The whole [while] loop, given fuel for the queue and every cell
    still unvisited. *)
Lemma floodFill_spec fuel processed st :
  fillInv inp character prev processed st →
  (fillMeasure st ≤ fuel)%nat →
  ∃ st', floodFill inp fuel character st = Some st' ∧
         fillInv inp character prev (fill_cells st') st' ∧
         fill_queue st' = [] ∧
         ∃ more, fill_cells st' = fill_cells st ++ more.
Proof.
  revert processed st. induction fuel as [|fuel IH]; intros processed st Hinv Hfuel.
  - destruct (fill_queue st) as [|c rest] eqn:Hq.
    + exists st. simpl. rewrite Hq. split_and!; [done| |done|].
      * pose proof Hinv as (_ & Hcells & _). rewrite Hq, app_nil_r in Hcells.
        by rewrite Hcells.
      * exists []. by rewrite app_nil_r.
    + unfold fillMeasure in Hfuel. rewrite Hq in Hfuel. simpl in Hfuel. lia.
  - destruct (fill_queue st) as [|c rest] eqn:Hq.
    + exists st. simpl. rewrite Hq. split_and!; [done| |done|].
      * pose proof Hinv as (_ & Hcells & _). rewrite Hq, app_nil_r in Hcells.
        by rewrite Hcells.
      * exists []. by rewrite app_nil_r.
    + destruct (expand_spec processed c st Hinv) as (Hinv' & Hm & more & Hmore).
      { by rewrite Hq. }
      rewrite Hq in Hinv', Hm, Hmore. simpl in Hinv', Hm, Hmore.
      destruct (IH _ _ Hinv') as (st' & Hrun & Hinv'' & Hq' & more' & Hmore'); [lia|].
      exists st'. split_and!; try done.
      * simpl. rewrite Hq. done.
      * exists (more ++ more'). rewrite Hmore', Hmore. by rewrite <- app_assoc.
Qed.

End FloodFill.

(** * The scan of [findRegions] *)

Lemma forEachM_invariant {A B : Type} (f : A → B → option A) (I : list B → A → Prop)
    (l pre : list B) (a : A) :
  I pre a →
  (∀ done b a, b ∈ l → I done a → ∃ a', f a b = Some a' ∧ I (done ++ [b]) a') →
  ∃ a', forEachM f a l = Some a' ∧ I (pre ++ l) a'.
Proof.
  revert pre a. induction l as [|b l IH]; intros pre a Ha Hstep.
  - exists a. by rewrite app_nil_r.
  - destruct (Hstep pre b a) as (a1 & Hf & Ha1); [by left|done|].
    destruct (IH (pre ++ [b]) a1 Ha1) as (a' & Hrun & Ha').
    { intros done b' a2 Hb'. apply Hstep. by right. }
    exists a'. simpl. rewrite Hf. simpl. split; [done|].
    by rewrite (cons_middle b pre l), app_assoc.
Qed.

Lemma allCellsOf_app regions r :
  allCellsOf (regions ++ [r]) = allCellsOf regions ++ cells r.
Proof. unfold allCellsOf. by rewrite bind_app, bind_cons, app_nil_r. Qed.

Lemma elem_of_allCellsOf c regions :
  c ∈ allCellsOf regions ↔ ∃ r, r ∈ regions ∧ c ∈ cells r.
Proof.
  unfold allCellsOf. rewrite list_elem_of_bind.
  split; intros (r & ? & ?); eauto.
Qed.

Lemma directions_opposite d :
  d ∈ directions → ∀ c, ∃ d', d' ∈ directions ∧ neighbor (neighbor c d) d' = c.
Proof.
  unfold directions. intros Hd [x y].
  repeat (apply elem_of_cons in Hd as [->|Hd]); [..|by apply elem_of_nil in Hd].
  - exists (0, 1). split; [compute_done|]. unfold neighbor. simpl. f_equal; lia.
  - exists (-1, 0). split; [compute_done|]. unfold neighbor. simpl. f_equal; lia.
  - exists (0, -1). split; [compute_done|]. unfold neighbor. simpl. f_equal; lia.
  - exists (1, 0). split; [compute_done|]. unfold neighbor. simpl. f_equal; lia.
Qed.

Section Scan.

Variable inp : Parsed.
Variable fuel : nat.
Hypothesis enough : (fillFuel inp ≤ fuel)%nat.

(** The body of the inner [for] loop at an in-bounds cell. *)
Lemma scanCell_spec y x st :
  scanInv inp st → inBounds inp x y = true →
  ∃ st', scanCell inp fuel y st x = Some st' ∧
         scanInv inp st' ∧
         mkCell x y ∈ allCellsOf st'.2 ∧
         ∀ c, c ∈ allCellsOf st.2 → c ∈ allCellsOf st'.2.
Proof.
  destruct st as [visited regions].
  intros (Hwf & Hmarks & Hnd & Hregions) Hin. simpl in *.
  unfold scanCell.
  destruct (visitedAt visited x y) eqn:Hv; simpl.
  { eexists. split; [done|]. split; [done|]. split; [|done].
    by apply (Hmarks (mkCell x y)). }
  set (c := mkCell x y). set (character := gridAt inp x y).
  set (prev := allCellsOf regions).
  assert (c ∉ prev) as Hfresh.
  { intros Hc. apply (Hmarks c) in Hc; [|done]. simpl in Hc. congruence. }
  set (st0 := {| fill_visited := markVisited visited x y;
                 fill_cells := [c]; fill_queue := [c] |}).
  assert (fillInv inp character prev [] st0) as Hinv0.
  { unfold fillInv, st0. simpl. split_and!.
    - by apply wfVisited_mark.
    - done.
    - by apply (marks_mark inp visited prev c).
    - apply NoDup_app. split_and!; [done| |apply NoDup_singleton].
      intros z Hz ->%list_elem_of_singleton. done.
    - intros c' ->%list_elem_of_singleton. done.
    - by intros c' ?%elem_of_nil. }
  destruct (floodFill_spec inp character prev fuel [] st0 Hinv0)
    as (st' & Hrun & Hinv' & Hq & more & Hmore).
  { unfold fillMeasure, st0. simpl.
    pose proof (unvisited_mark inp visited x y Hwf Hin Hv).
    pose proof (unvisited_le inp visited Hwf). unfold fillFuel in enough. lia. }
  rewrite Hrun. simpl. eexists. split; [done|].
  destruct Hinv' as (Hwf' & _ & Hmarks' & Hnd' & Hprops' & Hclosed').
  simpl in Hmore.
  assert (∀ z, z ∈ prev → z ∈ allCellsOf (regions ++ [mkRegion (fill_cells st') character])) as Hsub.
  { intros z Hz. rewrite allCellsOf_app. apply elem_of_app. by left. }
  split; [|split]; [unfold scanInv; split_and!; simpl|..].
  - done.
  - by rewrite allCellsOf_app.
  - by rewrite allCellsOf_app.
  - intros r [Hr| ->%list_elem_of_singleton]%elem_of_app.
    + by apply Hregions.
    + simpl. split; [by rewrite Hmore|].
      intros z Hz. destruct (Hprops' z Hz) as [Hzin Hzsym]. split_and!; [done..|].
      intros d Hd Hnin Hnsym.
      pose proof (Hclosed' z Hz d Hd Hnin Hnsym) as [Hold|Hnew]%elem_of_app; [|done].
      exfalso. apply elem_of_allCellsOf in Hold as (r' & Hr' & Hn').
      destruct (Hregions r' Hr') as [_ Hcs].
      destruct (Hcs _ Hn') as (_ & Hsym' & Hcl').
      destruct (directions_opposite d Hd z) as (d' & Hd' & Hback).
      assert (z ∈ cells r') as Hzr'.
      { rewrite <- Hback. apply Hcl'; [done|by rewrite Hback|].
        rewrite Hback. congruence. }
      apply NoDup_app in Hnd' as (_ & Hdisj & _).
      apply (Hdisj z); [|done]. apply elem_of_allCellsOf. eauto.
  - simpl. rewrite allCellsOf_app. simpl. rewrite Hmore. apply elem_of_app. right. by left.
  - done.
Qed.

(** One row of the scan. *)
Lemma scanRow_spec y st :
  scanInv inp st → 0 ≤ y < height inp →
  ∃ st', scanRow inp fuel st y = Some st' ∧
         scanInv inp st' ∧
         (∀ x, 0 ≤ x < width inp → mkCell x y ∈ allCellsOf st'.2) ∧
         ∀ c, c ∈ allCellsOf st.2 → c ∈ allCellsOf st'.2.
Proof.
  intros Hinv Hy. unfold scanRow.
  destruct (forEachM_invariant (scanCell inp fuel y)
    (λ xs st', scanInv inp st' ∧
               (∀ x, x ∈ xs → mkCell x y ∈ allCellsOf st'.2) ∧
               ∀ c, c ∈ allCellsOf st.2 → c ∈ allCellsOf st'.2)
    (seqZ 0 (width inp)) [] st) as (st' & Hrun & Hinv' & Hrow & Hkeep).
  - split_and!; [done| |done]. by intros x ?%elem_of_nil.
  - intros xs x st1 Hx%elem_of_seqZ (Hinv1 & Hrow1 & Hkeep1).
    destruct (scanCell_spec y x st1 Hinv1) as (st2 & Hrun2 & Hinv2 & Hc2 & Hkeep2).
    { apply inBounds_spec. lia. }
    exists st2. split_and!; [done..| |by auto].
    intros x' [Hx'| ->%list_elem_of_singleton]%elem_of_app; auto.
  - exists st'. split_and!; [done..| |done].
    intros x Hx. apply Hrow. rewrite app_nil_l. apply elem_of_seqZ. lia.
Qed.

(** [findRegions] returns, and its regions segment the input. *)
Lemma findRegions_spec :
  ∃ regions, findRegions inp fuel = Some regions ∧ segmented inp regions.
Proof.
  unfold findRegions.
  destruct (forEachM_invariant (scanRow inp fuel)
    (λ ys st', scanInv inp st' ∧
               ∀ y x, y ∈ ys → 0 ≤ x < width inp → mkCell x y ∈ allCellsOf st'.2)
    (seqZ 0 (height inp)) []
    (replicate (Z.to_nat (height inp)) (replicate (Z.to_nat (width inp)) false), []))
    as ([visited regions] & Hrun & Hinv & Hall).
  - split; [|by intros y x ?%elem_of_nil].
    split_and!; simpl.
    + apply wfVisited_start.
    + intros c Hc. rewrite visitedAt_start. split; [done|by intros ?%elem_of_nil].
    + apply NoDup_nil_2.
    + by intros r ?%elem_of_nil.
  - intros ys y st1 Hy%elem_of_seqZ (Hinv1 & Hrows1).
    destruct (scanRow_spec y st1 Hinv1) as (st2 & Hrun2 & Hinv2 & Hrow2 & Hkeep2); [lia|].
    exists st2. split_and!; [done..|].
    intros y' x [Hy'| ->%list_elem_of_singleton]%elem_of_app Hx; auto.
  - exists regions. rewrite Hrun. split; [done|]. split; [by exists visited|].
    intros [x y] [? ?]%inBounds_spec. simpl in *. apply Hall; [|lia].
    apply elem_of_seqZ. lia.
Qed.

End Scan.

(** * Perimeter and adjacent pairs *)

(** ** Sums *)

Lemma sumZ_ext {A : Type} (f g : A → Z) (l : list A) :
  (∀ a, a ∈ l → f a = g a) → sumZ f l = sumZ g l.
Proof.
  induction l as [|a l IH]; intros H; simpl; [done|].
  rewrite (H a) by by left. rewrite IH; [done|]. intros; apply H; by right.
Qed.

Lemma sumZ_plus {A : Type} (f g : A → Z) (l : list A) :
  sumZ (λ a, f a + g a) l = sumZ f l + sumZ g l.
Proof. induction l as [|a l IH]; simpl; lia. Qed.

Lemma sumZ_const {A : Type} (k : Z) (l : list A) :
  sumZ (λ _, k) l = k * Z.of_nat (length l).
Proof. induction l as [|a l IH]; simpl length; simpl sumZ; lia. Qed.

Lemma sumZ_indicator {A : Type} (P : A → Prop) `{∀ a, Decision (P a)} (l : list A) :
  sumZ (λ a, indicator (P a)) l = Z.of_nat (length (filter P l)).
Proof.
  induction l as [|a l IH]; [done|]. simpl sumZ. rewrite filter_cons, IH.
  unfold indicator. case_decide; simpl length; lia.
Qed.

Lemma foldl_accumulate {A : Type} (g : Z → A → Z) (t : A → Z) (l : list A) (p : Z) :
  (∀ p a, g p a = p + t a) → foldl g p l = p + sumZ t l.
Proof.
  intros Hg. revert p. induction l as [|a l IH]; intros p; simpl; [lia|].
  rewrite IH, Hg. lia.
Qed.

(** ** The perimeter as a sum over cells *)

Lemma cell_eq a b x y : mkCell a b = mkCell x y ↔ a = x ∧ b = y.
Proof. split; [by intros [= -> ->]|by intros [-> ->]]. Qed.

Lemma neighbor_across c :
  neighbor c (0, -1) = across TopEdge c ∧ neighbor c (1, 0) = across RightEdge c ∧
  neighbor c (0, 1) = across BottomEdge c ∧ neighbor c (-1, 0) = across LeftEdge c.
Proof. destruct c. unfold neighbor, across. simpl. split_and!; f_equal; lia. Qed.

Section Perimeter.

Variable inp : Parsed.
Variable region : Region.
Hypothesis inside : ∀ c, c ∈ cells region → cellInBounds inp c.

Lemma exposed_indicator c p d :
  exposed inp (cellKeys region) c p d = p + indicator (neighbor c d ∉ cells region).
Proof.
  unfold exposed.
  change (coordinateKey (cell_x c + d.1) (cell_y c + d.2)) with (keyOf (neighbor c d)).
  change (inBounds inp (cell_x c + d.1) (cell_y c + d.2))
    with (inBounds inp (cell_x (neighbor c d)) (cell_y (neighbor c d))).
  rewrite has_cellKey. unfold indicator.
  case_bool_decide as Hn; simpl.
  - rewrite (inside _ Hn). simpl. rewrite decide_False by auto. lia.
  - rewrite orb_true_r. rewrite decide_True by done. done.
Qed.

Lemma computePerimeter_exposure :
  computePerimeter inp region = sumZ (exposure (cells region)) (cells region).
Proof.
  unfold computePerimeter. rewrite (foldl_accumulate _ (exposure (cells region))); [lia|].
  intros p c. unfold exposure. apply foldl_accumulate. intros; apply exposed_indicator.
Qed.

End Perimeter.

Lemma exposure_across cs c :
  exposure cs c =
    indicator (across TopEdge c ∉ cs) + indicator (across RightEdge c ∉ cs)
    + indicator (across BottomEdge c ∉ cs) + indicator (across LeftEdge c ∉ cs).
Proof.
  unfold exposure, directions. simpl sumZ.
  destruct (neighbor_across c) as (-> & -> & -> & ->). lia.
Qed.

Lemma exposure_boundary region (l : list Cell) :
  sumZ (exposure (cells region)) l =
    Z.of_nat (length (filter (λ c, across LeftEdge c ∉ cells region) l))
    + Z.of_nat (length (filter (λ c, across RightEdge c ∉ cells region) l))
    + Z.of_nat (length (filter (λ c, across TopEdge c ∉ cells region) l))
    + Z.of_nat (length (filter (λ c, across BottomEdge c ∉ cells region) l)).
Proof.
  rewrite (sumZ_ext _ _ _ (λ c _, exposure_across (cells region) c)).
  rewrite !sumZ_plus, !sumZ_indicator. lia.
Qed.

(** The perimeter is the number of boundary cells, summed over the four
    orientations. *)
Lemma computePerimeter_boundary inp region :
  (∀ c, c ∈ cells region → cellInBounds inp c) →
  computePerimeter inp region =
    Z.of_nat (length (boundaryCells LeftEdge region))
    + Z.of_nat (length (boundaryCells RightEdge region))
    + Z.of_nat (length (boundaryCells TopEdge region))
    + Z.of_nat (length (boundaryCells BottomEdge region)).
Proof.
  intros Hin. rewrite (computePerimeter_exposure inp region Hin).
  apply exposure_boundary.
Qed.

(** ** Internal adjacent pairs *)

Lemma fourNeighbors_sym a b : fourNeighbors a b → fourNeighbors b a.
Proof. unfold fourNeighbors. lia. Qed.

Lemma fourNeighbors_across c b :
  indicator (across TopEdge c = b) + indicator (across RightEdge c = b)
  + indicator (across BottomEdge c = b) + indicator (across LeftEdge c = b)
  = indicator (fourNeighbors c b).
Proof.
  destruct c as [x y], b as [bx by_]. unfold indicator, fourNeighbors, across. simpl.
  repeat case_decide; rewrite ?cell_eq in *; lia.
Qed.

Lemma indicator_elem_cons (n b : Cell) (cs : list Cell) :
  b ∉ cs → indicator (n ∈ b :: cs) = indicator (n = b) + indicator (n ∈ cs).
Proof.
  intros Hb. unfold indicator. destruct (decide (n = b)) as [->|Hne].
  - rewrite decide_True by by left. by rewrite decide_False by done.
  - destruct (decide (n ∈ cs)) as [Hn|Hn].
    + by rewrite decide_True by by right.
    + rewrite decide_False; [done|]. by intros [?|?]%elem_of_cons.
Qed.

Lemma degree_filter cs c :
  NoDup cs → degree cs c = Z.of_nat (length (filter (fourNeighbors c) cs)).
Proof.
  induction 1 as [|b cs Hb Hnd IH].
  - unfold degree, indicator. repeat case_decide; try done;
      exfalso; eapply elem_of_nil; eauto.
  - rewrite filter_cons. unfold degree in *.
    rewrite !(indicator_elem_cons _ b cs Hb).
    pose proof (fourNeighbors_across c b) as Hacross.
    unfold indicator at 5 in Hacross. case_decide; simpl length; lia.
Qed.

Lemma exposure_degree cs c : exposure cs c = 4 - degree cs c.
Proof.
  rewrite exposure_across. unfold degree, indicator.
  repeat case_decide; try lia; tauto.
Qed.

Lemma degree_sum (l : list Cell) :
  sumZ (λ c, Z.of_nat (length (filter (fourNeighbors c) l))) l = 2 * adjacentPairs l.
Proof.
  induction l as [|a l IH]; [done|].
  simpl sumZ. simpl adjacentPairs.
  rewrite filter_cons. rewrite decide_False by (unfold fourNeighbors; lia).
  rewrite (sumZ_ext _ (λ c, indicator (fourNeighbors a c)
                            + Z.of_nat (length (filter (fourNeighbors c) l)))).
  - rewrite sumZ_plus, IH, sumZ_indicator. lia.
  - intros c _. rewrite filter_cons. unfold indicator.
    destruct (decide (fourNeighbors c a)) as [H|H].
    + rewrite decide_True by by apply fourNeighbors_sym. simpl length. lia.
    + rewrite decide_False; [lia|]. intros H'. by apply H, fourNeighbors_sym.
Qed.

(** The closed form of the perimeter. *)
Lemma computePerimeter_pairs inp region :
  (∀ c, c ∈ cells region → cellInBounds inp c) → NoDup (cells region) →
  computePerimeter inp region = 4 * area region - 2 * internalAdjacentPairs region.
Proof.
  intros Hin Hnd. rewrite (computePerimeter_exposure inp region Hin).
  rewrite (sumZ_ext _ (λ c, 4 + (-1) * Z.of_nat (length (filter (fourNeighbors c) (cells region))))).
  - rewrite sumZ_plus, sumZ_const.
    assert (∀ (f : Cell → Z) l, sumZ (λ c, -1 * f c) l = - sumZ f l) as Hneg.
    { intros f l. induction l; simpl; lia. }
    rewrite Hneg, degree_sum. unfold area, internalAdjacentPairs. lia.
  - intros c _. rewrite exposure_degree, degree_filter by done. lia.
Qed.

(** * Consequences of segmentation *)

(** ** What segmentation gives *)

Lemma NoDup_bind_parts {A B : Type} (f : A → list B) (l : list A) :
  NoDup (l ≫= f) →
  (∀ x, x ∈ l → NoDup (f x)) ∧
  (∀ i j x y z, i ≠ j → l !! i = Some x → l !! j = Some y → z ∈ f x → z ∈ f y → False).
Proof.
  induction l as [|a l IH]; [split; [by intros x ?%elem_of_nil|by intros []]|].
  rewrite bind_cons. intros (Ha & Hdisj & Hl)%NoDup_app.
  destruct (IH Hl) as [IH1 IH2]. split.
  - intros x [->|Hx]%elem_of_cons; auto.
  - intros [|i] [|j] x y z Hij Hx Hy Hzx Hzy; simplify_eq/=.
    + apply (Hdisj z Hzx). apply list_elem_of_bind. exists y. split; [done|].
      by eapply list_elem_of_lookup_2.
    + apply (Hdisj z Hzy). apply list_elem_of_bind. exists x. split; [done|].
      by eapply list_elem_of_lookup_2.
    + eapply (IH2 i j); eauto.
Qed.

Lemma gridCells_elem inp c : c ∈ gridCells inp ↔ cellInBounds inp c.
Proof.
  unfold gridCells, cellInBounds. rewrite inBounds_spec, list_elem_of_fmap. split.
  - intros ([x y] & -> & [Hx Hy]%list_elem_of_cprod). simpl in *.
    apply elem_of_seqZ in Hx, Hy. lia.
  - intros [Hx Hy]. exists (cell_x c, cell_y c). split; [by destruct c|].
    apply list_elem_of_cprod. simpl. rewrite !elem_of_seqZ. lia.
Qed.

Lemma gridCells_length inp : length (gridCells inp) = fillFuel inp.
Proof.
  unfold gridCells, fillFuel.
  by rewrite length_fmap, list_cprod_list_prod, length_prod, !length_seqZ.
Qed.

Lemma inBounds_length inp (l : list Cell) :
  NoDup l → (∀ c, c ∈ l → cellInBounds inp c) → (length l ≤ fillFuel inp)%nat.
Proof.
  intros Hnd Hin. rewrite <- gridCells_length. apply submseteq_length.
  apply NoDup_submseteq; [done|]. intros c Hc. by apply gridCells_elem, Hin.
Qed.

Section Segmented.

Variable inp : Parsed.
Variable regions : list Region.
Hypothesis seg : segmented inp regions.

Lemma segmented_region r :
  r ∈ regions →
  NoDup (cells r) ∧ cells r ≠ [] ∧
  ∀ c, c ∈ cells r →
    cellInBounds inp c ∧ symbolAt inp c = char r ∧
    closedAt inp (char r) (cells r) directions c.
Proof.
  destruct seg as [(visited & Hwf & Hmarks & Hnd & Hregions) Hall]. intros Hr.
  destruct (Hregions r Hr) as [Hne Hcs]. split_and!; [|done..].
  by apply (NoDup_bind_parts cells regions Hnd).
Qed.

Lemma segmented_cover c :
  cellInBounds inp c ↔ ∃ r, r ∈ regions ∧ c ∈ cells r.
Proof.
  split.
  - intros Hc. apply elem_of_allCellsOf. by apply seg.
  - intros (r & Hr & Hc). by apply (segmented_region r Hr).
Qed.

Lemma segmented_disjoint i j r1 r2 c :
  i ≠ j → regions !! i = Some r1 → regions !! j = Some r2 →
  c ∈ cells r1 → c ∉ cells r2.
Proof.
  destruct seg as [(visited & Hwf & Hmarks & Hnd & Hregions) Hall].
  intros Hij H1 H2 Hc1 Hc2.
  by eapply (proj2 (NoDup_bind_parts cells regions Hnd) i j).
Qed.

Lemma segmented_length r :
  r ∈ regions → (length (cells r) ≤ fillFuel inp)%nat.
Proof.
  intros Hr. destruct (segmented_region r Hr) as (Hnd & _ & Hcs).
  apply inBounds_length; [done|]. intros c Hc. by apply Hcs.
Qed.

(** With all symbols different, every region is a single cell. *)
Lemma segmented_distinct r :
  (∀ c c', cellInBounds inp c → cellInBounds inp c' →
           symbolAt inp c = symbolAt inp c' → c = c') →
  r ∈ regions → ∃ c, cells r = [c].
Proof.
  intros Hdist Hr. destruct (segmented_region r Hr) as (Hnd & Hne & Hcs).
  destruct (cells r) as [|c [|c' l]] eqn:E; [done|by exists c|].
  exfalso. apply NoDup_cons in Hnd as [Hc _]. apply Hc.
  assert (c = c') as ->; [|by left].
  destruct (Hcs c) as (? & ? & _); [by left|].
  destruct (Hcs c') as (? & ? & _); [right; by left|].
  apply Hdist; [done..|congruence].
Qed.

(** A region that contains the corner cell of a uniform grid contains
    every cell. *)
Lemma segmented_uniform_all r :
  (∀ c c', cellInBounds inp c → cellInBounds inp c' → symbolAt inp c = symbolAt inp c') →
  r ∈ regions → mkCell 0 0 ∈ cells r →
  ∀ c, cellInBounds inp c → c ∈ cells r.
Proof.
  intros Huni Hr H0. destruct (segmented_region r Hr) as (Hnd & Hne & Hcs).
  assert (∀ n : nat, ∀ x y, Z.of_nat n = x + y → cellInBounds inp (mkCell x y) →
                      mkCell x y ∈ cells r) as Hind.
  { induction n as [|n IH]; intros x y Hn Hin.
    - pose proof (proj1 (inBounds_spec inp x y) Hin) as Hb.
      assert (x = 0 ∧ y = 0) as [-> ->] by lia. done.
    - pose proof (proj1 (inBounds_spec inp x y) Hin) as Hb.
      destruct (decide (0 < x)) as [Hx|Hx].
      + assert (cellInBounds inp (mkCell (x - 1) y)) as Hprev.
        { apply inBounds_spec. simpl. lia. }
        assert (mkCell (x - 1) y ∈ cells r) as Hmem by (apply IH; [lia|done]).
        destruct (Hcs _ Hmem) as (_ & Hsym & Hcl).
        replace (mkCell x y) with (neighbor (mkCell (x - 1) y) (1, 0))
          by (unfold neighbor; simpl; f_equal; lia).
        assert (neighbor (mkCell (x - 1) y) (1, 0) = mkCell x y) as E
          by (unfold neighbor; simpl; f_equal; lia).
        apply Hcl; rewrite ?E; [compute_done|done|].
        rewrite <- Hsym. by apply Huni.
      + assert (cellInBounds inp (mkCell x (y - 1))) as Hprev.
        { apply inBounds_spec. simpl. lia. }
        assert (mkCell x (y - 1) ∈ cells r) as Hmem by (apply IH; [lia|done]).
        destruct (Hcs _ Hmem) as (_ & Hsym & Hcl).
        replace (mkCell x y) with (neighbor (mkCell x (y - 1)) (0, 1))
          by (unfold neighbor; simpl; f_equal; lia).
        assert (neighbor (mkCell x (y - 1)) (0, 1) = mkCell x y) as E
          by (unfold neighbor; simpl; f_equal; lia).
        apply Hcl; rewrite ?E; [compute_done|done|].
        rewrite <- Hsym. by apply Huni. }
  intros [x y] Hc. pose proof (proj1 (inBounds_spec inp x y) Hc) as Hb.
  apply (Hind (Z.to_nat (x + y))); [lia|done].
Qed.

(** A uniform, non-empty grid is one region. *)
Lemma segmented_uniform :
  (∀ c c', cellInBounds inp c → cellInBounds inp c' → symbolAt inp c = symbolAt inp c') →
  cellInBounds inp (mkCell 0 0) →
  ∃ r, regions = [r] ∧ ∀ c, c ∈ cells r ↔ cellInBounds inp c.
Proof.
  intros Huni H0.
  destruct (proj1 (segmented_cover _) H0) as (r & Hr & Hc0).
  pose proof (segmented_uniform_all r Huni Hr Hc0) as Hall.
  apply list_elem_of_lookup in Hr as [i Hi].
  assert (∀ j r', regions !! j = Some r' → j = i) as Honly.
  { intros j r' Hj. destruct (decide (j = i)) as [|Hne]; [done|exfalso].
    destruct (segmented_region r') as (_ & Hne' & Hcs'); [by eapply list_elem_of_lookup_2|].
    destruct (cells r') as [|c l] eqn:E; [done|].
    apply (segmented_disjoint j i r' r c Hne Hj Hi); [rewrite E; by left|].
    apply Hall. apply Hcs'. by left. }
  exists r. split.
  - destruct regions as [|r0 [|r1 rest]]; [done| |].
    + destruct i; simplify_eq/=. done.
    + pose proof (Honly 0%nat r0 eq_refl). pose proof (Honly 1%nat r1 eq_refl). lia.
  - intros c. split; [|apply Hall].
    intros Hc. apply segmented_cover. exists r. split; [|done].
    by eapply list_elem_of_lookup_2.
Qed.

End Segmented.

(** * Rectangles *)

(** ** Straight runs *)

Section Runs.

Variable isVertical : bool.

Local Abbreviation onLine := (lineCell isVertical).

Lemma onLine_coordinates k t :
  fixedCoordinate isVertical (onLine k t) = k ∧ along isVertical (onLine k t) = t.
Proof. unfold lineCell, fixedCoordinate, along. by destruct isVertical. Qed.

Lemma onLine_eq c :
  c = onLine (fixedCoordinate isVertical c) (along isVertical c).
Proof. unfold lineCell, fixedCoordinate, along. by destruct isVertical, c. Qed.

Lemma sideAdjacent_coordinates a b :
  sideAdjacent isVertical a b ↔
  fixedCoordinate isVertical a = fixedCoordinate isVertical b ∧
  Z.abs (along isVertical a - along isVertical b) = 1.
Proof. unfold sideAdjacent, fixedCoordinate, along. by destruct isVertical. Qed.

(** A straight run is one component. *)
Lemma run_components k lo len S :
  0 < len → isRun isVertical k lo len S →
  componentCount (sideAdjacent isVertical) S 1.
Proof.
  intros Hlen Hrun. exists [onLine k lo]. split; [|done].
  destruct (onLine_coordinates k lo) as [Hk Hlo].
  assert (onLine k lo ∈ S) as Hstart by (apply Hrun; lia).
  split_and!.
  - apply NoDup_singleton.
  - by intros r ->%list_elem_of_singleton.
  - intros r1 r2 ->%list_elem_of_singleton ->%list_elem_of_singleton _. done.
  - assert (∀ n : nat, ∀ a, a ∈ S → along isVertical a = lo + Z.of_nat n →
              connectedIn (sideAdjacent isVertical) S a (onLine k lo)) as Hind.
    { induction n as [|n IH]; intros a Ha Hn.
      - destruct (proj1 (Hrun a) Ha) as [Hak _].
        rewrite (onLine_eq a), Hak, Hn. replace (lo + Z.of_nat 0) with lo by lia.
        apply connectedIn_refl.
      - destruct (proj1 (Hrun a) Ha) as [Hak Har].
        set (a' := onLine k (lo + Z.of_nat n)).
        destruct (onLine_coordinates k (lo + Z.of_nat n)) as [Hk' Hn'].
        assert (a' ∈ S) as Ha' by (apply Hrun; unfold a'; lia).
        eapply connectedIn_trans; [|by apply (IH a')].
        apply connectedIn_step; [done..|].
        apply sideAdjacent_coordinates. unfold a'. lia. }
    intros a Ha. exists (onLine k lo). split; [by left|].
    destruct (proj1 (Hrun a) Ha) as [_ Har].
    apply (Hind (Z.to_nat (along isVertical a - lo))); [done|lia].
Qed.

(** A duplicate-free straight run has as many cells as its length. *)
Lemma run_length k lo len S :
  NoDup S → isRun isVertical k lo len S → Z.of_nat (length S) = Z.max 0 len.
Proof.
  intros Hnd Hrun.
  assert (S ≡ₚ onLine k <$> seqZ lo len) as ->.
  { apply NoDup_Permutation; [done| |].
    - apply NoDup_fmap_2; [|apply NoDup_seqZ].
      intros t t' E. pose proof (onLine_coordinates k t) as [_ H1].
      pose proof (onLine_coordinates k t') as [_ H2]. congruence.
    - intros c. rewrite (Hrun c), list_elem_of_fmap. split.
      + intros [Hk Hr]. exists (along isVertical c). split.
        * rewrite <- Hk. apply onLine_eq.
        * apply elem_of_seqZ. lia.
      + intros (t & -> & Ht%elem_of_seqZ).
        destruct (onLine_coordinates k t) as [-> ->]. lia. }
  rewrite length_fmap, length_seqZ. lia.
Qed.

End Runs.

(** ** Rectangles *)

Section Rectangle.

Variable region : Region.
Variables x0 y0 w h : Z.
Hypothesis wpos : 0 < w.
Hypothesis hpos : 0 < h.
Hypothesis rect : isRectangle region x0 y0 w h.

Lemma rectangle_boundary o :
  isRun (isVerticalEdge o)
    (match o with
     | LeftEdge => x0 | RightEdge => x0 + w - 1
     | TopEdge => y0 | BottomEdge => y0 + h - 1
     end)
    (if isVerticalEdge o then y0 else x0)
    (if isVerticalEdge o then h else w)
    (boundaryCells o region).
Proof.
  destruct rect as [_ Hcells]. intros c. unfold boundaryCells.
  rewrite list_elem_of_filter, !Hcells.
  destruct c as [x y], o; unfold fixedCoordinate, along; simpl; lia.
Qed.

Lemma rectangle_boundary_NoDup o : NoDup (boundaryCells o region).
Proof. apply NoDup_filter, rect. Qed.

Lemma rectangle_sidesOf o : sidesOf o region 1.
Proof.
  unfold sidesOf. eapply run_components; [|apply rectangle_boundary].
  destruct o; simpl; lia.
Qed.

Lemma rectangle_boundary_length o :
  Z.of_nat (length (boundaryCells o region)) = if isVerticalEdge o then h else w.
Proof.
  rewrite (run_length _ _ _ _ _ (rectangle_boundary_NoDup o) (rectangle_boundary o)).
  destruct o; simpl; lia.
Qed.

Lemma rectangle_perimeter inp :
  (∀ c, c ∈ cells region → cellInBounds inp c) →
  computePerimeter inp region = 2 * (w + h).
Proof.
  intros Hin. rewrite (computePerimeter_boundary inp region Hin).
  rewrite !rectangle_boundary_length. simpl. lia.
Qed.

Lemma rectangle_sides fuel :
  (2 * length (cells region) ≤ fuel)%nat → computeSides fuel region = Some 4.
Proof.
  intros Hfuel.
  destruct (computeSides_spec fuel region Hfuel) as (l & r & t & b & -> & Hl & Hr & Ht & Hb).
  rewrite (componentCount_unique _ _ _ _ Hl (rectangle_sidesOf LeftEdge)).
  rewrite (componentCount_unique _ _ _ _ Hr (rectangle_sidesOf RightEdge)).
  rewrite (componentCount_unique _ _ _ _ Ht (rectangle_sidesOf TopEdge)).
  rewrite (componentCount_unique _ _ _ _ Hb (rectangle_sidesOf BottomEdge)).
  done.
Qed.

End Rectangle.

(** * Concave regions *)

(** ** Bounds on the number of components *)

Section ComponentBounds.
Context {A : Type} `{EqDecision A} (adj : relation A) (S : list A).

Lemma componentCount_le n : componentCount adj S n → n ≤ Z.of_nat (length S).
Proof.
  intros (reps & (Hnd & Hin & _) & ->).
  pose proof (submseteq_length _ _ (NoDup_submseteq reps S Hnd Hin)). lia.
Qed.

Lemma componentCount_pos n a : a ∈ S → componentCount adj S n → 1 ≤ n.
Proof.
  intros Ha (reps & (_ & _ & _ & Hcov) & ->).
  destruct (Hcov a Ha) as (r & Hr & _). destruct reps; [by apply elem_of_nil in Hr|].
  simpl length. lia.
Qed.

Lemma componentCount_two n a b :
  a ∈ S → b ∈ S → ¬ connectedIn adj S a b → componentCount adj S n → 2 ≤ n.
Proof.
  intros Ha Hb Hab (reps & (Hnd & _ & _ & Hcov) & ->).
  destruct (Hcov a Ha) as (ra & Hra & Hca). destruct (Hcov b Hb) as (rb & Hrb & Hcb).
  assert (ra ≠ rb) as Hne.
  { intros ->. apply Hab. eapply connectedIn_trans; [done|]. by apply connectedIn_sym. }
  assert ([ra; rb] ⊆+ reps) as Hsub.
  { apply NoDup_submseteq.
    - apply NoDup_cons. split; [by intros ->%list_elem_of_singleton|apply NoDup_singleton].
    - intros x [->|[->|?%elem_of_nil]%elem_of_cons]%elem_of_cons; done. }
  apply submseteq_length in Hsub. simpl in Hsub. lia.
Qed.

Lemma componentCount_lt n a b :
  a ∈ S → b ∈ S → a ≠ b → connectedIn adj S a b →
  componentCount adj S n → n < Z.of_nat (length S).
Proof.
  intros Ha Hb Hne Hab (reps & (Hnd & Hin & Hsep & _) & ->).
  assert (∃ z, z ∈ S ∧ z ∉ reps) as (z & Hz & Hzr).
  { destruct (decide (a ∈ reps)) as [Har|Har]; [|by exists a].
    exists b. split; [done|]. intros Hbr. apply Hne. by apply Hsep. }
  apply elem_of_Permutation in Hz as [S' HS].
  assert (reps ⊆+ S') as Hsub.
  { apply NoDup_submseteq; [done|]. intros x Hx.
    pose proof (Hin x Hx) as HxS. rewrite HS in HxS.
    apply elem_of_cons in HxS as [->|]; done. }
  apply submseteq_length in Hsub. rewrite HS. simpl. lia.
Qed.

End ComponentBounds.

(** ** Boundaries of arbitrary regions *)

Lemma extremal_cell (f : Cell → Z) (l : list Cell) :
  l ≠ [] → ∃ c, c ∈ l ∧ ∀ c', c' ∈ l → f c' ≤ f c.
Proof.
  induction l as [|a l IH]; [done|]. intros _.
  destruct l as [|b l].
  - exists a. split; [by left|]. intros c' ->%list_elem_of_singleton. lia.
  - destruct IH as (c & Hc & Hmax); [done|].
    destruct (decide (f c ≤ f a)).
    + exists a. split; [by left|].
      intros c' [->|Hc']%elem_of_cons; [lia|]. specialize (Hmax c' Hc'). lia.
    + exists c. split; [by right|].
      intros c' [->|Hc']%elem_of_cons; [lia|]. by apply Hmax.
Qed.

Lemma elem_of_boundaryCells o region c :
  c ∈ boundaryCells o region ↔ c ∈ cells region ∧ across o c ∉ cells region.
Proof. unfold boundaryCells. rewrite list_elem_of_filter. tauto. Qed.

(** The outermost cell in the direction of [o] has a boundary edge there. *)
Lemma boundary_extreme o region :
  cells region ≠ [] →
  ∃ c, c ∈ boundaryCells o region ∧
       ∀ c', c' ∈ cells region → outward o c' ≤ outward o c.
Proof.
  intros Hne. destruct (extremal_cell (outward o) (cells region) Hne) as (c & Hc & Hmax).
  exists c. split; [|done]. apply elem_of_boundaryCells. split; [done|].
  intros Hn. specialize (Hmax _ Hn). destruct c, o; simpl in Hmax; lia.
Qed.

Lemma connectedIn_fixed isVertical (S : list Cell) a b :
  connectedIn (sideAdjacent isVertical) S a b →
  fixedCoordinate isVertical a = fixedCoordinate isVertical b.
Proof.
  unfold connectedIn, rtsc. revert b.
  apply (rtc_ind_r (λ b, fixedCoordinate isVertical a = fixedCoordinate isVertical b));
    [done|].
  intros y z _ [(_ & _ & Hadj)|(_ & _ & Hadj)] IH;
    unfold sideAdjacent, fixedCoordinate in *; destruct isVertical; lia.
Qed.

Lemma sideAdjacent_ne isVertical a b : sideAdjacent isVertical a b → a ≠ b.
Proof. intros Hadj ->. unfold sideAdjacent in Hadj. destruct isVertical; lia. Qed.

(** At a reflex corner, the top or the bottom boundary has cells in two
    different rows. *)
Lemma concave_rows region :
  concave region →
  ∃ o a b, isVerticalEdge o = false ∧
           a ∈ boundaryCells o region ∧ b ∈ boundaryCells o region ∧
           cell_y a ≠ cell_y b.
Proof.
  intros (x & y & Hcorner). unfold reflexCornerAt, inRegion in Hcorner.
  assert (∀ c, c ∈ cells region → cells region ≠ []) as Hne.
  { intros c Hc E. rewrite E in Hc. by apply elem_of_nil in Hc. }
  destruct Hcorner as [(H00 & H10 & H01 & H11)|[(H00 & H10 & H01 & H11)|
                       [(H00 & H10 & H01 & H11)|(H00 & H10 & H01 & H11)]]].
  - destruct (boundary_extreme BottomEdge region (Hne _ H00)) as (m & Hm & Hmax).
    exists BottomEdge, (mkCell (x + 1) y), m. split_and!; [done| |done|].
    + by apply elem_of_boundaryCells.
    + specialize (Hmax _ H01). simpl in *. lia.
  - destruct (boundary_extreme BottomEdge region (Hne _ H00)) as (m & Hm & Hmax).
    exists BottomEdge, (mkCell x y), m. split_and!; [done| |done|].
    + by apply elem_of_boundaryCells.
    + specialize (Hmax _ H11). simpl in *. lia.
  - destruct (boundary_extreme TopEdge region (Hne _ H00)) as (m & Hm & Hmax).
    exists TopEdge, (mkCell (x + 1) (y + 1)), m. split_and!; [done| |done|].
    + apply elem_of_boundaryCells. split; [done|]. simpl.
      by replace (y + 1 - 1) with y by lia.
    + specialize (Hmax _ H00). simpl in *. lia.
  - destruct (boundary_extreme TopEdge region (Hne _ H10)) as (m & Hm & Hmax).
    exists TopEdge, (mkCell x (y + 1)), m. split_and!; [done| |done|].
    + apply elem_of_boundaryCells. split; [done|]. simpl.
      by replace (y + 1 - 1) with y by lia.
    + specialize (Hmax _ H10). simpl in *. lia.
Qed.

Section SidesBounds.

Variable region : Region.
Variables l r t b : Z.
Hypothesis Hl : sidesOf LeftEdge region l.
Hypothesis Hr : sidesOf RightEdge region r.
Hypothesis Ht : sidesOf TopEdge region t.
Hypothesis Hb : sidesOf BottomEdge region b.

Local Abbreviation count := (orientationCount l r t b).

Lemma count_sidesOf o : sidesOf o region (count o).
Proof. by destruct o. Qed.

Lemma count_total :
  l + r + t + b = count LeftEdge + count RightEdge + count TopEdge + count BottomEdge.
Proof. done. Qed.

Lemma sides_concave : concave region → 4 < l + r + t + b.
Proof.
  intros Hconc. destruct (concave_rows region Hconc) as (o & a & a' & Ho & Ha & Ha' & Hrows).
  assert (cells region ≠ []) as Hne.
  { apply elem_of_boundaryCells in Ha as [Ha _]. intros E. rewrite E in Ha.
    by apply elem_of_nil in Ha. }
  assert (∀ o', 1 ≤ count o') as Hpos.
  { intros o'. destruct (boundary_extreme o' region Hne) as (c & Hc & _).
    eapply componentCount_pos; [done|apply count_sidesOf]. }
  assert (2 ≤ count o) as Htwo.
  { eapply (componentCount_two _ _ _ a a'); [done..| |apply count_sidesOf].
    intros Hconn%connectedIn_fixed. rewrite Ho in Hconn. done. }
  rewrite count_total.
  pose proof (Hpos LeftEdge). pose proof (Hpos RightEdge).
  pose proof (Hpos TopEdge). pose proof (Hpos BottomEdge).
  destruct o; lia.
Qed.

Lemma sides_longRun inp :
  (∀ c, c ∈ cells region → cellInBounds inp c) →
  hasLongRun region → l + r + t + b < computePerimeter inp region.
Proof.
  intros Hin (o & a & a' & Ha & Ha' & Hadj).
  rewrite (computePerimeter_boundary inp region Hin).
  assert (∀ o', count o' ≤ Z.of_nat (length (boundaryCells o' region))) as Hle.
  { intros o'. eapply componentCount_le, count_sidesOf. }
  assert (count o < Z.of_nat (length (boundaryCells o region))) as Hlt.
  { eapply (componentCount_lt _ _ _ a a'); [done..| | |apply count_sidesOf].
    - by eapply sideAdjacent_ne.
    - by apply connectedIn_step. }
  rewrite count_total.
  pose proof (Hle LeftEdge). pose proof (Hle RightEdge).
  pose proof (Hle TopEdge). pose proof (Hle BottomEdge).
  destruct o; lia.
Qed.

End SidesBounds.

(** * The script *)

(** ** The two totals *)

Lemma part1_sum inp regions :
  part1 inp regions = sumZ (λ r, area r * computePerimeter inp r) regions.
Proof.
  unfold part1. rewrite (foldl_accumulate _ (λ r, area r * computePerimeter inp r)); [lia|done].
Qed.

Lemma part2_sum fuel regions :
  (∀ r, r ∈ regions → is_Some (computeSides fuel r)) →
  part2 fuel regions = Some (sumZ (λ r, area r * sidesValue fuel r) regions).
Proof.
  intros Hall. unfold part2.
  assert (∀ total,
    forEachM (λ total region,
                sides ← computeSides fuel region; Some (total + area region * sides))
      total regions
    = Some (total + sumZ (λ r, area r * sidesValue fuel r) regions)) as H; [|by rewrite H].
  induction regions as [|r regions IH]; intros total.
  - simpl. f_equal. lia.
  - destruct (Hall r) as [s Hs]; [by left|].
    simpl. rewrite Hs. simpl. rewrite IH by (intros; apply Hall; by right).
    unfold sidesValue at 2. rewrite Hs. simpl. f_equal. lia.
Qed.

Lemma computeSides_total fuel region :
  (2 * length (cells region) ≤ fuel)%nat → is_Some (computeSides fuel region).
Proof.
  intros Hfuel. destruct (computeSides_spec fuel region Hfuel) as (l & r & t & b & -> & _).
  done.
Qed.

(** With [scriptFuel], the script segments the input and prints its two
    totals. *)
Lemma answers_spec inp fuel :
  (scriptFuel inp ≤ fuel)%nat →
  ∃ regions,
    findRegions inp fuel = Some regions ∧ segmented inp regions ∧
    (∀ r, r ∈ regions → is_Some (computeSides fuel r)) ∧
    answers fuel inp =
      Some (sumZ (λ r, area r * computePerimeter inp r) regions,
            sumZ (λ r, area r * sidesValue fuel r) regions).
Proof.
  intros Hfuel. unfold scriptFuel in Hfuel.
  destruct (findRegions_spec inp fuel) as (regions & Hfind & Hseg); [lia|].
  assert (∀ r, r ∈ regions → is_Some (computeSides fuel r)) as Hsides.
  { intros r Hr. apply computeSides_total.
    pose proof (segmented_length inp regions Hseg r Hr). lia. }
  exists regions. split_and!; [done..|].
  unfold answers. rewrite Hfind. simpl. rewrite part2_sum by done. simpl.
  by rewrite part1_sum.
Qed.

(** ** Inputs *)

Lemma wellFormed_rows g :
  wellFormed g = true →
  0 < width (gridInput g) ∧ 0 < height (gridInput g) ∧
  ∀ row, row ∈ g → Z.of_nat (length row) = width (gridInput g).
Proof.
  destruct g as [|row0 g]; [done|]. unfold wellFormed.
  intros [Hne Hall]%andb_true_iff. simpl.
  apply negb_true_iff, Nat.eqb_neq in Hne.
  split_and!; [lia..|].
  intros row Hrow. rewrite forallb_forall in Hall.
  apply list_elem_of_In, Hall, Nat.eqb_eq in Hrow. lia.
Qed.

Lemma wellFormed_gridCell g c :
  wellFormed g = true → cellInBounds (gridInput g) c ↔ gridCell g c.
Proof.
  intros (Hw & Hh & Hrows)%wellFormed_rows.
  unfold cellInBounds, gridCell, symbolAt, gridAt.
  rewrite inBounds_spec. change (grid (gridInput g)) with g.
  change (height (gridInput g)) with (Z.of_nat (length g)) in *.
  split.
  - intros [Hx Hy]. split_and!; [lia..|].
    destruct (lookup_lt_is_Some_2 g (Z.to_nat (cell_y c))) as [row Hrow]; [lia|].
    rewrite Hrow. simpl. apply lookup_lt_is_Some_2.
    pose proof (Hrows row (list_elem_of_lookup_2 _ _ _ Hrow)). lia.
  - intros (Hx & Hy & [a Ha]).
    destruct (g !! Z.to_nat (cell_y c)) as [row|] eqn:Hrow; [|done]. simpl in Ha.
    pose proof (Hrows row (list_elem_of_lookup_2 _ _ _ Hrow)).
    apply lookup_lt_Some in Hrow, Ha. lia.
Qed.

(** * Fuel *)

(** ** More fuel never changes a result *)

Lemma forEachM_mono {A B : Type} (f f' : A → B → option A) (l : list B) (a a' : A) :
  (∀ a b a', f a b = Some a' → f' a b = Some a') →
  forEachM f a l = Some a' → forEachM f' a l = Some a'.
Proof.
  intros Hf. revert a. induction l as [|b l IH]; intros a; simpl; [done|].
  destruct (f a b) as [a1|] eqn:E; [|done]. simpl.
  rewrite (Hf _ _ _ E). simpl. apply IH.
Qed.

Lemma floodFill_mono inp fuel fuel' character st st' :
  (fuel ≤ fuel')%nat →
  floodFill inp fuel character st = Some st' →
  floodFill inp fuel' character st = Some st'.
Proof.
  revert fuel' st. induction fuel as [|fuel IH]; intros fuel' st Hle; simpl.
  - destruct (fill_queue st) eqn:Hq; [|done]. intros [= <-].
    destruct fuel'; simpl; by rewrite Hq.
  - destruct (fill_queue st) eqn:Hq.
    + intros [= <-]. destruct fuel'; simpl; by rewrite Hq.
    + destruct fuel' as [|fuel']; [lia|]. simpl. rewrite Hq. apply IH. lia.
Qed.

Lemma findRegions_mono inp fuel fuel' regions :
  (fuel ≤ fuel')%nat →
  findRegions inp fuel = Some regions → findRegions inp fuel' = Some regions.
Proof.
  intros Hle. unfold findRegions.
  destruct (forEachM (scanRow inp fuel) _ _) as [st|] eqn:E; [|done].
  intros [= <-]. erewrite forEachM_mono; [done| |exact E].
  intros st0 y st1. unfold scanRow. apply forEachM_mono.
  intros [visited rs] x st2. unfold scanCell.
  destruct (negb _); [|done].
  destruct (floodFill inp fuel _ _) as [fill|] eqn:Hfill; [|done].
  by rewrite (floodFill_mono _ _ _ _ _ _ Hle Hfill).
Qed.

Lemma find_mono fuel fuel' parent p res :
  (fuel ≤ fuel')%nat → find fuel parent p = Some res → find fuel' parent p = Some res.
Proof.
  revert fuel' parent p. induction fuel as [|fuel IH]; intros fuel' parent p Hle Hrun.
  - simpl in Hrun. destruct (parent !! p) as [pp|] eqn:Hp; [|done]. simpl in Hrun.
    destruct (decide (p = pp)) as [<-|]; [|done]. simplify_eq.
    destruct fuel'; simpl; rewrite Hp; simpl; by rewrite decide_True.
  - destruct fuel' as [|fuel']; [lia|]. simpl in *.
    destruct (parent !! p) as [pp|]; [|done]. simpl in *.
    destruct (decide (p = pp)); [done|].
    destruct (parent !! pp) as [gp|]; [|done]. simpl in *. apply IH; [lia|done].
Qed.

Lemma union_mono fuel fuel' uf a b uf' :
  (fuel ≤ fuel')%nat → union fuel uf a b = Some uf' → union fuel' uf a b = Some uf'.
Proof.
  intros Hle. unfold union.
  destruct (find fuel (uf_parent uf) a) as [[rootA parent1]|] eqn:E1; [|done]. simpl.
  destruct (find fuel parent1 b) as [[rootB parent2]|] eqn:E2; [|done]. simpl.
  rewrite (find_mono _ _ _ _ _ Hle E1). simpl.
  by rewrite (find_mono _ _ _ _ _ Hle E2).
Qed.

Lemma findAll_mono fuel fuel' parent elements roots :
  (fuel ≤ fuel')%nat →
  findAll fuel parent elements = Some roots → findAll fuel' parent elements = Some roots.
Proof.
  intros Hle. revert parent roots. induction elements as [|e elements IH]; intros parent roots;
    simpl; [done|].
  destruct (find fuel parent e) as [[root parent']|] eqn:E; [|done]. simpl.
  rewrite (find_mono _ _ _ _ _ Hle E). simpl.
  destruct (findAll fuel parent' elements) as [rs|] eqn:Ers; [|done]. simpl.
  by rewrite (IH _ _ Ers).
Qed.

Lemma groupEdgeSegments_mono fuel fuel' edgePositions isVertical n :
  (fuel ≤ fuel')%nat →
  groupEdgeSegments fuel edgePositions isVertical = Some n →
  groupEdgeSegments fuel' edgePositions isVertical = Some n.
Proof.
  intros Hle. unfold groupEdgeSegments. case_bool_decide; [done|].
  destruct (forEachM (connectPosition fuel _ _) _ _) as [uf|] eqn:E; [|done]. simpl.
  erewrite forEachM_mono; [| |exact E].
  - simpl. unfold countComponents.
    destruct (findAll fuel _ _) as [roots|] eqn:Er; [|done]. simpl.
    by rewrite (findAll_mono _ _ _ _ _ Hle Er).
  - intros uf0 position uf1. unfold connectPosition.
    destruct (parseCoordinateKey position) as [[x y]|]; [|done]. simpl.
    assert (∀ other uf2 uf3,
      unionIfPresent fuel (list_to_set edgePositions) position other uf2 = Some uf3 →
      unionIfPresent fuel' (list_to_set edgePositions) position other uf2 = Some uf3) as Hu.
    { intros other uf2 uf3. unfold unionIfPresent. case_bool_decide; [|done].
      by apply union_mono. }
    destruct isVertical.
    + destruct (unionIfPresent fuel _ _ (coordinateKey x (y - 1)) uf0) as [uf2|] eqn:E2;
        [|done]. simpl. rewrite (Hu _ _ _ E2). simpl. apply Hu.
    + destruct (unionIfPresent fuel _ _ (coordinateKey (x - 1) y) uf0) as [uf2|] eqn:E2;
        [|done]. simpl. rewrite (Hu _ _ _ E2). simpl. apply Hu.
Qed.

Lemma computeSides_mono fuel fuel' region sides :
  (fuel ≤ fuel')%nat →
  computeSides fuel region = Some sides → computeSides fuel' region = Some sides.
Proof.
  intros Hle. unfold computeSides.
  destruct (groupEdgeSegments fuel (leftEdges _) true) as [l|] eqn:El; [|done]. simpl.
  destruct (groupEdgeSegments fuel (rightEdges _) true) as [r|] eqn:Er; [|done]. simpl.
  destruct (groupEdgeSegments fuel (topEdges _) false) as [t|] eqn:Et; [|done]. simpl.
  destruct (groupEdgeSegments fuel (bottomEdges _) false) as [b|] eqn:Eb; [|done]. simpl.
  rewrite (groupEdgeSegments_mono _ _ _ _ _ Hle El). simpl.
  rewrite (groupEdgeSegments_mono _ _ _ _ _ Hle Er). simpl.
  rewrite (groupEdgeSegments_mono _ _ _ _ _ Hle Et). simpl.
  by rewrite (groupEdgeSegments_mono _ _ _ _ _ Hle Eb).
Qed.

(** Whatever fuel [findRegions] returned with, its result segments the
    input. *)
Lemma findRegions_sound inp fuel regions :
  findRegions inp fuel = Some regions → segmented inp regions.
Proof.
  intros Hrun.
  destruct (findRegions_spec inp (fuel `max` fillFuel inp)) as (regions' & Hrun' & Hseg);
    [lia|].
  rewrite (findRegions_mono inp fuel _ regions) in Hrun' by (done || lia).
  by simplify_eq.
Qed.

(** Whatever fuel [computeSides] returned with, its result is the sum of
    the four component counts. *)
Lemma computeSides_sound fuel region sides :
  computeSides fuel region = Some sides →
  ∃ l r t b, sides = l + r + t + b ∧
    sidesOf LeftEdge region l ∧ sidesOf RightEdge region r ∧
    sidesOf TopEdge region t ∧ sidesOf BottomEdge region b.
Proof.
  intros Hrun.
  destruct (computeSides_spec (fuel `max` (2 * length (cells region))) region)
    as (l & r & t & b & Hrun' & H); [lia|].
  rewrite (computeSides_mono fuel _ region sides) in Hrun' by (done || lia).
  exists l, r, t, b. split; [by simplify_eq|done].
Qed.

(** The result does not depend on the fuel. *)
Lemma findRegions_unique inp fuel fuel' regions regions' :
  findRegions inp fuel = Some regions → findRegions inp fuel' = Some regions' →
  regions' = regions.
Proof.
  intros H H'.
  apply (findRegions_mono inp fuel (fuel `max` fuel')) in H; [|lia].
  apply (findRegions_mono inp fuel' (fuel `max` fuel')) in H'; [|lia].
  congruence.
Qed.

Lemma computeSides_unique fuel fuel' region sides sides' :
  computeSides fuel region = Some sides → computeSides fuel' region = Some sides' →
  sides' = sides.
Proof.
  intros H H'.
  apply (computeSides_mono fuel (fuel `max` fuel')) in H; [|lia].
  apply (computeSides_mono fuel' (fuel `max` fuel')) in H'; [|lia].
  congruence.
Qed.

(** * Sample runs *)

Example example_malformed : malformed raggedText ∧ malformed EmptyString.
Proof.
  split; [right|by left]. exists ["A"%char]. split; [|simpl; lia].
  vm_compute. apply list_elem_of_In. simpl. tauto.
Qed.

Example example_main : main 32 exampleText = Some (140, 80).
Proof. vm_compute. reflexivity. Qed.

Example example_parse : parseInput exampleText = gridInput exampleGrid.
Proof. reflexivity. Qed.

Example example_regionC :
  computePerimeter (gridInput exampleGrid) regionC = 10 ∧ computeSides 8 regionC = Some 8.
Proof. split; vm_compute; reflexivity. Qed.

Example example_uniform :
  findRegions (gridInput (list_ascii_of_string <$> ["AA"; "AA"]%string)) 4
  = Some [{| cells := [mkCell 0 0; mkCell 1 0; mkCell 0 1; mkCell 1 1];
             char := Some "A"%char |}].
Proof. vm_compute. reflexivity. Qed.

Example example_distinct :
  findRegions (gridInput (list_ascii_of_string <$> ["AB"; "CD"]%string)) 4
  = Some [{| cells := [mkCell 0 0]; char := Some "A"%char |};
          {| cells := [mkCell 1 0]; char := Some "B"%char |};
          {| cells := [mkCell 0 1]; char := Some "C"%char |};
          {| cells := [mkCell 1 1]; char := Some "D"%char |}].
Proof. vm_compute. reflexivity. Qed.

Example example_ragged : script 8 raggedText = Printed 20 16.
Proof. vm_compute. reflexivity. Qed.

(** ** Auxiliary facts for the statements *)

Lemma insideBounds_spec inp region :
  insideBounds inp region = true → ∀ c, c ∈ cells region → cellInBounds inp c.
Proof.
  unfold insideBounds. rewrite forallb_forall. intros H c Hc.
  apply (H c). by apply list_elem_of_In.
Qed.

Lemma cellKeys_size region :
  NoDup (cells region) → size (cellKeys region) = length (cells region).
Proof.
  intros Hnd. unfold cellKeys.
  change (map (λ c, coordinateKey (cell_x c) (cell_y c)) (cells region))
    with (keyOf <$> cells region).
  rewrite size_list_to_set, length_fmap; [done|].
  apply NoDup_fmap_2_strong; [|done]. intros ? ? _ _. apply keyOf_inj.
Qed.

Lemma emptyInput_answers text fuel :
  emptyInput text → main fuel text = Some (0, 0).
Proof. unfold emptyInput, main, parseInput. intros ->. reflexivity. Qed.

Lemma segmented_inside inp regions r :
  segmented inp regions → r ∈ regions → ∀ c, c ∈ cells r → cellInBounds inp c.
Proof. intros Hseg Hr c Hc. by apply (segmented_region inp regions Hseg r Hr). Qed.

(** * The claims *)

(** C1.  For every region, the side count that [computeSides] returns
    (with enough fuel it returns, and whatever the fuel it returns the same) is
    the sum, over the left, right, top and bottom orientations, of the
    number of connected components of that orientation's boundary cells,
    two boundary cells being adjacent when they share x and differ by 1 in
    y (left, right) or share y and differ by 1 in x (top, bottom).  The
    count of components is unique by [componentCount_unique]. *)
Theorem sides_count_components (region : Region) (fuel : nat) :
  (2 * length (cells region) ≤ fuel)%nat →
  ∃ l r t b,
    computeSides fuel region = Some (l + r + t + b) ∧
    (∀ fuel' sides, computeSides fuel' region = Some sides → sides = l + r + t + b) ∧
    componentCount (sideAdjacent true) (boundaryCells LeftEdge region) l ∧
    componentCount (sideAdjacent true) (boundaryCells RightEdge region) r ∧
    componentCount (sideAdjacent false) (boundaryCells TopEdge region) t ∧
    componentCount (sideAdjacent false) (boundaryCells BottomEdge region) b.
Proof.
  intros Hfuel.
  destruct (computeSides_spec fuel region Hfuel) as (l & r & t & b & Hrun & H).
  exists l, r, t, b. split_and!; [done| |apply H..].
  intros fuel' sides Hrun'. by apply (computeSides_unique fuel fuel' region).
Qed.

Lemma sides_count_components_witness :
  ∃ l r t b,
    computeSides 8 regionC = Some (l + r + t + b) ∧
    (∀ fuel' sides, computeSides fuel' regionC = Some sides → sides = l + r + t + b) ∧
    componentCount (sideAdjacent true) (boundaryCells LeftEdge regionC) l ∧
    componentCount (sideAdjacent true) (boundaryCells RightEdge regionC) r ∧
    componentCount (sideAdjacent false) (boundaryCells TopEdge regionC) t ∧
    componentCount (sideAdjacent false) (boundaryCells BottomEdge regionC) b.
Proof. apply (sides_count_components regionC 8). vm_compute. lia. Defined.

(** C2.  For every well-formed grid, segmentation returns regions that
    partition the cells of the grid: a cell belongs to some region exactly
    when it is in bounds, which is when the grid has a symbol there, and
    two regions at different positions of the result share no cell. *)
Theorem regions_partition (g : list (list ascii)) (fuel : nat) :
  wellFormed g = true →
  (fillFuel (gridInput g) ≤ fuel)%nat →
  ∃ regions,
    findRegions (gridInput g) fuel = Some regions ∧
    (∀ fuel' regions', findRegions (gridInput g) fuel' = Some regions' → regions' = regions) ∧
    (∀ c, (∃ r, r ∈ regions ∧ c ∈ cells r) ↔ cellInBounds (gridInput g) c) ∧
    (∀ c, cellInBounds (gridInput g) c ↔ gridCell g c) ∧
    (∀ i j r1 r2 c,
       i ≠ j → regions !! i = Some r1 → regions !! j = Some r2 →
       c ∈ cells r1 → c ∉ cells r2).
Proof.
  intros Hwf Hfuel.
  destruct (findRegions_spec (gridInput g) fuel Hfuel) as (regions & Hfind & Hseg).
  exists regions. split_and!; [done| | | |].
  - intros fuel' regions'. by apply (findRegions_unique _ fuel).
  - intros c. symmetry. by apply (segmented_cover (gridInput g) regions Hseg).
  - intros c. by apply wellFormed_gridCell.
  - intros i j r1 r2 c. by apply (segmented_disjoint (gridInput g) regions Hseg).
Qed.

Lemma regions_partition_witness :
  ∃ regions,
    findRegions (gridInput exampleGrid) 16 = Some regions ∧
    (∀ fuel' regions', findRegions (gridInput exampleGrid) fuel' = Some regions' → regions' = regions) ∧
    (∀ c, (∃ r, r ∈ regions ∧ c ∈ cells r) ↔ cellInBounds (gridInput exampleGrid) c) ∧
    (∀ c, cellInBounds (gridInput exampleGrid) c ↔ gridCell exampleGrid c) ∧
    (∀ i j r1 r2 c,
       i ≠ j → regions !! i = Some r1 → regions !! j = Some r2 →
       c ∈ cells r1 → c ∉ cells r2).
Proof. apply (regions_partition exampleGrid 16); [reflexivity|vm_compute; lia]. Defined.

(** C3.  For every region produced by segmentation, the perimeter that
    [computePerimeter] returns is 4 times the area minus 2 times the
    number of pairs of cells of the region that are 4-neighbours. *)
Theorem perimeter_closed_form (g : list (list ascii)) (fuel : nat) :
  (fillFuel (gridInput g) ≤ fuel)%nat →
  ∃ regions,
    findRegions (gridInput g) fuel = Some regions ∧
    (∀ fuel' regions', findRegions (gridInput g) fuel' = Some regions' → regions' = regions) ∧
    ∀ r, r ∈ regions →
      computePerimeter (gridInput g) r = 4 * area r - 2 * internalAdjacentPairs r.
Proof.
  intros Hfuel.
  destruct (findRegions_spec (gridInput g) fuel Hfuel) as (regions & Hfind & Hseg).
  exists regions. split; [done|].
  split; [intros fuel' regions'; by apply (findRegions_unique _ fuel)|]. intros r Hr.
  apply computePerimeter_pairs.
  - by eapply segmented_inside.
  - by apply (segmented_region _ _ Hseg r Hr).
Qed.

Lemma perimeter_closed_form_witness :
  ∃ regions,
    findRegions (gridInput exampleGrid) 16 = Some regions ∧
    (∀ fuel' regions', findRegions (gridInput exampleGrid) fuel' = Some regions' → regions' = regions) ∧
    ∀ r, r ∈ regions →
      computePerimeter (gridInput exampleGrid) r = 4 * area r - 2 * internalAdjacentPairs r.
Proof. apply (perimeter_closed_form exampleGrid 16). vm_compute. lia. Defined.

(** C4.  For every well-formed grid the script returns two totals: the
    first is the sum over the regions of area times perimeter, the second
    the sum over the regions of area times the side count that
    [computeSides] returns, the area being the number of cells. *)
Theorem totals_are_sums (g : list (list ascii)) (fuel : nat) :
  wellFormed g = true →
  (scriptFuel (gridInput g) ≤ fuel)%nat →
  ∃ regions,
    findRegions (gridInput g) fuel = Some regions ∧
    (∀ r, r ∈ regions →
       computeSides fuel r = Some (sidesValue fuel r) ∧
       area r = Z.of_nat (length (cells r)) ∧
       size (cellKeys r) = length (cells r)) ∧
    answers fuel (gridInput g) =
      Some (sumZ (λ r, area r * computePerimeter (gridInput g) r) regions,
            sumZ (λ r, area r * sidesValue fuel r) regions).
Proof.
  intros _ Hfuel.
  destruct (answers_spec (gridInput g) fuel Hfuel) as (regions & Hfind & Hseg & Hsides & Hans).
  exists regions. split_and!; [done| |done].
  intros r Hr. split_and!.
  - unfold sidesValue. by destruct (Hsides r Hr) as [s ->].
  - done.
  - apply cellKeys_size. by apply (segmented_region _ _ Hseg r Hr).
Qed.

Lemma totals_are_sums_witness :
  ∃ regions,
    findRegions (gridInput exampleGrid) 32 = Some regions ∧
    (∀ r, r ∈ regions →
       computeSides 32 r = Some (sidesValue 32 r) ∧
       area r = Z.of_nat (length (cells r)) ∧
       size (cellKeys r) = length (cells r)) ∧
    answers 32 (gridInput exampleGrid) =
      Some (sumZ (λ r, area r * computePerimeter (gridInput exampleGrid) r) regions,
            sumZ (λ r, area r * sidesValue 32 r) regions).
Proof. apply (totals_are_sums exampleGrid 32); [reflexivity|vm_compute; lia]. Defined.

(** C5, as the code has it.  The script validates nothing: for every
    input text, malformed or not, it raises no error and prints two
    totals computed from the grid as parsed: over the regions that
    [findRegions] finds in the parsed grid, the sum of area times
    perimeter and the sum of area times sides, [computeSides] returning
    for each of them.  For an empty input both totals are 0. *)
Theorem no_input_validation (text : string) (fuel : nat) :
  (scriptFuel (parseInput text) ≤ fuel)%nat →
  ∃ regions,
    findRegions (parseInput text) fuel = Some regions ∧
    (∀ r, r ∈ regions → computeSides fuel r = Some (sidesValue fuel r)) ∧
    script fuel text =
      Printed (sumZ (λ r, area r * computePerimeter (parseInput text) r) regions)
              (sumZ (λ r, area r * sidesValue fuel r) regions) ∧
    (emptyInput text → script fuel text = Printed 0 0).
Proof.
  intros Hfuel.
  destruct (answers_spec (parseInput text) fuel Hfuel)
    as (regions & Hfind & _ & Hsides & Hans).
  exists regions. split; [done|]. split; [|split].
  - intros r Hr. unfold sidesValue. by destruct (Hsides r Hr) as [v ->].
  - unfold script, main. by rewrite Hans.
  - intros Hempty. unfold script. by rewrite (emptyInput_answers text fuel Hempty).
Qed.

Lemma no_input_validation_witness :
  malformed raggedText ∧
  ∃ regions,
    findRegions (parseInput raggedText) 8 = Some regions ∧
    (∀ r, r ∈ regions → computeSides 8 r = Some (sidesValue 8 r)) ∧
    script 8 raggedText =
      Printed (sumZ (λ r, area r * computePerimeter (parseInput raggedText) r) regions)
              (sumZ (λ r, area r * sidesValue 8 r) regions) ∧
    (emptyInput raggedText → script 8 raggedText = Printed 0 0).
Proof.
  split; [apply example_malformed|].
  apply (no_input_validation raggedText 8). vm_compute. lia.
Defined.

(** C5, as stated, fails: the empty input is malformed, yet the script
    prints [0] and [0] instead of raising an error. *)
Lemma malformed_input_not_rejected :
  ¬ (∀ text, malformed text → ∀ fuel, ∃ message, script fuel text = Thrown message).
Proof.
  intros H. destruct (H EmptyString (or_introl eq_refl) 0%nat) as [message Hm].
  vm_compute in Hm. discriminate.
Qed.

(** C6.  A full rectangle of width [w] and height [h] inside the grid has
    perimeter [2 * (w + h)] and 4 sides; a single cell is the case
    [w = h = 1], with perimeter 4 and 4 sides. *)
Theorem rectangle_perimeter_sides (inp : Parsed) (region : Region)
    (x0 y0 w h : Z) (fuel : nat) :
  0 < w → 0 < h →
  isRectangle region x0 y0 w h →
  insideBounds inp region = true →
  (2 * length (cells region) ≤ fuel)%nat →
  computePerimeter inp region = 2 * (w + h) ∧
  computeSides fuel region = Some 4 ∧
  (w = 1 → h = 1 → computePerimeter inp region = 4).
Proof.
  intros Hw Hh Hrect Hin Hfuel.
  pose proof (rectangle_perimeter region x0 y0 w h Hw Hh Hrect inp
                (insideBounds_spec inp region Hin)) as Hp.
  split_and!; [done| |intros -> ->; by rewrite Hp].
  by apply (rectangle_sides region x0 y0 w h).
Qed.

Lemma rectangle_perimeter_sides_witness :
  computePerimeter (gridInput exampleGrid) regionD = 2 * (1 + 1) ∧
  computeSides 2 regionD = Some 4 ∧
  (1 = 1 → 1 = 1 → computePerimeter (gridInput exampleGrid) regionD = 4).
Proof.
  apply (rectangle_perimeter_sides (gridInput exampleGrid) regionD 3 1 1 1 2);
    [lia|lia| |reflexivity|simpl; lia].
  split; [apply NoDup_singleton|].
  intros [x y]. simpl. rewrite list_elem_of_singleton, cell_eq. lia.
Defined.

(** C7.  For every well-formed grid and enough fuel, segmentation
    returns, every region gets a side count, and the script returns its
    two totals (which include every perimeter).  If all symbols differ,
    every cell is a region of its own and every region is one cell; if
    all symbols are the same, there is one region, holding every cell. *)
Theorem segmentation_total (g : list (list ascii)) (fuel : nat) :
  wellFormed g = true →
  (scriptFuel (gridInput g) ≤ fuel)%nat →
  ∃ regions a b,
    findRegions (gridInput g) fuel = Some regions ∧
    (∀ r, r ∈ regions → is_Some (computeSides fuel r)) ∧
    answers fuel (gridInput g) = Some (a, b) ∧
    (allDistinct (gridInput g) →
       (∀ r, r ∈ regions → ∃ c, cells r = [c]) ∧
       (∀ c, cellInBounds (gridInput g) c → ∃ r, r ∈ regions ∧ cells r = [c])) ∧
    (uniform (gridInput g) →
       ∃ r, regions = [r] ∧ ∀ c, c ∈ cells r ↔ cellInBounds (gridInput g) c).
Proof.
  intros Hwf Hfuel.
  destruct (answers_spec (gridInput g) fuel Hfuel) as (regions & Hfind & Hseg & Hsides & Hans).
  exists regions. eexists _, _. split_and!; [done..| |].
  - intros Hdist. split.
    + intros r Hr. by apply (segmented_distinct _ _ Hseg r Hdist).
    + intros c Hc. destruct (proj1 (segmented_cover _ _ Hseg c) Hc) as (r & Hr & Hcr).
      exists r. split; [done|].
      destruct (segmented_distinct _ _ Hseg r Hdist Hr) as [c' Hc'].
      rewrite Hc' in Hcr. apply list_elem_of_singleton in Hcr. by subst.
  - intros Huni. apply (segmented_uniform _ _ Hseg Huni).
    apply wellFormed_rows in Hwf as (? & ? & _). apply inBounds_spec.
    cbn [cell_x cell_y]. lia.
Qed.

Lemma segmentation_total_witness :
  ∃ regions a b,
    findRegions (gridInput exampleGrid) 32 = Some regions ∧
    (∀ r, r ∈ regions → is_Some (computeSides 32 r)) ∧
    answers 32 (gridInput exampleGrid) = Some (a, b) ∧
    (allDistinct (gridInput exampleGrid) →
       (∀ r, r ∈ regions → ∃ c, cells r = [c]) ∧
       (∀ c, cellInBounds (gridInput exampleGrid) c → ∃ r, r ∈ regions ∧ cells r = [c])) ∧
    (uniform (gridInput exampleGrid) →
       ∃ r, regions = [r] ∧ ∀ c, c ∈ cells r ↔ cellInBounds (gridInput exampleGrid) c).
Proof. apply (segmentation_total exampleGrid 32); [reflexivity|vm_compute; lia]. Defined.

(** C8.  For every concave region inside the grid: if some straight
    boundary run is longer than one cell, the side count is less than
    the perimeter; and the side count exceeds 4.  A region is concave
    when it has a reflex corner, as L-shaped and U-shaped regions do. *)
Theorem concave_sides_bounds (inp : Parsed) (region : Region) (fuel : nat) :
  insideBounds inp region = true →
  (2 * length (cells region) ≤ fuel)%nat →
  concave region →
  ∃ sides,
    computeSides fuel region = Some sides ∧
    (hasLongRun region → sides < computePerimeter inp region) ∧
    4 < sides.
Proof.
  intros Hin Hfuel Hconc. pose proof (insideBounds_spec inp region Hin) as Hin'.
  destruct (computeSides_spec fuel region Hfuel) as (l & r & t & b & Hs & Hl & Hr & Ht & Hb).
  exists (l + r + t + b). split_and!; [done| |].
  - intros Hrun. by apply (sides_longRun region l r t b Hl Hr Ht Hb inp Hin').
  - by apply (sides_concave region l r t b).
Qed.

Lemma concave_sides_bounds_witness :
  ∃ sides,
    computeSides 8 regionC = Some sides ∧
    sides < computePerimeter (gridInput exampleGrid) regionC ∧
    4 < sides.
Proof.
  destruct (concave_sides_bounds (gridInput exampleGrid) regionC 8)
    as (sides & Hs & Hlt & Hgt); [reflexivity|simpl; lia| |].
  - exists 2, 1. right. right. left. unfold inRegion. simpl.
    rewrite !elem_of_cons, !cell_eq, !elem_of_nil. lia.
  - exists sides. split_and!; [done| |done]. apply Hlt.
    exists LeftEdge, (mkCell 2 1), (mkCell 2 2).
    split_and!; [compute_done|compute_done|simpl; lia].
Defined.

(** C9.  For every region produced by segmentation, the four edge arrays
    that [computeSides] fills hold together as many entries as the
    perimeter that [computePerimeter] returns. *)
Theorem edges_total_is_perimeter (g : list (list ascii)) (fuel : nat) :
  (fillFuel (gridInput g) ≤ fuel)%nat →
  ∃ regions,
    findRegions (gridInput g) fuel = Some regions ∧
    (∀ fuel' regions', findRegions (gridInput g) fuel' = Some regions' → regions' = regions) ∧
    ∀ r, r ∈ regions →
      Z.of_nat (length (leftEdges (collectEdges r)))
      + Z.of_nat (length (rightEdges (collectEdges r)))
      + Z.of_nat (length (topEdges (collectEdges r)))
      + Z.of_nat (length (bottomEdges (collectEdges r)))
      = computePerimeter (gridInput g) r.
Proof.
  intros Hfuel.
  destruct (findRegions_spec (gridInput g) fuel Hfuel) as (regions & Hfind & Hseg).
  exists regions. split; [done|].
  split; [intros fuel' regions'; by apply (findRegions_unique _ fuel)|]. intros r Hr.
  rewrite (computePerimeter_boundary (gridInput g) r) by by eapply segmented_inside.
  pose proof (collectEdges_boundary r LeftEdge) as H1.
  pose proof (collectEdges_boundary r RightEdge) as H2.
  pose proof (collectEdges_boundary r TopEdge) as H3.
  pose proof (collectEdges_boundary r BottomEdge) as H4.
  simpl in H1, H2, H3, H4. rewrite H1, H2, H3, H4, !length_map. done.
Qed.

Lemma edges_total_is_perimeter_witness :
  ∃ regions,
    findRegions (gridInput exampleGrid) 16 = Some regions ∧
    (∀ fuel' regions', findRegions (gridInput exampleGrid) fuel' = Some regions' → regions' = regions) ∧
    ∀ r, r ∈ regions →
      Z.of_nat (length (leftEdges (collectEdges r)))
      + Z.of_nat (length (rightEdges (collectEdges r)))
      + Z.of_nat (length (topEdges (collectEdges r)))
      + Z.of_nat (length (bottomEdges (collectEdges r)))
      = computePerimeter (gridInput exampleGrid) r.
Proof. apply (edges_total_is_perimeter exampleGrid 16). vm_compute. lia. Defined.

(** C10.  For every region produced by segmentation, the cell list has no
    duplicate (so the area, its length, is also the number of distinct
    coordinate keys), and every cell of the list is in bounds and holds
    the region's recorded symbol in the grid. *)
Theorem region_cells_invariant (g : list (list ascii)) (fuel : nat) :
  (fillFuel (gridInput g) ≤ fuel)%nat →
  ∃ regions,
    findRegions (gridInput g) fuel = Some regions ∧
    (∀ fuel' regions', findRegions (gridInput g) fuel' = Some regions' → regions' = regions) ∧
    ∀ r, r ∈ regions →
      NoDup (cells r) ∧
      area r = Z.of_nat (size (cellKeys r)) ∧
      ∀ c, c ∈ cells r →
        inBounds (gridInput g) (cell_x c) (cell_y c) = true ∧
        gridAt (gridInput g) (cell_x c) (cell_y c) = char r.
Proof.
  intros Hfuel.
  destruct (findRegions_spec (gridInput g) fuel Hfuel) as (regions & Hfind & Hseg).
  exists regions. split; [done|].
  split; [intros fuel' regions'; by apply (findRegions_unique _ fuel)|]. intros r Hr.
  destruct (segmented_region _ _ Hseg r Hr) as (Hnd & _ & Hcs).
  split_and!; [done| |].
  - unfold area. by rewrite cellKeys_size.
  - intros c Hc. destruct (Hcs c Hc) as (? & ? & _). done.
Qed.

Lemma region_cells_invariant_witness :
  ∃ regions,
    findRegions (gridInput exampleGrid) 16 = Some regions ∧
    (∀ fuel' regions', findRegions (gridInput exampleGrid) fuel' = Some regions' → regions' = regions) ∧
    ∀ r, r ∈ regions →
      NoDup (cells r) ∧
      area r = Z.of_nat (size (cellKeys r)) ∧
      ∀ c, c ∈ cells r →
        inBounds (gridInput exampleGrid) (cell_x c) (cell_y c) = true ∧
        gridAt (gridInput exampleGrid) (cell_x c) (cell_y c) = char r.
Proof. apply (region_cells_invariant exampleGrid 16). vm_compute. lia. Defined.

(** * Further properties of the code *)

(** ** Coordinate keys *)

(** X1.  [parseCoordinateKey] reads back the two integers that
    [coordinateKey] printed, negative ones included. *)
Theorem key_round_trip (x y : Z) :
  parseCoordinateKey (coordinateKey x y) = Some (x, y).
Proof. apply parse_coordinateKey. Qed.

(** X2.  Two cells get the same key only if they are the same cell, so a
    set of keys stands for a set of cells. *)
Theorem key_no_collision (x y x' y' : Z) :
  coordinateKey x y = coordinateKey x' y' ↔ x = x' ∧ y = y'.
Proof.
  split; [apply coordinateKey_inj|]. by intros [-> ->].
Qed.

(** ** Union-find *)

Lemma forest_chainParent : forest 2 chainParent.
Proof.
  split.
  - intros x y. unfold chainParent. rewrite !lookup_insert.
    repeat case_decide; intros; simplify_eq; eauto.
  - exists chainRank. split; [|intros x; unfold chainRank; repeat case_decide; lia].
    intros x y. unfold chainParent, chainRank. rewrite !lookup_insert.
    repeat case_decide; intros; simplify_eq; lia.
Qed.

(** X3.  On a forest whose ranks are at most the fuel, [find] returns the
    root of the key; path halving changes neither the keys of the table
    nor the root of any key, and leaves a forest of the same rank bound. *)
Theorem find_root_preserved (bound fuel : nat) (parent : gmap string string) (p : string) :
  forest bound parent → (bound ≤ fuel)%nat → is_Some (parent !! p) →
  ∃ r parent',
    find fuel parent p = Some (r, parent') ∧
    rootOf parent p r ∧ parent' !! r = Some r ∧
    forest bound parent' ∧
    (∀ x, is_Some (parent' !! x) ↔ is_Some (parent !! x)) ∧
    (∀ x s, rootOf parent' x s ↔ rootOf parent x s).
Proof.
  intros [Hc (h & Hr & Hb)] Hfuel Hp.
  destruct (find_sameRoot h parent fuel p Hc Hr Hp)
    as (r & parent' & Hf & Hroot & Hc' & Hr' & Hdom & Heq).
  { specialize (Hb p). lia. }
  exists r, parent'. split_and!; try done.
  - eapply rootOf_is_root. apply Heq. done.
  - split; [done|]. by exists h.
Qed.

Lemma find_root_preserved_witness :
  ∃ r parent',
    find 2 chainParent "a" = Some (r, parent') ∧
    rootOf chainParent "a" r ∧ parent' !! r = Some r ∧
    forest 2 parent' ∧
    (∀ x, is_Some (parent' !! x) ↔ is_Some (chainParent !! x)) ∧
    (∀ x s, rootOf parent' x s ↔ rootOf chainParent x s).
Proof.
  apply (find_root_preserved 2 2 chainParent "a");
    [apply forest_chainParent|lia|by eexists].
Defined.

(** X4.  [union] of two keys of the table puts them under one root: two
    keys share a root afterwards exactly when they did before or when
    one was with the first key and the other with the second.  The
    element array and the keys of the table stay as they were. *)
Theorem union_joins (bound fuel : nat) (uf : UnionFind) (a b : string) :
  ufInv bound uf → (bound ≤ fuel)%nat →
  is_Some (uf_parent uf !! a) → is_Some (uf_parent uf !! b) →
  ∃ uf',
    union fuel uf a b = Some uf' ∧
    ufInv (S bound) uf' ∧
    uf_elements uf' = uf_elements uf ∧
    (∀ x, is_Some (uf_parent uf' !! x) ↔ is_Some (uf_parent uf !! x)) ∧
    sameRoot (uf_parent uf') a b ∧
    (∀ x y, sameRoot (uf_parent uf') x y ↔
       sameRoot (uf_parent uf) x y
       ∨ (sameRoot (uf_parent uf) x a ∧ sameRoot (uf_parent uf) b y)
       ∨ (sameRoot (uf_parent uf) x b ∧ sameRoot (uf_parent uf) a y)).
Proof.
  intros Hinv Hfuel Ha Hb.
  destruct (union_spec bound fuel uf a b Hinv Hfuel Ha Hb)
    as (uf' & Hu & Hinv' & Hel & Hdom & Hsame).
  exists uf'. split_and!; try done.
  apply Hsame. right. left.
  destruct Hinv as [[Hc (h & Hr & _)] _].
  split; by apply (sameRoot_refl _ h).
Qed.

Lemma union_joins_witness :
  ∃ uf',
    union 0 (createUnionFind ["a"; "b"]) "a" "b" = Some uf' ∧
    ufInv 1 uf' ∧
    uf_elements uf' = uf_elements (createUnionFind ["a"; "b"]) ∧
    (∀ x, is_Some (uf_parent uf' !! x)
          ↔ is_Some (uf_parent (createUnionFind ["a"; "b"]) !! x)) ∧
    sameRoot (uf_parent uf') "a" "b" ∧
    (∀ x y, sameRoot (uf_parent uf') x y ↔
       sameRoot (uf_parent (createUnionFind ["a"; "b"])) x y
       ∨ (sameRoot (uf_parent (createUnionFind ["a"; "b"])) x "a"
          ∧ sameRoot (uf_parent (createUnionFind ["a"; "b"])) "b" y)
       ∨ (sameRoot (uf_parent (createUnionFind ["a"; "b"])) x "b"
          ∧ sameRoot (uf_parent (createUnionFind ["a"; "b"])) "a" y)).
Proof.
  apply (union_joins 0 0 (createUnionFind ["a"; "b"]) "a" "b");
    [apply createUnionFind_inv|lia|by eexists|by eexists].
Defined.




(** ** Regions are connected components *)

Lemma connectedIn_mono {A : Type} (adj : relation A) (S S' : list A) a b :
  (∀ x, x ∈ S → x ∈ S') → connectedIn adj S a b → connectedIn adj S' a b.
Proof.
  intros Hsub. unfold connectedIn, rtsc. apply rtc_subrel.
  intros x y [(? & ? & ?)|(? & ? & ?)]; [left|right]; auto.
Qed.

Lemma fourNeighbors_neighbor c d : d ∈ directions → fourNeighbors c (neighbor c d).
Proof.
  unfold directions. intros Hd.
  repeat (apply elem_of_cons in Hd as [->|Hd]); [..|by apply elem_of_nil in Hd];
    unfold fourNeighbors, neighbor; simpl; lia.
Qed.

Lemma neighbor_fourNeighbors c n :
  fourNeighbors c n → ∃ d, d ∈ directions ∧ n = neighbor c d.
Proof.
  destruct c as [x y], n as [nx ny]. unfold fourNeighbors, neighbor. simpl.
  intros [[-> Hy]|[-> Hx]].
  - destruct (decide (ny = y - 1)) as [->|].
    + exists (0, -1). split; [compute_done|]. simpl. f_equal; lia.
    + exists (0, 1). split; [compute_done|]. simpl. f_equal; lia.
  - destruct (decide (nx = x - 1)) as [->|].
    + exists (-1, 0). split; [compute_done|]. simpl. f_equal; lia.
    + exists (1, 0). split; [compute_done|]. simpl. f_equal; lia.
Qed.

Section FillConnected.

Variable inp : Parsed.
Variable character : Symbol.
Variable start : Cell.

Lemma visitNeighbor_connected c st d :
  d ∈ directions → c ∈ fill_cells st →
  fillConnected start st →
  fillConnected start (visitNeighbor inp character c st d) ∧
  c ∈ fill_cells (visitNeighbor inp character c st d).
Proof.
  intros Hd Hc [Hq Hreach]. unfold visitNeighbor.
  change (mkCell (cell_x c + d.1) (cell_y c + d.2)) with (neighbor c d).
  destruct (_ && _ && _); [|done]. simpl. split; [split|].
  - intros q [Hin| ->%list_elem_of_singleton]%elem_of_app; apply elem_of_app;
      [left; by apply Hq|right; by left].
  - assert (∀ x, x ∈ fill_cells st → x ∈ fill_cells st ++ [neighbor c d]) as Hsub.
    { intros x Hx. apply elem_of_app. by left. }
    intros z [Hz| ->%list_elem_of_singleton]%elem_of_app.
    + eapply connectedIn_mono; [done|]. by apply Hreach.
    + eapply connectedIn_trans.
      * eapply connectedIn_mono; [done|]. by apply Hreach.
      * apply connectedIn_step; [by apply Hsub| |by apply fourNeighbors_neighbor].
        apply elem_of_app. right. by left.
  - apply elem_of_app. by left.
Qed.

Lemma expand_connected c st ds :
  (∀ d, d ∈ ds → d ∈ directions) → c ∈ fill_cells st →
  fillConnected start st →
  fillConnected start (foldl (visitNeighbor inp character c) st ds).
Proof.
  revert st. induction ds as [|d ds IH]; intros st Hds Hc Hconn; [done|].
  simpl. destruct (visitNeighbor_connected c st d) as [Hconn' Hc']; [apply Hds; by left|done..|].
  apply IH; [intros; apply Hds; by right|done..].
Qed.

Lemma floodFill_unfold fuel st c rest :
  fill_queue st = c :: rest →
  floodFill inp (S fuel) character st
  = floodFill inp fuel character
      (foldl (visitNeighbor inp character c)
         {| fill_visited := fill_visited st; fill_cells := fill_cells st;
            fill_queue := rest |} directions).
Proof. intros Hq. cbn [floodFill]. by rewrite Hq. Qed.

Lemma floodFill_connected fuel st st' :
  floodFill inp fuel character st = Some st' →
  fillConnected start st → fillConnected start st'.
Proof.
  revert st. induction fuel as [|fuel IH]; intros st.
  - simpl. destruct (fill_queue st); [|done]. by intros [= <-].
  - destruct (fill_queue st) as [|c rest] eqn:Hq.
    + simpl. rewrite Hq. by intros [= <-].
    + rewrite (floodFill_unfold fuel st c rest Hq).
      intros Hrun [Hin Hreach]. apply (IH _ Hrun).
      apply expand_connected; [done|simpl; apply Hin; rewrite Hq; by left|].
      split; [|done]. simpl. intros q Hq'. apply Hin. rewrite Hq. by right.
Qed.

End FillConnected.

Lemma forEachM_preserves {A B : Type} (f : A → B → option A) (P : A → Prop)
    (l : list B) (a a' : A) :
  (∀ a b a', f a b = Some a' → P a → P a') →
  forEachM f a l = Some a' → P a → P a'.
Proof.
  intros Hf. revert a. induction l as [|b l IH]; intros a; simpl.
  - by intros [= <-].
  - destruct (f a b) as [a1|] eqn:E; [|done]. simpl. intros Hrun Ha.
    apply (IH a1 Hrun). by eapply Hf.
Qed.

(** Every region comes out of one flood fill started from one cell. *)
Lemma findRegions_filled inp fuel regions :
  findRegions inp fuel = Some regions → ∀ r, r ∈ regions → filledFrom inp fuel r.
Proof.
  unfold findRegions.
  destruct (forEachM (scanRow inp fuel) _ _) as [[visited rs]|] eqn:E; [|done].
  intros [= <-]. simpl.
  set (P := λ st : list (list bool) * list Region, ∀ r, r ∈ st.2 → filledFrom inp fuel r).
  assert (∀ st y st1, scanRow inp fuel st y = Some st1 → P st → P st1) as Hrow.
  { intros st y st1. unfold scanRow. apply forEachM_preserves.
    intros [v rs0] x st2. unfold scanCell.
    destruct (negb _); [|by intros [= <-]].
    destruct (floodFill inp fuel _ _) as [fill|] eqn:Hfill; [|done]. simpl.
    intros [= <-] Hold r [Hr| ->%list_elem_of_singleton]%elem_of_app; [by apply Hold|].
    by exists x, y, (markVisited v x y), fill. }
  apply (forEachM_preserves _ P _ _ _ Hrow E). by intros r ?%elem_of_nil.
Qed.

Lemma filledFrom_connected inp fuel r a b :
  filledFrom inp fuel r → a ∈ cells r → b ∈ cells r →
  connectedIn fourNeighbors (cells r) a b.
Proof.
  intros (x & y & visited & st' & Hrun & ->) Ha Hb. simpl in *.
  pose proof (floodFill_connected inp _ (mkCell x y) fuel _ _ Hrun) as [_ Hreach].
  { split; simpl; [done|]. intros c ->%list_elem_of_singleton. apply connectedIn_refl. }
  eapply connectedIn_trans; [apply connectedIn_sym|]; by apply Hreach.
Qed.

(** X6.  Every region that segmentation returns is 4-connected: any two
    of its cells are joined by a chain of 4-neighbouring cells of the
    region. *)
Theorem regions_connected (g : list (list ascii)) (fuel : nat) :
  (fillFuel (gridInput g) ≤ fuel)%nat →
  ∃ regions,
    findRegions (gridInput g) fuel = Some regions ∧
    ∀ r a b, r ∈ regions → a ∈ cells r → b ∈ cells r →
      connectedIn fourNeighbors (cells r) a b.
Proof.
  intros Hfuel.
  destruct (findRegions_spec (gridInput g) fuel Hfuel) as (regions & Hfind & _).
  exists regions. split; [done|]. intros r a b Hr.
  apply (filledFrom_connected (gridInput g) fuel).
  by apply (findRegions_filled (gridInput g) fuel regions).
Qed.

Lemma regions_connected_witness :
  ∃ regions,
    findRegions (gridInput exampleGrid) 16 = Some regions ∧
    ∀ r a b, r ∈ regions → a ∈ cells r → b ∈ cells r →
      connectedIn fourNeighbors (cells r) a b.
Proof. apply (regions_connected exampleGrid 16). vm_compute. lia. Defined.

(** X7.  Every region that segmentation returns is maximal: a 4-neighbour
    of one of its cells that is in bounds and holds the region's symbol is
    in the region too.  So two regions of one symbol never touch. *)
Theorem regions_maximal (g : list (list ascii)) (fuel : nat) :
  (fillFuel (gridInput g) ≤ fuel)%nat →
  ∃ regions,
    findRegions (gridInput g) fuel = Some regions ∧
    (∀ r c n, r ∈ regions → c ∈ cells r → fourNeighbors c n →
       inBounds (gridInput g) (cell_x n) (cell_y n) = true →
       gridAt (gridInput g) (cell_x n) (cell_y n) = char r →
       n ∈ cells r) ∧
    (∀ i j r1 r2 c1 c2,
       i ≠ j → regions !! i = Some r1 → regions !! j = Some r2 →
       char r1 = char r2 → c1 ∈ cells r1 → c2 ∈ cells r2 →
       ¬ fourNeighbors c1 c2).
Proof.
  intros Hfuel.
  destruct (findRegions_spec (gridInput g) fuel Hfuel) as (regions & Hfind & Hseg).
  assert (∀ r c n, r ∈ regions → c ∈ cells r → fourNeighbors c n →
       inBounds (gridInput g) (cell_x n) (cell_y n) = true →
       gridAt (gridInput g) (cell_x n) (cell_y n) = char r →
       n ∈ cells r) as Hmax.
  { intros r c n Hr Hc (d & Hd & ->)%neighbor_fourNeighbors Hin Hsym.
    destruct (segmented_region _ _ Hseg r Hr) as (_ & _ & Hcs).
    destruct (Hcs c Hc) as (_ & _ & Hcl). by apply Hcl. }
  exists regions. split_and!; [done..|].
  intros i j r1 r2 c1 c2 Hij H1 H2 Hchar Hc1 Hc2 Hadj.
  assert (r2 ∈ regions) as Hr2 by by eapply list_elem_of_lookup_2.
  destruct (segmented_region _ _ Hseg r2 Hr2) as (_ & _ & Hcs2).
  destruct (Hcs2 c2 Hc2) as (Hin2 & Hsym2 & _).
  apply (segmented_disjoint _ _ Hseg i j r1 r2 c2 Hij H1 H2); [|done].
  apply (Hmax r1 c1 c2); [by eapply list_elem_of_lookup_2|done..|].
  unfold symbolAt in Hsym2. congruence.
Qed.

Lemma regions_maximal_witness :
  ∃ regions,
    findRegions (gridInput exampleGrid) 16 = Some regions ∧
    (∀ r c n, r ∈ regions → c ∈ cells r → fourNeighbors c n →
       inBounds (gridInput exampleGrid) (cell_x n) (cell_y n) = true →
       gridAt (gridInput exampleGrid) (cell_x n) (cell_y n) = char r →
       n ∈ cells r) ∧
    (∀ i j r1 r2 c1 c2,
       i ≠ j → regions !! i = Some r1 → regions !! j = Some r2 →
       char r1 = char r2 → c1 ∈ cells r1 → c2 ∈ cells r2 →
       ¬ fourNeighbors c1 c2).
Proof. apply (regions_maximal exampleGrid 16). vm_compute. lia. Defined.

(** ** Areas *)

Lemma NoDup_gridCells inp : NoDup (gridCells inp).
Proof.
  unfold gridCells. apply NoDup_fmap_2; [by intros [] [] [= -> ->]|].
  unfold cprod, list_cprod. apply NoDup_bind; [| |apply NoDup_seqZ].
  - intros x1 x2 [a b] _ _ (? & [= -> ->] & _)%list_elem_of_fmap
      (? & [= -> ->] & _)%list_elem_of_fmap. done.
  - intros x _. apply NoDup_fmap_2; [by intros ? ? [=]|apply NoDup_seqZ].
Qed.

Lemma sumZ_area regions :
  sumZ area regions = Z.of_nat (length (allCellsOf regions)).
Proof.
  unfold allCellsOf. induction regions as [|r regions IH]; [done|].
  rewrite bind_cons, length_app. simpl sumZ. unfold area at 1. lia.
Qed.

Lemma segmented_area inp regions :
  segmented inp regions → sumZ area regions = Z.of_nat (fillFuel inp).
Proof.
  intros Hseg. rewrite sumZ_area, <- gridCells_length. f_equal.
  apply Permutation_length, NoDup_Permutation.
  - by destruct Hseg as [(visited & _ & _ & Hnd & _) _].
  - apply NoDup_gridCells.
  - intros c. rewrite gridCells_elem, elem_of_allCellsOf.
    symmetry. by apply segmented_cover.
Qed.

(** X8.  The areas of the regions add up to the size of the grid, width
    times height: segmentation loses no cell and counts none twice. *)
Theorem areas_sum (g : list (list ascii)) (fuel : nat) :
  (fillFuel (gridInput g) ≤ fuel)%nat →
  ∃ regions,
    findRegions (gridInput g) fuel = Some regions ∧
    sumZ area regions = width (gridInput g) * height (gridInput g).
Proof.
  intros Hfuel.
  destruct (findRegions_spec (gridInput g) fuel Hfuel) as (regions & Hfind & Hseg).
  exists regions. split; [done|].
  rewrite (segmented_area _ _ Hseg). unfold fillFuel. simpl. lia.
Qed.

Lemma areas_sum_witness :
  ∃ regions,
    findRegions (gridInput exampleGrid) 16 = Some regions ∧
    sumZ area regions = width (gridInput exampleGrid) * height (gridInput exampleGrid).
Proof. apply (areas_sum exampleGrid 16). vm_compute. lia. Defined.

(** ** Bounds on sides and perimeter *)

Lemma sides_bounds inp region l r t b :
  (∀ c, c ∈ cells region → cellInBounds inp c) → cells region ≠ [] →
  sidesOf LeftEdge region l → sidesOf RightEdge region r →
  sidesOf TopEdge region t → sidesOf BottomEdge region b →
  4 ≤ l + r + t + b ∧ l + r + t + b ≤ computePerimeter inp region ∧
  computePerimeter inp region ≤ 4 * area region.
Proof.
  intros Hin Hne Hl Hr Ht Hb.
  rewrite (computePerimeter_boundary inp region Hin).
  assert (∀ o n, sidesOf o region n →
            1 ≤ n ∧ n ≤ Z.of_nat (length (boundaryCells o region))) as Hone.
  { intros o n Hn. destruct (boundary_extreme o region Hne) as (c & Hc & _). split.
    - by eapply componentCount_pos.
    - by eapply componentCount_le. }
  pose proof (Hone _ _ Hl). pose proof (Hone _ _ Hr).
  pose proof (Hone _ _ Ht). pose proof (Hone _ _ Hb).
  pose proof (boundaryCells_length LeftEdge region).
  pose proof (boundaryCells_length RightEdge region).
  pose proof (boundaryCells_length TopEdge region).
  pose proof (boundaryCells_length BottomEdge region).
  unfold area. lia.
Qed.

(** X9.  For every non-empty region of cells of the grid, the side count
    is at least 4 and at most the perimeter, and the perimeter is at most
    4 times the area. *)
Theorem sides_perimeter_bounds (inp : Parsed) (region : Region) (fuel : nat) :
  insideBounds inp region = true → cells region ≠ [] →
  (2 * length (cells region) ≤ fuel)%nat →
  ∃ sides,
    computeSides fuel region = Some sides ∧
    4 ≤ sides ∧ sides ≤ computePerimeter inp region ∧
    computePerimeter inp region ≤ 4 * area region.
Proof.
  intros Hin Hne Hfuel.
  destruct (computeSides_spec fuel region Hfuel) as (l & r & t & b & Hs & Hl & Hr & Ht & Hb).
  exists (l + r + t + b). split; [done|].
  apply sides_bounds; try done. by apply insideBounds_spec.
Qed.

Lemma sides_perimeter_bounds_witness :
  ∃ sides,
    computeSides 8 regionC = Some sides ∧
    4 ≤ sides ∧ sides ≤ computePerimeter (gridInput exampleGrid) regionC ∧
    computePerimeter (gridInput exampleGrid) regionC ≤ 4 * area regionC.
Proof.
  apply (sides_perimeter_bounds (gridInput exampleGrid) regionC 8);
    [reflexivity|done|simpl; lia].
Defined.

Lemma sumZ_le {A : Type} (f f' : A → Z) (l : list A) :
  (∀ a, a ∈ l → f a ≤ f' a) → sumZ f l ≤ sumZ f' l.
Proof.
  induction l as [|a l IH]; intros H; simpl; [lia|].
  pose proof (H a ltac:(by left)). pose proof (IH ltac:(intros; apply H; by right)). lia.
Qed.

Lemma sumZ_nonneg {A : Type} (f : A → Z) (l : list A) :
  (∀ a, a ∈ l → 0 ≤ f a) → 0 ≤ sumZ f l.
Proof.
  induction l as [|a l IH]; intros H; simpl; [lia|].
  pose proof (H a ltac:(by left)). pose proof (IH ltac:(intros; apply H; by right)). lia.
Qed.

(** X10.  For every input text the second total printed, which prices a
    region by its sides, is at most the first, which prices it by its
    perimeter, and neither is negative. *)
Theorem discount_never_dearer (text : string) (fuel : nat) :
  (scriptFuel (parseInput text) ≤ fuel)%nat →
  ∃ a b, main fuel text = Some (a, b) ∧ 0 ≤ b ∧ b ≤ a.
Proof.
  intros Hfuel. unfold main.
  destruct (answers_spec (parseInput text) fuel Hfuel)
    as (regions & Hfind & Hseg & Hsides & ->).
  eexists _, _. split; [done|].
  assert (∀ r, r ∈ regions →
            0 ≤ area r * sidesValue fuel r ∧
            area r * sidesValue fuel r ≤ area r * computePerimeter (parseInput text) r) as Hreg.
  { intros r Hr. destruct (segmented_region _ _ Hseg r Hr) as (_ & Hne & Hcs).
    destruct (Hsides r Hr) as [s Hs].
    destruct (computeSides_sound fuel r s Hs) as (l & r' & t & b & -> & Hl & Hr' & Ht & Hb).
    unfold sidesValue. rewrite Hs. simpl.
    destruct (sides_bounds (parseInput text) r l r' t b) as (? & ? & ?); try done.
    { intros c Hc. by apply Hcs. }
    unfold area in *. nia. }
  split.
  - apply sumZ_nonneg. intros r Hr. by apply Hreg.
  - apply sumZ_le. intros r Hr. by apply Hreg.
Qed.

Lemma discount_never_dearer_witness :
  ∃ a b, main 32 exampleText = Some (a, b) ∧ 0 ≤ b ∧ b ≤ a.
Proof. apply (discount_never_dearer exampleText 32). vm_compute. lia. Defined.

(** ** The order of the cells does not matter *)

Lemma sumZ_Permutation {A : Type} (f : A → Z) (l l' : list A) :
  l ≡ₚ l' → sumZ f l = sumZ f l'.
Proof. induction 1; simpl; lia. Qed.

Lemma computePerimeter_sum inp region :
  computePerimeter inp region =
  sumZ (λ c, sumZ (λ d,
          if negb (inBounds inp (cell_x (neighbor c d)) (cell_y (neighbor c d)))
             || negb (bool_decide (neighbor c d ∈ cells region))
          then 1 else 0) directions) (cells region).
Proof.
  unfold computePerimeter.
  rewrite (foldl_accumulate _
    (λ c, sumZ (λ d,
       if negb (inBounds inp (cell_x (neighbor c d)) (cell_y (neighbor c d)))
          || negb (bool_decide (neighbor c d ∈ cells region))
       then 1 else 0) directions)); [lia|].
  intros p c. apply foldl_accumulate. intros p' d. unfold exposed.
  change (coordinateKey (cell_x c + d.1) (cell_y c + d.2)) with (keyOf (neighbor c d)).
  rewrite has_cellKey.
  change (inBounds inp (cell_x c + d.1) (cell_y c + d.2))
    with (inBounds inp (cell_x (neighbor c d)) (cell_y (neighbor c d))).
  destruct (_ || _); lia.
Qed.

Section SameCells.
Context {A : Type} (adj : relation A) (S S' : list A).
Hypothesis same : ∀ x, x ∈ S ↔ x ∈ S'.

Lemma componentCount_same n : componentCount adj S n → componentCount adj S' n.
Proof.
  intros (reps & (Hnd & Hin & Hsep & Hcov) & ->). exists reps. split; [|done].
  split_and!; [done| | |].
  - intros r Hr. by apply same, Hin.
  - intros r1 r2 H1 H2 Hconn. apply Hsep; [done..|].
    eapply connectedIn_mono; [|done]. intros x. apply same.
  - intros a Ha. destruct (Hcov a) as (r & Hr & Hconn); [by apply same|].
    exists r. split; [done|]. eapply connectedIn_mono; [|done]. intros x. apply same.
Qed.

End SameCells.

Lemma boundaryCells_same o r r' :
  (∀ c, c ∈ cells r ↔ c ∈ cells r') →
  ∀ c, c ∈ boundaryCells o r ↔ c ∈ boundaryCells o r'.
Proof. intros Hsame c. rewrite !elem_of_boundaryCells, !Hsame. done. Qed.

(** X11.  Listing the cells of a region in another order changes neither
    its perimeter nor its side count. *)
Theorem cell_order_irrelevant (inp : Parsed) (r r' : Region) (fuel : nat) :
  cells r ≡ₚ cells r' →
  (2 * length (cells r) ≤ fuel)%nat →
  computePerimeter inp r = computePerimeter inp r' ∧
  ∃ sides, computeSides fuel r = Some sides ∧ computeSides fuel r' = Some sides.
Proof.
  intros Hperm Hfuel.
  assert (∀ c, c ∈ cells r ↔ c ∈ cells r') as Hsame by (intros c; by rewrite Hperm).
  split.
  - rewrite !computePerimeter_sum, <- (sumZ_Permutation _ _ _ Hperm).
    apply sumZ_ext. intros c _. apply sumZ_ext. intros d _.
    by rewrite (bool_decide_ext _ _ (Hsame (neighbor c d))).
  - destruct (computeSides_spec fuel r Hfuel) as (l & r0 & t & b & Hs & Hl & Hr & Ht & Hb).
    destruct (computeSides_spec fuel r') as (l' & r0' & t' & b' & Hs' & Hl' & Hr' & Ht' & Hb').
    { by rewrite <- Hperm. }
    exists (l + r0 + t + b). split; [done|]. rewrite Hs'.
    assert (∀ o n n', sidesOf o r n → sidesOf o r' n' → n' = n) as Huniq.
    { intros o n n' Hn Hn'. eapply componentCount_unique; [done|].
      eapply componentCount_same; [|done]. by apply boundaryCells_same. }
    rewrite (Huniq _ _ _ Hl Hl'), (Huniq _ _ _ Hr Hr'),
      (Huniq _ _ _ Ht Ht'), (Huniq _ _ _ Hb Hb'). done.
Qed.

Lemma cell_order_irrelevant_witness :
  computePerimeter (gridInput exampleGrid) regionC
  = computePerimeter (gridInput exampleGrid) regionCswapped ∧
  ∃ sides, computeSides 8 regionC = Some sides ∧ computeSides 8 regionCswapped = Some sides.
Proof.
  apply (cell_order_irrelevant (gridInput exampleGrid) regionC regionCswapped 8);
    [apply perm_swap|simpl; lia].
Defined.

(** ** Grouping along the right and the wrong axis *)

Lemma run_isolated isVertical k lo len (S : list Cell) a b :
  isRun isVertical k lo len S →
  connectedIn (sideAdjacent (negb isVertical)) S a b → a = b.
Proof.
  intros Hrun. unfold connectedIn, rtsc. revert b.
  apply (rtc_ind_r (λ b, a = b)); [done|].
  intros y z _ Hstep _. exfalso.
  assert (∀ u v, u ∈ S → v ∈ S → ¬ sideAdjacent (negb isVertical) u v) as Hno.
  { intros u v [Hu _]%Hrun [Hv _]%Hrun.
    unfold sideAdjacent, fixedCoordinate in *. destruct isVertical; simpl; lia. }
  destruct Hstep as [(Hu & Hv & Hadj)|(Hu & Hv & Hadj)]; exact (Hno _ _ Hu Hv Hadj).
Qed.

Lemma run_components_across isVertical k lo len (S : list Cell) :
  NoDup S → isRun isVertical k lo len S →
  componentCount (sideAdjacent (negb isVertical)) S (Z.of_nat (length S)).
Proof.
  intros Hnd Hrun. exists S. split; [|done]. split_and!; [done..| |].
  - intros r1 r2 _ _. by apply (run_isolated isVertical k lo len).
  - intros a Ha. exists a. split; [done|]. apply connectedIn_refl.
Qed.

(** X12.  [groupEdgeSegments] on one straight run of [len] distinct cells
    returns 1 when told the axis of the run, and [len], every cell a side
    of its own, when told the other axis. *)
Theorem run_grouped_by_axis (isVertical : bool) (k lo len : Z) (S : list Cell) (fuel : nat) :
  NoDup S → isRun isVertical k lo len S → 0 < len →
  (2 * length S ≤ fuel)%nat →
  groupEdgeSegments fuel (map keyOf S) isVertical = Some 1 ∧
  groupEdgeSegments fuel (map keyOf S) (negb isVertical) = Some len.
Proof.
  intros Hnd Hrun Hlen Hfuel. split.
  - destruct (groupEdgeSegments_spec S isVertical fuel Hfuel) as (n & -> & Hn).
    f_equal. eapply componentCount_unique; [done|]. by eapply run_components.
  - destruct (groupEdgeSegments_spec S (negb isVertical) fuel Hfuel) as (n & -> & Hn).
    f_equal. rewrite (componentCount_unique _ _ _ _ Hn (run_components_across _ _ _ _ _ Hnd Hrun)).
    rewrite (run_length _ _ _ _ _ Hnd Hrun). lia.
Qed.

Lemma run_grouped_by_axis_witness :
  groupEdgeSegments 4 (map keyOf leftRunB) true = Some 1 ∧
  groupEdgeSegments 4 (map keyOf leftRunB) (negb true) = Some 2.
Proof.
  apply (run_grouped_by_axis true 0 1 2 leftRunB 4); [compute_done| |lia|simpl; lia].
  intros [x y]. unfold leftRunB, fixedCoordinate, along. simpl.
  rewrite !elem_of_cons, !cell_eq, elem_of_nil. lia.
Defined.

(** ** Parsing *)

Lemma split_nonempty sep s : split sep s ≠ [].
Proof. destruct s as [|a s]; simpl; [done|]. destruct (Ascii.eqb a sep), (split sep s); done. Qed.

Lemma hasChar_string_of_list a (l : list ascii) :
  hasChar a (string_of_list_ascii l) = false ↔ a ∉ l.
Proof.
  induction l as [|b l IH]; simpl.
  - split; [intros _ ?%elem_of_nil; done|done].
  - rewrite orb_false_iff, IH, not_elem_of_cons.
    destruct (Ascii.eqb_spec b a); split; intros [? ?]; split; congruence || done.
Qed.

Lemma split_joinLines (lines : list string) :
  lines ≠ [] → (∀ line, line ∈ lines → hasChar newline line = false) →
  split newline (joinLines lines) = lines.
Proof.
  induction lines as [|line lines IH]; [done|]. intros _ Hno.
  destruct lines as [|line' lines].
  - simpl. apply split_without, Hno. by left.
  - change (joinLines (line :: line' :: lines))
      with (line +:+ String newline (joinLines (line' :: lines))).
    rewrite split_append by (apply Hno; by left).
    rewrite IH; [done..|]. intros; apply Hno; by right.
Qed.

(** X13.  Parsing reads a grid back from its text: for a grid with at
    least one row, no newline inside a row and no white space at either
    end of the text, [parseInput] of the rows joined by newlines is the
    grid with its height and the width of its first row. *)
Theorem parse_round_trip (g : list (list ascii)) :
  g ≠ [] → (∀ row, row ∈ g → newline ∉ row) →
  trim (gridText g) = gridText g →
  parseInput (gridText g) = gridInput g.
Proof.
  intros Hne Hno Htrim. unfold parseInput. rewrite Htrim. unfold gridText.
  fold newline. rewrite split_joinLines.
  - f_equal. change (map list_ascii_of_string (string_of_list_ascii <$> g))
      with (list_ascii_of_string <$> (string_of_list_ascii <$> g)).
    rewrite <- list_fmap_compose. rewrite <- (list_fmap_id g) at 2.
    apply list_fmap_ext. intros _ row _. simpl. apply list_ascii_of_string_of_list_ascii.
  - by destruct g.
  - intros line (row & -> & Hrow)%list_elem_of_fmap.
    apply hasChar_string_of_list. by apply Hno.
Qed.

Lemma parse_round_trip_witness : parseInput (gridText exampleGrid) = gridInput exampleGrid.
Proof.
  apply (parse_round_trip exampleGrid); [done| |reflexivity].
  apply Forall_forall. compute_done.
Defined.

Lemma list_ascii_of_string_app (s t : string) :
  list_ascii_of_string (s +:+ t) = list_ascii_of_string s ++ list_ascii_of_string t.
Proof. induction s as [|a s IH]; simpl; [done|]. by rewrite IH. Qed.

Lemma trimStart_snoc (l : list ascii) (a : ascii) :
  isWhiteSpace a = true →
  trimStart (rev (trimStart (l ++ [a]))) = trimStart (rev (trimStart l)).
Proof.
  intros Ha. induction l as [|b l IH]; simpl.
  - by rewrite Ha.
  - destruct (isWhiteSpace b) eqn:Hb; [done|].
    change (b :: l ++ [a]) with ((b :: l) ++ [a]).
    rewrite rev_app_distr. simpl. by rewrite Ha.
Qed.

(** X14.  A white-space character (a newline, a space, a tab) in front of
    the text or after it does not change what [parseInput] returns. *)
Theorem parse_ignores_outer_space (text : string) (a : ascii) :
  isWhiteSpace a = true →
  parseInput (text +:+ String a EmptyString) = parseInput text ∧
  parseInput (String a text) = parseInput text.
Proof.
  intros Ha. unfold parseInput, trim. split.
  - rewrite list_ascii_of_string_app. simpl. by rewrite trimStart_snoc.
  - simpl. by rewrite Ha.
Qed.

Lemma parse_ignores_outer_space_witness :
  parseInput (exampleText +:+ String newline EmptyString) = parseInput exampleText ∧
  parseInput (String newline exampleText) = parseInput exampleText.
Proof. apply (parse_ignores_outer_space exampleText newline). reflexivity. Defined.

(** X15.  [parseInput] never returns a grid without rows: the height is
    at least 1 and the width is the length of the row [grid[0]], which
    exists, so reading [grid[0].length] cannot fail. *)
Theorem parse_has_first_row (text : string) :
  ∃ row rest,
    grid (parseInput text) = row :: rest ∧
    height (parseInput text) = Z.of_nat (S (length rest)) ∧
    width (parseInput text) = Z.of_nat (length row).
Proof.
  unfold parseInput.
  destruct (split "010" (trim text)) as [|line lines] eqn:E;
    [by apply split_nonempty in E|].
  simpl. by eexists _, _.
Qed.

(** ** Union by size *)

Lemma sizesRight_fresh (elements : list string) : sizesRight (createUnionFind elements).
Proof.
  destruct (createUnionFind_spec elements) as (_ & Hp & Hs).
  destruct (createUnionFind_inv elements) as [_ Hroot].
  intros r Hr. exists {[r]}. split.
  - intros x. rewrite elem_of_singleton. split.
    + intros ->. by apply rootOf_here.
    + apply Hroot.
  - rewrite size_singleton, Hs. rewrite Hp in Hr. by case_decide.
Qed.

Lemma link_rootOf_back parent h ra rb x s :
  closed parent → ranked h parent →
  parent !! ra = Some ra → parent !! rb = Some rb → ra ≠ rb →
  rootOf (<[ra := rb]> parent) x s →
  ∃ s0, rootOf parent x s0 ∧ s = if decide (s0 = ra) then rb else s0.
Proof.
  intros Hc Hr Ha Hb Hne Hx.
  destruct (rootOf_total parent h x Hc Hr) as [s0 Hs0].
  { apply rootOf_dom in Hx. rewrite lookup_insert in Hx. case_decide; subst; eauto. }
  exists s0. split; [done|].
  eapply rootOf_fun; [done|]. by apply link_rootOf.
Qed.

Lemma treeOf_disjoint parent ra rb (mA mB : gset string) :
  ra ≠ rb → treeOf parent ra mA → treeOf parent rb mB → mA ## mB.
Proof.
  intros Hne HA HB x Hx1%HA Hx2%HB. apply Hne. by eapply rootOf_fun.
Qed.

Lemma link_sizes (parent : gmap string string) (sizes : gmap string Z) h ra rb sa sb :
  closed parent → ranked h parent →
  parent !! ra = Some ra → parent !! rb = Some rb → ra ≠ rb →
  sizes !! ra = Some sa → sizes !! rb = Some sb →
  sizesRight {| uf_elements := []; uf_parent := parent; uf_size := sizes |} →
  ∀ r, <[ra := rb]> parent !! r = Some r →
       ∃ members, treeOf (<[ra := rb]> parent) r members ∧
                  <[rb := sb + sa]> sizes !! r = Some (Z.of_nat (size members)).
Proof.
  intros Hc Hr Ha Hb Hne Hsa Hsb Hsizes r Hroot.
  assert (r ≠ ra) as Hra.
  { intros ->. rewrite lookup_insert_eq in Hroot. congruence. }
  rewrite lookup_insert_ne in Hroot by done.
  destruct (Hsizes r Hroot) as (m & Hm & Hsz). simpl in *.
  destruct (decide (r = rb)) as [->|Hrb].
  - destruct (Hsizes ra Ha) as (mA & HmA & HszA). simpl in *.
    exists (mA ∪ m). split.
    + intros x. rewrite elem_of_union, (HmA x), (Hm x). split.
      * intros [Hx|Hx].
        -- pose proof (link_rootOf parent ra rb x ra Ha Hb Hne Hx) as H.
           by rewrite decide_True in H.
        -- pose proof (link_rootOf parent ra rb x rb Ha Hb Hne Hx) as H.
           by rewrite decide_False in H.
      * intros Hx.
        destruct (link_rootOf_back parent h ra rb x rb Hc Hr Ha Hb Hne Hx) as (s0 & Hs0 & E).
        case_decide; subst; auto.
    + rewrite lookup_insert_eq. f_equal.
      rewrite size_union by exact (treeOf_disjoint parent ra rb mA m Hne HmA Hm).
      assert (sa = Z.of_nat (size mA)) by congruence.
      assert (sb = Z.of_nat (size m)) by congruence. lia.
  - exists m. split.
    + intros x. rewrite (Hm x). split.
      * intros Hx. pose proof (link_rootOf parent ra rb x r Ha Hb Hne Hx) as H.
        by rewrite decide_False in H.
      * intros Hx.
        destruct (link_rootOf_back parent h ra rb x r Hc Hr Ha Hb Hne Hx) as (s0 & Hs0 & E).
        case_decide; subst; done.
    + by rewrite lookup_insert_ne.
Qed.

(** X16.  [union] keeps the size table right: if before the call the
    table holds for every root the number of keys below it, it does so
    after the call.  It holds right after [createUnionFind]. *)
Theorem union_keeps_sizes (bound fuel : nat) (uf : UnionFind) (a b : string) :
  ufInv bound uf → (bound ≤ fuel)%nat →
  is_Some (uf_parent uf !! a) → is_Some (uf_parent uf !! b) →
  sizesRight uf →
  ∃ uf', union fuel uf a b = Some uf' ∧ sizesRight uf'.
Proof.
  intros [[Hc (h & Hr & Hb)] Hsz] Hfuel Ha Hbd Hsizes.
  destruct (find_sameRoot h (uf_parent uf) fuel a Hc Hr Ha)
    as (ra & p1 & Hf1 & Hra & Hc1 & Hr1 & Hdom1 & Heq1).
  { specialize (Hb a). lia. }
  destruct (find_sameRoot h p1 fuel b Hc1 Hr1)
    as (rb & p2 & Hf2 & Hrb & Hc2 & Hr2 & Hdom2 & Heq2).
  { by apply Hdom1. }
  { specialize (Hb b). lia. }
  assert (∀ x s, rootOf p2 x s ↔ rootOf (uf_parent uf) x s) as Heq.
  { intros x s. by rewrite Heq2, Heq1. }
  assert (∀ r, p2 !! r = Some r → uf_parent uf !! r = Some r) as Hroots.
  { intros r Hroot. eapply rootOf_is_root. apply Heq. by apply rootOf_here. }
  assert (sizesRight {| uf_elements := []; uf_parent := p2; uf_size := uf_size uf |}) as Hsizes2.
  { intros r Hroot. simpl in *. destruct (Hsizes r (Hroots r Hroot)) as (m & Hm & Hs).
    exists m. split; [|done]. intros x. rewrite (Hm x). symmetry. apply Heq. }
  assert (p2 !! ra = Some ra) as Hpa.
  { eapply rootOf_is_root. apply Heq. exact Hra. }
  assert (p2 !! rb = Some rb) as Hpb.
  { eapply rootOf_is_root. apply Heq2. exact Hrb. }
  unfold union. rewrite Hf1. simpl. rewrite Hf2. simpl.
  destruct (decide (ra = rb)) as [<-|Hne].
  { eexists. split; [done|]. intros r Hroot. exact (Hsizes2 r Hroot). }
  destruct (Hsz ra) as [sa Hsa]; [rewrite (Hroots ra Hpa); eauto|].
  destruct (Hsz rb) as [sb Hsb]; [rewrite (Hroots rb Hpb); eauto|].
  rewrite Hsa, Hsb. simpl. case_bool_decide.
  - eexists. split; [done|]. intros r. simpl.
    by apply (link_sizes p2 (uf_size uf) h ra rb sa sb).
  - eexists. split; [done|]. intros r. simpl.
    by apply (link_sizes p2 (uf_size uf) h rb ra sb sa).
Qed.

Lemma union_keeps_sizes_witness :
  ∃ uf', union 0 (createUnionFind ["a"; "b"]) "a" "b" = Some uf' ∧ sizesRight uf'.
Proof.
  apply (union_keeps_sizes 0 0 (createUnionFind ["a"; "b"]) "a" "b");
    [apply createUnionFind_inv|lia|by eexists|by eexists|apply sizesRight_fresh].
Defined.

(** * The trail script: trailheads and path counts *)

Lemma isInBounds_spec inp r c :
  Trail.isInBounds inp r c = true ↔ 0 ≤ r < Trail.rows inp ∧ 0 ≤ c < Trail.cols inp.
Proof.
  unfold Trail.isInBounds. rewrite !andb_true_iff, !bool_decide_eq_true. lia.
Qed.

Lemma isNumber_spec a k : Trail.isNumber a k = true ↔ a = Some k.
Proof.
  destruct a as [z|]; simpl; [|done]. rewrite bool_decide_eq_true.
  split; [by intros ->|by intros [= ->]].
Qed.

Lemma isNext_spec a b :
  Trail.isNext a b = true ↔ ∃ h, a = Some h ∧ b = Some (h + 1).
Proof.
  destruct a as [z|]; simpl.
  - rewrite isNumber_spec. split; [by exists z|]. by intros (h & [= ->] & ->).
  - split; [done|]. by intros (h & ? & _).
Qed.

Lemma NumberOfChar_digit a h : Trail.NumberOfChar a = Some h → 0 ≤ h ≤ 9.
Proof.
  unfold Trail.NumberOfChar. destruct (isWhiteSpace a); [intros [= <-]; lia|].
  destruct (_ && _) eqn:E; [|done]. intros [= <-].
  apply andb_true_iff in E as [E1%Nat.leb_le E2%Nat.leb_le]. lia.
Qed.

Lemma parse_digitHeights text : digitHeights (Trail.parseInput text).
Proof.
  intros r c h. unfold Trail.gridAt, Trail.parseInput, Trail.gridInput.
  cbn [Trail.grid]. intros H.
  apply bind_Some in H as (row & Hrow & H).
  change (map ?f ?l) with (f <$> l) in Hrow.
  apply list_lookup_fmap_Some in Hrow as (line & -> & _).
  destruct (_ !! Z.to_nat c) as [x|] eqn:E; [|done]. simpl in H. subst x.
  change (map ?f ?l) with (f <$> l) in E.
  apply list_lookup_fmap_Some in E as (a & E & _).
  by eapply NumberOfChar_digit.
Qed.

(** ** [getTrailheads] *)

Lemma pushTrailhead_fold inp r (acc : list (Z * Z)) (cs : list Z) :
  foldl (Trail.pushTrailhead inp r) acc cs
  = acc ++ ((λ c, (r, c)) <$> filter (λ c, Trail.gridAt inp r c = Some 0) cs).
Proof.
  revert acc. induction cs as [|c cs IH]; intros acc; simpl.
  - by rewrite app_nil_r.
  - rewrite IH, filter_cons. unfold Trail.pushTrailhead.
    destruct (Trail.isNumber (Trail.gridAt inp r c) 0) eqn:E.
    + apply isNumber_spec in E. rewrite decide_True by done.
      by rewrite fmap_cons, <- app_assoc.
    + rewrite decide_False; [done|]. intros E'%isNumber_spec. congruence.
Qed.

Lemma getTrailheads_fold inp :
  Trail.getTrailheads inp
  = seqZ 0 (Trail.rows inp) ≫= λ r,
      (λ c, (r, c)) <$> filter (λ c, Trail.gridAt inp r c = Some 0) (seqZ 0 (Trail.cols inp)).
Proof.
  unfold Trail.getTrailheads.
  rewrite <- (app_nil_l (_ ≫= _)). generalize (@nil (Z * Z)).
  induction (seqZ 0 (Trail.rows inp)) as [|r rs IH]; intros acc; simpl.
  - by rewrite app_nil_r.
  - rewrite IH, pushTrailhead_fold. by rewrite <- app_assoc.
Qed.

Lemma elem_of_getTrailheads inp r c :
  (r, c) ∈ Trail.getTrailheads inp
  ↔ Trail.isInBounds inp r c = true ∧ Trail.gridAt inp r c = Some 0.
Proof.
  rewrite getTrailheads_fold, list_elem_of_bind, isInBounds_spec. split.
  - intros (r' & Hc & Hr). apply list_elem_of_fmap in Hc as (c' & [= <- <-] & Hc).
    apply list_elem_of_filter in Hc as [H0 Hc].
    apply elem_of_seqZ in Hc, Hr. split; [lia|done].
  - intros [Hb H0]. exists r. split.
    + apply list_elem_of_fmap. exists c. split; [done|].
      apply list_elem_of_filter. split; [done|]. apply elem_of_seqZ. lia.
    + apply elem_of_seqZ. lia.
Qed.

Lemma NoDup_getTrailheads inp : NoDup (Trail.getTrailheads inp).
Proof.
  rewrite getTrailheads_fold. apply NoDup_bind.
  - intros r r' p _ _ (c & -> & _)%list_elem_of_fmap (c' & [= -> _] & _)%list_elem_of_fmap.
    done.
  - intros r _. apply NoDup_fmap_2; [by intros ? ? [= ->]|].
    apply NoDup_filter, NoDup_seqZ.
  - apply NoDup_seqZ.
Qed.

(** X17.  [getTrailheads] returns each cell in bounds whose height is 0
    exactly once, and nothing else. *)
Theorem trailheads_exact inp :
  NoDup (Trail.getTrailheads inp) ∧
  ∀ r c, (r, c) ∈ Trail.getTrailheads inp
         ↔ Trail.isInBounds inp r c = true ∧ Trail.gridAt inp r c = Some 0.
Proof. split; [apply NoDup_getTrailheads|apply elem_of_getTrailheads]. Qed.

(** ** [countDistinctPaths] *)

Lemma sumZ_snoc {A : Type} (f : A → Z) (l : list A) (a : A) :
  sumZ f (l ++ [a]) = sumZ f l + f a.
Proof. induction l as [|b l IH]; simpl; [lia|]. rewrite IH. lia. Qed.

Lemma pathCount_S inp n r c :
  pathCount inp (S n) r c
  = if Trail.isNumber (Trail.gridAt inp r c) 9 then 1
    else sumZ (λ d,
                 if Trail.isInBounds inp (r + d.1) (c + d.2)
                    && Trail.isNext (Trail.gridAt inp r c)
                         (Trail.gridAt inp (r + d.1) (c + d.2))
                 then pathCount inp n (r + d.1) (c + d.2)
                 else 0)
           Trail.directions.
Proof. reflexivity. Qed.

Lemma pathCount_deeper inp n r c :
  digitHeights inp → (climbsLeft inp r c ≤ n)%nat →
  pathCount inp n r c = pathCount inp (S n) r c.
Proof.
  intros Hd. revert r c. induction n as [|n IH]; intros r c Hn.
  - unfold climbsLeft in Hn. rewrite pathCount_S. cbn [pathCount].
    destruct (Trail.gridAt inp r c) as [h|] eqn:E.
    + pose proof (Hd _ _ _ E). assert (h = 9) as -> by lia.
      by rewrite (proj2 (isNumber_spec (Some 9) 9)).
    + cbn [Trail.isNumber Trail.isNext]. symmetry.
      etrans; [|apply (sumZ_const 0 Trail.directions)].
      apply sumZ_ext. intros d _. by rewrite andb_false_r.
  - rewrite (pathCount_S inp (S n)), (pathCount_S inp n).
    destruct (Trail.isNumber _ 9) eqn:E9; [done|].
    apply sumZ_ext. intros d _.
    destruct (Trail.isInBounds inp (r + d.1) (c + d.2) && _) eqn:Ec; [|done].
    apply andb_true_iff in Ec as [_ (h & Eh & Eh')%isNext_spec].
    apply IH. unfold climbsLeft in *. rewrite Eh in Hn. rewrite Eh'.
    pose proof (Hd _ _ _ Eh'). lia.
Qed.

Lemma paths_unfold inp r c :
  digitHeights inp →
  paths inp r c
  = if Trail.isNumber (Trail.gridAt inp r c) 9 then 1
    else sumZ (λ d,
                 if Trail.isInBounds inp (r + d.1) (c + d.2)
                    && Trail.isNext (Trail.gridAt inp r c)
                         (Trail.gridAt inp (r + d.1) (c + d.2))
                 then paths inp (r + d.1) (c + d.2)
                 else 0)
           Trail.directions.
Proof.
  intros Hd. unfold paths. change (pathCount inp 9 r c) with (pathCount inp (S 8) r c).
  rewrite pathCount_S. destruct (Trail.isNumber _ 9) eqn:E9; [done|].
  apply sumZ_ext. intros d _.
  destruct (Trail.isInBounds inp (r + d.1) (c + d.2) && _) eqn:Ec; [|done].
  apply andb_true_iff in Ec as [_ (h & Eh & Eh')%isNext_spec].
  apply pathCount_deeper; [done|]. unfold climbsLeft. rewrite Eh'.
  pose proof (Hd _ _ _ Eh). pose proof (Hd _ _ _ Eh'). lia.
Qed.

Lemma countDistinctPaths_unfold inp fuel memo r c :
  Trail.countDistinctPaths inp (S fuel) memo r c
  = match memo !! Trail.coordinateKey r c with
    | Some known => Some (known, memo)
    | None =>
        if Trail.isNumber (Trail.gridAt inp r c) 9
        then Some (1, <[Trail.coordinateKey r c := 1]> memo)
        else
          '(total, memo) ←
            forEachM
              (λ '(total, memo) d,
                 if negb (Trail.isInBounds inp (r + d.1) (c + d.2)) then Some (total, memo)
                 else if Trail.isNext (Trail.gridAt inp r c)
                           (Trail.gridAt inp (r + d.1) (c + d.2)) then
                   '(paths, memo) ←
                     Trail.countDistinctPaths inp fuel memo (r + d.1) (c + d.2);
                   Some (total + paths, memo)
                 else Some (total, memo))
              (0, memo) Trail.directions;
          Some (total, <[Trail.coordinateKey r c := total]> memo)
    end.
Proof. reflexivity. Qed.

Lemma memoRight_insert inp memo r c v :
  memoRight inp memo → v = paths inp r c →
  memoRight inp (<[Trail.coordinateKey r c := v]> memo).
Proof.
  intros Hm -> r' c' v'. destruct (decide (Trail.coordinateKey r c = Trail.coordinateKey r' c')) as [E|E].
  - rewrite <- E, lookup_insert_eq. intros [= <-].
    apply coordinateKey_inj in E as [-> ->]. done.
  - rewrite lookup_insert_ne by done. apply Hm.
Qed.

Lemma memo_insert_fresh (memo memo1 : gmap string Z) key v :
  memo !! key = None → memo ⊆ memo1 → memo ⊆ <[key := v]> memo1.
Proof.
  intros Hk Hsub. apply map_subseteq_spec. intros i x Hi.
  destruct (decide (key = i)) as [->|E]; [congruence|].
  rewrite lookup_insert_ne by done.
  by eapply (proj1 (map_subseteq_spec memo memo1)).
Qed.

Lemma countDistinctPaths_spec inp fuel memo r c :
  digitHeights inp → memoRight inp memo →
  (climbsLeft inp r c ≤ fuel)%nat →
  (Trail.gridAt inp r c = None → (1 ≤ fuel)%nat) →
  ∃ memo', Trail.countDistinctPaths inp fuel memo r c = Some (paths inp r c, memo')
           ∧ memoRight inp memo' ∧ memo ⊆ memo'.
Proof.
  intros Hd. revert memo r c. induction fuel as [|fuel IH]; intros memo r c Hm Hf Hnone.
  - cbn [Trail.countDistinctPaths].
    destruct (memo !! _) as [known|] eqn:Ek.
    { exists memo. by rewrite (Hm _ _ _ Ek). }
    unfold climbsLeft in Hf.
    destruct (Trail.gridAt inp r c) as [h|] eqn:E; [|specialize (Hnone eq_refl); lia].
    pose proof (Hd _ _ _ E). assert (h = 9) as -> by lia.
    rewrite (proj2 (isNumber_spec (Some 9) 9)) by done.
    assert (paths inp r c = 1) as E1.
    { rewrite paths_unfold, E by done. by rewrite (proj2 (isNumber_spec (Some 9) 9)). }
    rewrite E1. eexists. split; [done|]. split.
    + by apply memoRight_insert.
    + apply memo_insert_fresh; [done|]. done.
  - rewrite countDistinctPaths_unfold.
    destruct (memo !! _) as [known|] eqn:Ek.
    { exists memo. by rewrite (Hm _ _ _ Ek). }
    rewrite (paths_unfold inp r c Hd).
    destruct (Trail.isNumber _ 9) eqn:E9.
    { eexists. split; [done|]. split.
      - apply memoRight_insert; [done|]. by rewrite paths_unfold, E9.
      - by apply memo_insert_fresh. }
    set (term := λ d : Z * Z,
           if Trail.isInBounds inp (r + d.1) (c + d.2)
              && Trail.isNext (Trail.gridAt inp r c) (Trail.gridAt inp (r + d.1) (c + d.2))
           then paths inp (r + d.1) (c + d.2) else 0).
    edestruct (forEachM_invariant
                 (λ '(total, memo) d,
                    if negb (Trail.isInBounds inp (r + d.1) (c + d.2)) then Some (total, memo)
                    else if Trail.isNext (Trail.gridAt inp r c)
                              (Trail.gridAt inp (r + d.1) (c + d.2)) then
                      '(paths, memo) ←
                        Trail.countDistinctPaths inp fuel memo (r + d.1) (c + d.2);
                      Some (total + paths, memo)
                    else Some (total, memo))
                 (λ done (a : Z * gmap string Z),
                    a.1 = sumZ term done ∧ memoRight inp a.2 ∧ memo ⊆ a.2)
                 Trail.directions [] (0, memo)) as ([total memo1] & Hrun & Ht & Hm1 & Hsub).
    { done. }
    { intros done d [t m] _ (Ht & Hm' & Hsub'). simpl in Ht, Hm', Hsub'.
      pose proof (sumZ_snoc term done d) as Esum.
      unfold term in Esum at 3.
      destruct (Trail.isInBounds inp (r + d.1) (c + d.2)) eqn:Eb;
        cbn [andb negb] in Esum |- *.
      2:{ exists (t, m). simpl. split; [done|]. split; [lia|done]. }
      destruct (Trail.isNext _ _) eqn:En.
      2:{ exists (t, m). simpl. split; [done|]. split; [lia|done]. }
      apply isNext_spec in En as (h & Eh & Eh').
      destruct (IH m (r + d.1) (c + d.2) Hm') as (m' & Hrec & Hm'' & Hsub'').
      { unfold climbsLeft in *. rewrite Eh in Hf. rewrite Eh'.
        pose proof (Hd _ _ _ Eh'). lia. }
      { by rewrite Eh'. }
      rewrite Hrec. simpl. eexists. split; [done|]. simpl.
      split; [lia|]. split; [done|]. by etrans. }
    simpl in Ht, Hm1, Hsub. rewrite Hrun. simpl. subst total.
    fold term. eexists. split; [done|]. split.
    + apply memoRight_insert; [done|]. by rewrite paths_unfold, E9.
    + by apply memo_insert_fresh.
Qed.

Lemma climbsLeft_le inp r c : digitHeights inp → (climbsLeft inp r c ≤ 9)%nat.
Proof.
  intros Hd. unfold climbsLeft. destruct (Trail.gridAt inp r c) as [h|] eqn:E; [|lia].
  pose proof (Hd _ _ _ E). lia.
Qed.



Lemma part2_spec inp (fuel : nat) :
  digitHeights inp → (9 ≤ fuel)%nat →
  Trail.part2 inp fuel
  = Some (sumZ (λ p, paths inp p.1 p.2) (Trail.getTrailheads inp)).
Proof.
  intros Hd Hf. unfold Trail.part2.
  edestruct (forEachM_invariant
               (λ '(sum, memo) '(r, c),
                  '(paths, memo) ← Trail.countDistinctPaths inp fuel memo r c;
                  Some (sum + paths, memo))
               (λ done (a : Z * gmap string Z),
                  a.1 = sumZ (λ p, paths inp p.1 p.2) done ∧ memoRight inp a.2)
               (Trail.getTrailheads inp) [] (0, ∅)) as ([sum memo] & Hrun & Hs & _).
  { split; [done|]. intros r c v H. simpl in H. by rewrite lookup_empty in H. }
  { intros done [r c] [s m] _ [Hs Hm]. simpl in Hs, Hm.
    destruct (countDistinctPaths_spec inp fuel m r c Hd Hm) as (m' & Hrec & Hm' & _).
    { pose proof (climbsLeft_le _ r c Hd). lia. }
    { lia. }
    rewrite Hrec. simpl. eexists. split; [done|]. simpl. split; [|done].
    rewrite sumZ_snoc. simpl. lia. }
  simpl in Hs. rewrite Hrun. simpl. by rewrite Hs.
Qed.

(** * The trail script: the search for reachable peaks *)

Lemma trailKey_inj p q : trailKey p = trailKey q → p = q.
Proof.
  destruct p, q. unfold trailKey, Trail.coordinateKey. simpl.
  by intros [-> ->]%coordinateKey_inj.
Qed.

Lemma elem_of_trailKeys p (l : list (Z * Z)) :
  trailKey p ∈ (list_to_set (trailKey <$> l) : gset string) ↔ p ∈ l.
Proof.
  rewrite elem_of_list_to_set, list_elem_of_fmap. split.
  - by intros (q & ->%trailKey_inj & Hq).
  - intros Hp. by exists p.
Qed.

Lemma seen_length inp (l : list (Z * Z)) :
  NoDup l → (∀ p, p ∈ l → Trail.isInBounds inp p.1 p.2 = true) →
  (length l ≤ searchFuel inp)%nat.
Proof.
  intros Hnd Hin. rewrite <- (length_fmap trailCell). apply inBounds_length.
  - apply NoDup_fmap_2; [|done]. intros [r c] [r' c'] [= -> ->]. done.
  - intros x (p & -> & Hp)%list_elem_of_fmap. specialize (Hin p Hp).
    apply isInBounds_spec in Hin. unfold cellInBounds. apply inBounds_spec.
    simpl. lia.
Qed.

Lemma foldl_invariant_elem {A B : Type} (f : A → B → A) (I : list B → A → Prop)
    (l pre : list B) (a : A) :
  I pre a → (∀ done b a, b ∈ l → I done a → I (done ++ [b]) (f a b)) →
  I (pre ++ l) (foldl f a l).
Proof.
  revert pre a. induction l as [|b l IH]; intros pre a Ha Hstep.
  - by rewrite app_nil_r.
  - simpl. rewrite (cons_middle b pre l), app_assoc. apply IH.
    + apply Hstep; [by left|done].
    + intros done b' a' Hb'. apply Hstep. by right.
Qed.

Section Search.

Variable inp : Trail.Parsed.
Variable start : Z * Z.

(** One direction of the loop from the cell [a]. *)
Lemma visitStep_spec processed a ds d st :
  d ∈ Trail.directions →
  Trail.isNumber (Trail.gridAt inp a.1 a.2) 9 = false →
  visitInv inp start processed a ds st →
  visitInv inp start processed a (ds ++ [d])
    (Trail.visitStep inp (Trail.gridAt inp a.1 a.2) a.1 a.2 st d).
Proof.
  intros Hd H9 ((Hvis & Hnd & Hstart & Hprops) & Hclosed & Hdone & Hnines).
  unfold Trail.visitStep.
  set (b := (a.1 + d.1, a.2 + d.2)).
  change (a.1 + d.1) with b.1. change (a.2 + d.2) with b.2.
  fold (trailKey b).
  destruct (Trail.isInBounds inp b.1 b.2) eqn:Hin; simpl.
  2:{ split; [done|]. split; [done|]. split; [|done].
      intros d' [Hd'| ->%list_elem_of_singleton]%elem_of_app; [by apply Hdone|].
      change (a.1 + d.1) with b.1. change (a.2 + d.2) with b.2. congruence. }
  destruct (Trail.isNext _ _) eqn:Hnext; simpl.
  2:{ split; [done|]. split; [done|]. split; [|done].
      intros d' [Hd'| ->%list_elem_of_singleton]%elem_of_app; [by apply Hdone|].
      intros _ ?. congruence. }
  case_bool_decide as Hseen; simpl.
  { split; [done|]. split; [done|]. split; [|done].
    intros d' [Hd'| ->%list_elem_of_singleton]%elem_of_app; [by apply Hdone|].
    intros _ _. fold b. rewrite Hvis in Hseen. by apply elem_of_trailKeys in Hseen. }
  assert (b ∉ (processed ++ [a]) ++ Trail.queue st) as Hfresh.
  { intros Hb. apply Hseen. rewrite Hvis. by apply elem_of_trailKeys. }
  assert (a ∈ (processed ++ [a]) ++ Trail.queue st) as Ha.
  { rewrite !elem_of_app, list_elem_of_singleton. auto. }
  assert (∀ x, x ∈ (processed ++ [a]) ++ Trail.queue st
               → x ∈ (processed ++ [a]) ++ Trail.queue st ++ [b]) as Hsub.
  { intros x. rewrite !elem_of_app. tauto. }
  split; [|split; [|split]]; simpl.
  - split; [|split; [|split]]; simpl.
    + rewrite Hvis, app_assoc, (fmap_app _ _ [b]), list_to_set_app_L. simpl.
      by rewrite (right_id_L ∅ (∪)), (comm_L (∪)).
    + rewrite app_assoc. apply NoDup_app. split_and!; [done| |apply NoDup_singleton].
      intros x Hx ->%list_elem_of_singleton. done.
    + by apply Hsub.
    + intros p. rewrite app_assoc.
      intros [Hp| ->%list_elem_of_singleton]%elem_of_app; [by apply Hprops|].
      split; [done|]. eapply rtc_r; [apply (Hprops a Ha)|].
      split; [done|]. split; [done|]. split; [done|]. by exists d.
  - intros a' b' Ha' Hc. by apply Hsub, (Hclosed a').
  - intros d' [Hd'| ->%list_elem_of_singleton]%elem_of_app.
    + intros ? ?. by apply Hsub, Hdone.
    + intros _ _. fold b. rewrite !elem_of_app. right. right.
      by apply list_elem_of_singleton.
  - done.
Qed.

(** The whole loop over the directions. *)
Lemma visitAll_spec processed a st :
  Trail.isNumber (Trail.gridAt inp a.1 a.2) 9 = false →
  visitInv inp start processed a [] st →
  visitInv inp start processed a Trail.directions
    (foldl (Trail.visitStep inp (Trail.gridAt inp a.1 a.2) a.1 a.2) st Trail.directions).
Proof.
  intros H9 Hinv.
  apply (foldl_invariant_elem _ (λ ds st, visitInv inp start processed a ds st)
           Trail.directions [] st Hinv).
  intros done d st' Hd Hst'. by apply visitStep_spec.
Qed.

Lemma search_unfold fuel st :
  Trail.search inp (S fuel) st
  = match Trail.queue st with
    | [] => Some st
    | (r, c) :: rest =>
        if Trail.isNumber (Trail.gridAt inp r c) 9 then
          Trail.search inp fuel
            {| Trail.visited := Trail.visited st; Trail.queue := rest;
               Trail.nines := {[Trail.coordinateKey r c]} ∪ Trail.nines st |}
        else
          Trail.search inp fuel
            (foldl (Trail.visitStep inp (Trail.gridAt inp r c) r c)
               {| Trail.visited := Trail.visited st; Trail.queue := rest;
                  Trail.nines := Trail.nines st |}
               Trail.directions)
    end.
Proof. destruct st as [v [|[r c] q] ns]; reflexivity. Qed.

(** With fuel for the cells not yet processed, the search ends with an
    empty queue and the invariant. *)
Lemma search_spec fuel processed st :
  searchInv inp start processed st →
  (searchFuel inp - length processed ≤ fuel)%nat →
  ∃ processed' st',
    Trail.search inp fuel st = Some st' ∧ Trail.queue st' = [] ∧
    searchInv inp start processed' st'.
Proof.
  revert processed st. induction fuel as [|fuel IH]; intros processed st Hinv Hfuel.
  - destruct Hinv as ((Hvis & Hnd & Hstart & Hprops) & Hclosed & Hnines).
    pose proof (seen_length inp _ Hnd (λ p Hp, proj1 (Hprops p Hp))) as Hlen.
    rewrite length_app in Hlen.
    destruct (Trail.queue st) as [|a rest] eqn:Eq.
    + exists processed, st. destruct st as [v q ns]. simpl in *. subst q.
      split; [done|]. split; [done|]. split; [|done]. split_and!; done.
    + simpl in Hlen. lia.
  - rewrite search_unfold.
    destruct (Trail.queue st) as [|[r c] rest] eqn:Eq.
    { exists processed, st. split; [done|]. split; [done|]. done. }
    destruct Hinv as ((Hvis & Hnd & Hstart & Hprops) & Hclosed & Hnines).
    rewrite Eq in *.
    pose proof (seen_length inp _ Hnd (λ p Hp, proj1 (Hprops p Hp))) as Hlen.
    rewrite length_app in Hlen. simpl in Hlen.
    assert (processed ++ (r, c) :: rest = (processed ++ [(r, c)]) ++ rest) as Eapp.
    { by rewrite <- app_assoc. }
    rewrite Eapp in Hvis, Hnd, Hstart, Hprops, Hclosed.
    destruct (Trail.isNumber (Trail.gridAt inp r c) 9) eqn:E9.
    + apply (IH (processed ++ [(r, c)])); [|rewrite length_app; simpl; lia].
      split; [|split]; simpl.
      * split_and!; done.
      * intros a b [Ha| ->%list_elem_of_singleton]%elem_of_app Hc.
        -- by apply (Hclosed a).
        -- destruct Hc as (Hc & _). simpl in Hc. congruence.
      * intros k. cbn [Trail.nines].
        rewrite elem_of_union, elem_of_singleton, (Hnines k). split.
        -- intros [->|(p & Hp & H9 & ->)].
           ++ exists (r, c). split; [|done]. apply elem_of_app. right. by left.
           ++ exists p. split; [|done]. apply elem_of_app. by left.
        -- intros (p & [Hp| ->%list_elem_of_singleton]%elem_of_app & H9 & ->).
           ++ right. by exists p.
           ++ by left.
    + apply (IH (processed ++ [(r, c)])); [|rewrite length_app; simpl; lia].
      pose proof (visitAll_spec processed (r, c)
                    {| Trail.visited := Trail.visited st; Trail.queue := rest;
                       Trail.nines := Trail.nines st |} E9) as Hall.
      simpl in Hall. destruct Hall as (Hseen & Hcl & Hdone & Hn).
      { split; [|split; [|split]]; simpl.
        - split_and!; done.
        - done.
        - intros d Hd. by apply elem_of_nil in Hd.
        - done. }
      split; [done|]. split.
      * intros a b [Ha| ->%list_elem_of_singleton]%elem_of_app Hc.
        -- by apply (Hcl a).
        -- destruct Hc as (_ & Hin & Hnext & d & Hd & ->). by apply Hdone.
      * intros k. rewrite (Hn k). split.
        -- intros (p & Hp & H9 & ->). exists p. split; [|done]. apply elem_of_app. by left.
        -- intros (p & [Hp| ->%list_elem_of_singleton]%elem_of_app & H9 & ->).
           ++ by exists p.
           ++ simpl in H9. congruence.
Qed.

(** Once the queue is empty, the processed cells are the cells that
    climbing steps reach from the start. *)
Lemma search_complete processed st p :
  searchInv inp start processed st → Trail.queue st = [] →
  p ∈ processed ↔ rtc (climb inp) start p.
Proof.
  intros ((Hvis & Hnd & Hstart & Hprops) & Hclosed & Hnines) Eq.
  rewrite Eq, app_nil_r in *. split.
  - intros Hp. by apply Hprops.
  - intros Hr. revert p Hr. apply (rtc_ind_r (λ p, p ∈ processed)); [done|].
    intros x y _ Hxy Hx. by apply (Hclosed x).
Qed.

End Search.

Lemma countReachableNines_spec inp (fuel : nat) r0 c0 :
  Trail.isInBounds inp r0 c0 = true → (searchFuel inp ≤ fuel)%nat →
  ∃ peaks : list (Z * Z),
    Trail.countReachableNines inp fuel r0 c0 = Some (Z.of_nat (length peaks)) ∧
    NoDup peaks ∧ ∀ p, p ∈ peaks ↔ reachablePeak inp (r0, c0) p.
Proof.
  intros Hin Hfuel.
  destruct (search_spec inp (r0, c0) fuel []
              {| Trail.visited := {[Trail.coordinateKey r0 c0]};
                 Trail.queue := [(r0, c0)]; Trail.nines := ∅ |})
    as (processed & st & Hrun & Eq & Hinv).
  { split; [|split]; simpl.
    - split_and!; simpl.
      + by rewrite (right_id_L ∅ (∪)).
      + apply NoDup_singleton.
      + by left.
      + intros p ->%list_elem_of_singleton. done.
    - intros a b Ha. by apply elem_of_nil in Ha.
    - intros k. split; [by intros ?%elem_of_empty|].
      intros (p & Hp & _). by apply elem_of_nil in Hp. }
  { simpl. lia. }
  pose proof (λ p, search_complete inp (r0, c0) processed st p Hinv Eq) as Hcomplete.
  destruct Hinv as ((Hvis & Hnd & Hstart & Hprops) & Hclosed & Hnines).
  rewrite Eq, app_nil_r in *.
  exists (filter (λ p, Trail.isNumber (Trail.gridAt inp p.1 p.2) 9 = true) processed).
  split; [|split].
  - unfold Trail.countReachableNines. rewrite Hrun. simpl. do 2 f_equal.
    assert (Trail.nines st
            = list_to_set (trailKey <$> filter (λ p, Trail.isNumber (Trail.gridAt inp p.1 p.2) 9 = true) processed)) as ->.
    { apply set_eq. intros k. rewrite (Hnines k), elem_of_list_to_set, list_elem_of_fmap.
      split.
      - intros (p & Hp & H9 & ->). exists p. split; [done|]. by apply list_elem_of_filter.
      - intros (p & -> & [H9 Hp]%list_elem_of_filter). by exists p. }
    rewrite size_list_to_set, length_fmap; [done|].
    apply NoDup_fmap_2; [intros ? ?; apply trailKey_inj|].
    by apply NoDup_filter.
  - by apply NoDup_filter.
  - intros p. rewrite list_elem_of_filter. unfold reachablePeak.
    rewrite <- (Hcomplete p). tauto.
Qed.

(** * The trail script: hiking trails *)

Lemma length_bind_sumZ {A B : Type} (f : A → list B) (l : list A) :
  Z.of_nat (length (l ≫= f)) = sumZ (λ x, Z.of_nat (length (f x))) l.
Proof.
  induction l as [|x l IH]; [done|].
  rewrite bind_cons, length_app. simpl sumZ. lia.
Qed.

Lemma trailsFrom_S inp n r c :
  trailsFrom inp (S n) r c
  = if Trail.isNumber (Trail.gridAt inp r c) 9 then [[(r, c)]]
    else
      Trail.directions ≫= λ d,
        if Trail.isInBounds inp (r + d.1) (c + d.2)
           && Trail.isNext (Trail.gridAt inp r c) (Trail.gridAt inp (r + d.1) (c + d.2))
        then ((r, c) ::.) <$> trailsFrom inp n (r + d.1) (c + d.2)
        else [].
Proof. reflexivity. Qed.

Lemma trailsFrom_O inp r c :
  trailsFrom inp O r c
  = if Trail.isNumber (Trail.gridAt inp r c) 9 then [[(r, c)]] else [].
Proof. reflexivity. Qed.

Lemma pathCount_O inp r c :
  pathCount inp O r c = if Trail.isNumber (Trail.gridAt inp r c) 9 then 1 else 0.
Proof. reflexivity. Qed.

(** The recursion without a table counts the listed trails. *)
Lemma length_trailsFrom inp n r c :
  Z.of_nat (length (trailsFrom inp n r c)) = pathCount inp n r c.
Proof.
  revert r c. induction n as [|n IH]; intros r c.
  - rewrite trailsFrom_O, pathCount_O. by destruct (Trail.isNumber _ 9).
  - rewrite trailsFrom_S, pathCount_S. destruct (Trail.isNumber _ 9); [done|].
    rewrite length_bind_sumZ. apply sumZ_ext. intros d _.
    destruct (_ && _); [|done]. by rewrite length_fmap, IH.
Qed.

Lemma trailsFrom_sound inp n r c p :
  p ∈ trailsFrom inp n r c → trailFrom inp (r, c) p.
Proof.
  revert r c p. induction n as [|n IH]; intros r c p.
  - rewrite trailsFrom_O. destruct (Trail.isNumber _ 9) eqn:E9.
    + intros ->%list_elem_of_singleton. by split.
    + by intros ?%elem_of_nil.
  - rewrite trailsFrom_S. destruct (Trail.isNumber _ 9) eqn:E9.
    + intros ->%list_elem_of_singleton. by split.
    + intros (d & Hp & Hd)%list_elem_of_bind.
      destruct (Trail.isInBounds inp (r + d.1) (c + d.2) && _) eqn:Ec;
        [|by apply elem_of_nil in Hp].
      apply andb_true_iff in Ec as [Hin Hnext].
      apply list_elem_of_fmap in Hp as (q & -> & Hq).
      apply IH in Hq as [Hhead Htrail].
      destruct q as [|b q]; [done|]. simpl in Hhead. injection Hhead as ->.
      split; [done|]. split; [|done].
      split; [done|]. split; [done|]. split; [done|]. by exists d.
Qed.

Lemma trailsFrom_complete inp n r c p :
  digitHeights inp → (climbsLeft inp r c ≤ n)%nat →
  trailFrom inp (r, c) p → p ∈ trailsFrom inp n r c.
Proof.
  intros Hd. revert r c p. induction n as [|n IH]; intros r c p Hn [Hhead Htrail].
  - destruct p as [|a q]; [done|]. simpl in Hhead. injection Hhead as ->.
    rewrite trailsFrom_O. destruct q as [|b q].
    + simpl in Htrail. rewrite Htrail. by left.
    + destruct Htrail as [(H9 & _ & (h & Eh & Eh')%isNext_spec & _) _].
      simpl in H9, Eh. unfold climbsLeft in Hn. rewrite Eh in Hn.
      pose proof (Hd _ _ _ Eh). rewrite Eh in H9. simpl in H9.
      apply bool_decide_eq_false in H9. lia.
  - destruct p as [|a q]; [done|]. simpl in Hhead. injection Hhead as ->.
    rewrite trailsFrom_S. destruct q as [|b q].
    + simpl in Htrail. rewrite Htrail. by left.
    + destruct Htrail as [(H9 & Hin & Hnext & d & Hdir & ->) Htrail].
      simpl in H9, Hin, Hnext. rewrite H9.
      apply list_elem_of_bind. exists d. split; [|done].
      rewrite Hin, Hnext. simpl. apply list_elem_of_fmap.
      eexists. split; [done|]. apply IH; [|by split].
      apply isNext_spec in Hnext as (h & Eh & Eh').
      unfold climbsLeft in *. rewrite Eh in Hn. rewrite Eh'.
      pose proof (Hd _ _ _ Eh'). lia.
Qed.

Lemma NoDup_trailsFrom inp n r c : NoDup (trailsFrom inp n r c).
Proof.
  revert r c. induction n as [|n IH]; intros r c.
  - rewrite trailsFrom_O. destruct (Trail.isNumber _ 9);
      [apply NoDup_singleton|apply NoDup_nil_2].
  - rewrite trailsFrom_S. destruct (Trail.isNumber _ 9); [apply NoDup_singleton|].
    apply NoDup_bind.
    + intros d1 d2 p _ _ H1 H2.
      destruct (Trail.isInBounds inp (r + d1.1) (c + d1.2) && _);
        [|by apply elem_of_nil in H1].
      destruct (Trail.isInBounds inp (r + d2.1) (c + d2.2) && _);
        [|by apply elem_of_nil in H2].
      apply list_elem_of_fmap in H1 as (q1 & -> & [H1 _]%trailsFrom_sound).
      apply list_elem_of_fmap in H2 as (q2 & [= <-] & [H2 _]%trailsFrom_sound).
      rewrite H1 in H2. destruct d1, d2. simpl in H2. injection H2 as ? ?.
      f_equal; lia.
    + intros d _. destruct (_ && _); [|apply NoDup_nil_2].
      apply NoDup_fmap_2; [by intros ? ? [= ->]|apply IH].
    + unfold Trail.directions. compute_done.
Qed.

(** What [paths] counts: the hiking trails from the cell. *)
Lemma paths_trails inp r c :
  digitHeights inp →
  ∃ trails : list (list (Z * Z)),
    NoDup trails ∧ (∀ p, p ∈ trails ↔ trailFrom inp (r, c) p) ∧
    paths inp r c = Z.of_nat (length trails).
Proof.
  intros Hd. exists (trailsFrom inp 9 r c). split; [apply NoDup_trailsFrom|]. split.
  - intros p. split; [apply trailsFrom_sound|].
    apply trailsFrom_complete; [done|]. by apply climbsLeft_le.
  - unfold paths. by rewrite length_trailsFrom.
Qed.



(** ** Scores and ratings *)

(** Every reachable peak ends a trail. *)
Lemma reach_trail inp s p :
  rtc (climb inp) s p → Trail.isNumber (Trail.gridAt inp p.1 p.2) 9 = true →
  ∃ t, trailFrom inp s t ∧ last t = Some p.
Proof.
  intros Hr H9. induction Hr as [x|x y z Hxy Hyz IH].
  - exists [x]. by split.
  - destruct (IH H9) as (t & [Hhead Htrail] & Hlast).
    destruct t as [|b t]; [done|]. simpl in Hhead. injection Hhead as ->.
    exists (x :: y :: t). split; [by split|]. by rewrite last_cons, Hlast.
Qed.

Lemma peaks_le_trails inp s (peaks : list (Z * Z)) (trails : list (list (Z * Z))) :
  NoDup peaks → (∀ p, p ∈ peaks → reachablePeak inp s p) →
  (∀ t, trailFrom inp s t → t ∈ trails) →
  (length peaks ≤ length trails)%nat.
Proof.
  intros Hnd Hpeaks Htrails.
  rewrite <- (length_fmap (λ t, default s (last t)) trails).
  apply submseteq_length, NoDup_submseteq; [done|].
  intros p [Hr H9]%Hpeaks.
  destruct (reach_trail inp s p Hr H9) as (t & Ht & Hlast).
  apply list_elem_of_fmap. exists t. split; [by rewrite Hlast|by apply Htrails].
Qed.

Lemma part1_spec inp (fuel : nat) :
  (searchFuel inp ≤ fuel)%nat →
  ∃ peaksOf : list (list (Z * Z)),
    Trail.part1 inp fuel = Some (sumZ (λ ps, Z.of_nat (length ps)) peaksOf) ∧
    Forall2 (λ t ps, NoDup ps ∧ ∀ p, p ∈ ps ↔ reachablePeak inp t p)
      (Trail.getTrailheads inp) peaksOf.
Proof.
  intros Hf. unfold Trail.part1.
  edestruct (forEachM_invariant
               (λ sum '(r, c), n ← Trail.countReachableNines inp fuel r c; Some (sum + n))
               (λ done (sum : Z),
                  ∃ peaksOf : list (list (Z * Z)),
                    sum = sumZ (λ ps, Z.of_nat (length ps)) peaksOf ∧
                    Forall2 (λ t ps, NoDup ps ∧ ∀ p, p ∈ ps ↔ reachablePeak inp t p)
                      done peaksOf)
               (Trail.getTrailheads inp) [] 0) as (sum & Hrun & peaksOf & Hsum & Hall).
  { exists []. split; [done|]. constructor. }
  { intros done [r c] sum Ht (peaksOf & -> & Hall).
    apply elem_of_getTrailheads in Ht as [Hin _].
    destruct (countReachableNines_spec inp fuel r c Hin Hf) as (peaks & Hrun & Hnd & Hel).
    rewrite Hrun. simpl. eexists. split; [done|].
    exists (peaksOf ++ [peaks]). split; [by rewrite sumZ_snoc|].
    apply Forall2_app; [done|]. constructor; [done|constructor]. }
  simpl in Hall. rewrite Hrun, Hsum. by exists peaksOf.
Qed.

(** X22.  With fuel for every cell of the grid, [part1] totals over the
    trailheads the number of distinct cells of height 9 that climbing
    steps reach from the trailhead. *)
Theorem score_total inp (fuel : nat) :
  (searchFuel inp ≤ fuel)%nat →
  ∃ peaksOf : list (list (Z * Z)),
    Trail.part1 inp fuel = Some (sumZ (λ ps, Z.of_nat (length ps)) peaksOf) ∧
    Forall2 (λ t ps, NoDup ps ∧ ∀ p, p ∈ ps ↔ reachablePeak inp t p)
      (Trail.getTrailheads inp) peaksOf.
Proof. apply part1_spec. Qed.

Lemma score_total_witness :
  ∃ peaksOf : list (list (Z * Z)),
    Trail.part1 (Trail.parseInput Trail.exampleText) 64
    = Some (sumZ (λ ps, Z.of_nat (length ps)) peaksOf) ∧
    Forall2 (λ t ps, NoDup ps ∧
                     ∀ p, p ∈ ps ↔ reachablePeak (Trail.parseInput Trail.exampleText) t p)
      (Trail.getTrailheads (Trail.parseInput Trail.exampleText)) peaksOf.
Proof.
  apply (score_total (Trail.parseInput Trail.exampleText) 64). vm_compute. lia.
Defined.

(** X20.  From a start cell in bounds and with fuel for every cell of the
    grid, [countReachableNines] returns the number of distinct cells of
    height 9 that climbing steps reach from the start. *)
Theorem peaks_reachable inp (fuel : nat) r0 c0 :
  Trail.isInBounds inp r0 c0 = true → (searchFuel inp ≤ fuel)%nat →
  ∃ peaks : list (Z * Z),
    Trail.countReachableNines inp fuel r0 c0 = Some (Z.of_nat (length peaks)) ∧
    NoDup peaks ∧ ∀ p, p ∈ peaks ↔ reachablePeak inp (r0, c0) p.
Proof. apply countReachableNines_spec. Qed.

Lemma peaks_reachable_witness :
  ∃ peaks : list (Z * Z),
    Trail.countReachableNines (Trail.parseInput Trail.exampleText) 64 0 2
    = Some (Z.of_nat (length peaks)) ∧
    NoDup peaks ∧
    ∀ p, p ∈ peaks ↔ reachablePeak (Trail.parseInput Trail.exampleText) (0, 2) p.
Proof.
  apply (peaks_reachable (Trail.parseInput Trail.exampleText) 64 0 2);
    [reflexivity|vm_compute; lia].
Defined.

Lemma ratings_trails inp (ts : list (Z * Z)) :
  digitHeights inp →
  ∃ trailsOf : list (list (list (Z * Z))),
    sumZ (λ p, paths inp p.1 p.2) ts = sumZ (λ l, Z.of_nat (length l)) trailsOf ∧
    Forall2 (λ t l, NoDup l ∧ ∀ p, p ∈ l ↔ trailFrom inp t p) ts trailsOf.
Proof.
  intros Hd. induction ts as [|[r c] ts (trailsOf & Hsum & Hall)].
  - exists []. split; [done|constructor].
  - destruct (paths_trails inp r c Hd) as (trails & Hnd & Hel & Hlen).
    exists (trails :: trailsOf). split; [simpl; by rewrite Hsum, Hlen|].
    by constructor.
Qed.

(** X19.  On any parsed input, [part2] at recursion depth 9 or more totals
    over the trailheads the number of distinct hiking trails that start
    at the trailhead: sharing one memo table between the trailheads
    changes no count. *)
Theorem rating_total text (fuel : nat) :
  (9 ≤ fuel)%nat →
  ∃ trailsOf : list (list (list (Z * Z))),
    Trail.part2 (Trail.parseInput text) fuel
    = Some (sumZ (λ l, Z.of_nat (length l)) trailsOf) ∧
    Forall2 (λ t l, NoDup l ∧ ∀ p, p ∈ l ↔ trailFrom (Trail.parseInput text) t p)
      (Trail.getTrailheads (Trail.parseInput text)) trailsOf.
Proof.
  intros Hf. pose proof (parse_digitHeights text) as Hd.
  destruct (ratings_trails _ (Trail.getTrailheads (Trail.parseInput text)) Hd)
    as (trailsOf & Hsum & Hall).
  exists trailsOf. split; [|done].
  by rewrite (part2_spec _ fuel Hd Hf), Hsum.
Qed.

Lemma rating_total_witness :
  ∃ trailsOf : list (list (list (Z * Z))),
    Trail.part2 (Trail.parseInput Trail.exampleText) 9
    = Some (sumZ (λ l, Z.of_nat (length l)) trailsOf) ∧
    Forall2 (λ t l, NoDup l ∧
                    ∀ p, p ∈ l ↔ trailFrom (Trail.parseInput Trail.exampleText) t p)
      (Trail.getTrailheads (Trail.parseInput Trail.exampleText)) trailsOf.
Proof. apply (rating_total Trail.exampleText 9). lia. Defined.

Lemma scores_le_ratings inp (ts : list (Z * Z)) (peaksOf : list (list (Z * Z))) :
  digitHeights inp →
  Forall2 (λ t ps, NoDup ps ∧ ∀ p, p ∈ ps ↔ reachablePeak inp t p) ts peaksOf →
  0 ≤ sumZ (λ ps, Z.of_nat (length ps)) peaksOf
  ∧ sumZ (λ ps, Z.of_nat (length ps)) peaksOf ≤ sumZ (λ p, paths inp p.1 p.2) ts.
Proof.
  intros Hd Hall. induction Hall as [|[r c] ps ts peaksOf [Hnd Hel] _ IH]; [done|].
  simpl. destruct (paths_trails inp r c Hd) as (trails & _ & Htr & ->).
  pose proof (peaks_le_trails inp (r, c) ps trails Hnd (λ p, proj1 (Hel p))
                (λ t, proj2 (Htr t))).
  lia.
Qed.

(** X23.  On every input text and with enough fuel the script prints two
    totals, and the first (the scores) is never above the second (the
    ratings): every reachable peak ends at least one trail. *)
Theorem score_at_most_rating text (fuel : nat) :
  (9 ≤ fuel)%nat → (searchFuel (Trail.parseInput text) ≤ fuel)%nat →
  ∃ a b, Trail.main fuel text = Some (a, b) ∧ 0 ≤ a ∧ a ≤ b.
Proof.
  intros Hf9 Hf. pose proof (parse_digitHeights text) as Hd.
  destruct (part1_spec (Trail.parseInput text) fuel Hf) as (peaksOf & H1 & Hall).
  pose proof (part2_spec (Trail.parseInput text) fuel Hd Hf9) as H2.
  unfold Trail.main. rewrite H1, H2. simpl. eexists _, _. split; [done|].
  by apply scores_le_ratings.
Qed.

Lemma score_at_most_rating_witness :
  ∃ a b, Trail.main 64 Trail.exampleText = Some (a, b) ∧ 0 ≤ a ∧ a ≤ b.
Proof.
  apply (score_at_most_rating Trail.exampleText 64); [lia|vm_compute; lia].
Defined.
